(** * ask-plugin: pull-request context assembly

    A shallow embedding of [src/helpers/pull-request-fetching.ts]:
    - [parsePerFileDiffs], [isEssentialFile] and [processPullRequestDiff]
      (diff splitting and token-budget allocation);
    - [fetchPullRequestComments] (dual-cursor GraphQL pagination).

    JavaScript strings are sequences of UTF-16 code units; they are modelled
    as lists of code units ([N]).  Token counts and budgets are integers
    ([Z]) with exact arithmetic, which is the arithmetic of the code on
    safe integers; the statements that depend on a sum staying exact say
    so.  The asynchronous calls are sequential in effect and are modelled
    as plain function calls. *)

From Stdlib Require Import Ascii String List ZArith NArith Lia Bool Sorted
  Permutation.
From Stdlib Require DecimalString.
Import ListNotations.

Local Open Scope list_scope.

(** ** JavaScript string primitives *)

Module Js.

Definition char := N.
Definition str := list char.

(** An ASCII literal as a JavaScript string. *)
Definition lit (s : string) : str := map N_of_ascii (list_ascii_of_string s).

(** ECMAScript LineTerminator: LF, CR, LS, PS.  The regular expression
    atoms [.], [^] and [$] (with the [m] flag) are defined from it. *)
Definition isLineTerminator (c : char) : bool :=
  (N.eqb c 10 || N.eqb c 13 || N.eqb c 8232 || N.eqb c 8233)%bool.

(** Code units removed by [String.prototype.trim]: WhiteSpace (TAB, VT, FF,
    ZWNBSP and the Unicode category Zs) and LineTerminator. *)
Definition isWhiteSpace (c : char) : bool :=
  (N.eqb c 9 || N.eqb c 11 || N.eqb c 12 || N.eqb c 32 || N.eqb c 160
   || N.eqb c 5760 || (N.leb 8192 c && N.leb c 8202)
   || N.eqb c 8239 || N.eqb c 8287 || N.eqb c 12288 || N.eqb c 65279
   || isLineTerminator c)%bool.

Fixpoint dropWhile (p : char -> bool) (s : str) : str :=
  match s with
  | [] => []
  | c :: s' => if p c then dropWhile p s' else s
  end.

Definition trimStart (s : str) : str := dropWhile isWhiteSpace s.
Definition trimEnd (s : str) : str := rev (dropWhile isWhiteSpace (rev s)).

(** [s.trim()] *)
Definition trim (s : str) : str := trimEnd (trimStart s).

(** [s.substring(a, b)]: both indices are clamped to the length and swapped
    when out of order. *)
Definition substring (s : str) (a b : nat) : str :=
  let a' := Nat.min a (length s) in
  let b' := Nat.min b (length s) in
  let lo := Nat.min a' b' in
  let hi := Nat.max a' b' in
  firstn (hi - lo) (skipn lo s).

(** [s.substring(a)] *)
Definition substringFrom (s : str) (a : nat) : str := skipn a s.

(** [stripPrefix p s] is [Some r] exactly when [s] is [p] followed by [r]. *)
Fixpoint stripPrefix (p s : str) : option str :=
  match p, s with
  | [], _ => Some s
  | a :: p', b :: s' => if N.eqb a b then stripPrefix p' s' else None
  | _ :: _, [] => None
  end.

(** [a === b] on strings *)
Fixpoint eqb (a b : str) : bool :=
  match a, b with
  | [], [] => true
  | x :: a', y :: b' => (N.eqb x y && eqb a' b')%bool
  | _, _ => false
  end.

(** [s.endsWith(suffix)] *)
Definition endsWith (s suffix : str) : bool :=
  match stripPrefix (rev suffix) (rev s) with
  | Some _ => true
  | None => false
  end.

(** [parts.join(sep)] *)
Fixpoint join (sep : str) (parts : list str) : str :=
  match parts with
  | [] => []
  | [p] => p
  | p :: rest => p ++ sep ++ join sep rest
  end.

(** The code unit before index [i], if any. *)
Definition charBefore (s : str) (i : nat) : option char :=
  match i with
  | 0 => None
  | S j => nth_error s j
  end.

End Js.

Import Js.

(** ** The header pattern [/^diff --git a\/(.*?) b\/.*$/gm] *)

Module DiffPattern.

Definition headerPrefix : str := lit "diff --git a/".
Definition headerInfix : str := lit " b/".

(** [^] under the [m] flag: at the start of the input or just after a line
    terminator. *)
Definition atLineStart (prev : option char) : bool :=
  match prev with
  | None => true
  | Some c => isLineTerminator c
  end.

(** Greedy [.*] followed by [$]: [.] takes every code unit that is not a line
    terminator, so the run stops at the end of the line, where [$] holds.
    Returns the number of code units consumed. *)
Fixpoint dotStar (s : str) : nat :=
  match s with
  | [] => 0
  | c :: s' => if isLineTerminator c then 0 else S (dotStar s')
  end.

(** Lazy [(.*?)] followed by the literal [ b/]: the capture grows one code
    unit at a time (never across a line terminator) until the literal
    matches; what follows the literal, [.*$], always matches.  Returns the
    capture and the text after the literal. *)
Fixpoint lazyCapture (s : str) : option (str * str) :=
  match stripPrefix headerInfix s with
  | Some rest => Some ([], rest)
  | None =>
      match s with
      | [] => None
      | c :: s' =>
          if isLineTerminator c then None
          else match lazyCapture s' with
               | Some (cap, rest) => Some (c :: cap, rest)
               | None => None
               end
      end
  end.

(** The pattern without its [^] anchor, matched at the head of [s]: the
    captured group 1 and the length of the whole match. *)
Definition matchHeader (s : str) : option (str * nat) :=
  match stripPrefix headerPrefix s with
  | None => None
  | Some afterPrefix =>
      match lazyCapture afterPrefix with
      | None => None
      | Some (cap, rest) =>
          Some (cap, length headerPrefix + length cap + length headerInfix
                     + dotStar rest)
      end
  end.

(** A successful [exec]: [match.index], [match[1]] and the length of
    [match[0]]. *)
Record Match := mkMatch { index : nat; group1 : str; matchLength : nat }.

(** The scan of [exec]: [s] is the input from index [i] on and [prev] the code
    unit before it; the leftmost position at which the pattern matches
    wins. *)
Fixpoint execScan (prev : option char) (s : str) (i : nat) : option Match :=
  match (if atLineStart prev then matchHeader s else None) with
  | Some (cap, len) => Some (mkMatch i cap len)
  | None =>
      match s with
      | [] => None
      | c :: s' => execScan (Some c) s' (S i)
      end
  end.

(** [diffPattern.exec(diff)] with the pattern's [lastIndex] at [lastIndex]:
    the search starts there.  On success the caller stores
    [index + matchLength] as the new [lastIndex]. *)
Definition exec (diff : str) (lastIndex : nat) : option Match :=
  if Nat.ltb (length diff) lastIndex then None
  else execScan (charBefore diff lastIndex) (skipn lastIndex diff) lastIndex.

(** The number of header lines of an input: the positions, counted one by
    one, at which the pattern matches. *)
Fixpoint countHeaders (prev : option char) (s : str) : nat :=
  (match (if atLineStart prev then matchHeader s else None) with
   | Some _ => 1
   | None => 0
   end)
  + match s with
    | [] => 0
    | c :: s' => countHeaders (Some c) s'
    end.

End DiffPattern.

Import DiffPattern.

(** ** [parsePerFileDiffs] *)

Record FileDiff := mkFileDiff { filename : str; diffContent : str }.

(** [perFileDiffs[perFileDiffs.length - 1].diffContent = content] *)
Definition setLastContent (perFileDiffs : list FileDiff) (content : str)
  : list FileDiff :=
  match rev perFileDiffs with
  | [] => []
  | last :: before => rev before ++ [mkFileDiff (filename last) content]
  end.

(** The [while ((match = diffPattern.exec(diff)) !== null)] loop.  The state
    is [perFileDiffs], the local [lastIndex] and the pattern's own
    [lastIndex] (here [reLastIndex]).  [None] means the fuel ran out. *)
Fixpoint parseLoop (fuel : nat) (diff : str) (perFileDiffs : list FileDiff)
  (lastIndex reLastIndex : nat) : option (list FileDiff * nat) :=
  match fuel with
  | 0 => None
  | S fuel' =>
      match exec diff reLastIndex with
      | None => Some (perFileDiffs, lastIndex)
      | Some m =>
          let startIndex := index m in
          let perFileDiffs1 :=
            if Nat.ltb 0 (length perFileDiffs)
            then setLastContent perFileDiffs
                   (trim (substring diff lastIndex startIndex))
            else perFileDiffs in
          parseLoop fuel' diff
            (perFileDiffs1 ++ [mkFileDiff (group1 m) []])
            startIndex (startIndex + matchLength m)
      end
  end.

Definition parseWithFuel (fuel : nat) (diff : str) : option (list FileDiff) :=
  match parseLoop fuel diff [] 0 0 with
  | None => None
  | Some (perFileDiffs, lastIndex) =>
      Some (if (Nat.ltb 0 (length perFileDiffs)
                && Nat.ltb lastIndex (length diff))%bool
            then setLastContent perFileDiffs
                   (trim (substringFrom diff lastIndex))
            else perFileDiffs)
  end.

(** Every match is at least sixteen code units long, so the loop runs at most
    once per code unit of the input, plus the final failing [exec]. *)
Definition parsePerFileDiffs (diff : str) : list FileDiff :=
  match parseWithFuel (S (length diff)) diff with
  | Some perFileDiffs => perFileDiffs
  | None => []
  end.

(** *** Vocabulary for the statements about [parsePerFileDiffs] *)

Definition whiteSpaceOnly (s : str) : Prop :=
  Forall (fun c => isWhiteSpace c = true) s.

(** Each content followed by its separator, in order. *)
Definition weave (contents seps : list str) : str :=
  concat (map (fun p => fst p ++ snd p) (combine contents seps)).

(** The index of the first header line, the length of the input when it
    has none. *)
Definition firstHeaderIndex (diff : str) : nat :=
  match exec diff 0 with
  | Some m => index m
  | None => length diff
  end.

(** The content of a segment starts with a header line whose capture is the
    segment's file name. *)
Definition headed (seg : FileDiff) : Prop :=
  exists len, matchHeader (diffContent seg) = Some (filename seg, len).

(** The segments cover the whole input: the input is the contents in order,
    with white space (what [trim] removes) before, between and after
    them. *)
Definition coversInput (diff : str) (segs : list FileDiff) : Prop :=
  exists before seps,
    length seps = length segs
    /\ whiteSpaceOnly before
    /\ Forall whiteSpaceOnly seps
    /\ diff = before ++ weave (map diffContent segs) seps.

(** ** [isEssentialFile] and [processPullRequestDiff] *)

(** [{ filename, estimatedTokenCount, diffContent }] *)
Module Est.
Record t := mk { filename : str; estimatedTokenCount : Z; diffContent : str }.
End Est.

(** [{ ...file, tokenCount }] *)
Module Acc.
Record t := mk
  { filename : str; estimatedTokenCount : Z; diffContent : str;
    tokenCount : Z }.
End Acc.

(** The two fields of [TokenLimits] that [processPullRequestDiff] reads. *)
Record TokenLimits := mkTokenLimits
  { runningTokenCount : Z; tokensRemaining : Z }.

Definition nonEssentialExtensions : list str :=
  map lit
    [ (* Image files *)
      ".png"; ".jpg"; ".jpeg"; ".gif"; ".bmp"; ".tiff"; ".svg"; ".ico";
      ".psd"; ".ai"; ".eps";
      (* Video files *)
      ".mp4"; ".avi"; ".mov"; ".wmv"; ".flv"; ".mkv"; ".webm"; ".mpeg";
      ".mpg"; ".m4v";
      (* Audio files *)
      ".mp3"; ".wav"; ".flac"; ".aac"; ".ogg"; ".wma"; ".m4a"; ".aiff";
      ".ape";
      (* Document files *)
      ".pdf"; ".doc"; ".docx"; ".xls"; ".xlsx"; ".ppt"; ".pptx"; ".odt";
      ".ods"; ".odp";
      (* Archive files *)
      ".zip"; ".rar"; ".7z"; ".tar"; ".gz"; ".bz2"; ".xz"; ".lz"; ".z";
      (* Executable and binary files *)
      ".exe"; ".dll"; ".so"; ".dylib"; ".bin"; ".class"; ".jar"; ".war";
      ".ear"; ".msi"; ".apk"; ".ipa";
      (* Compiled object files *)
      ".o"; ".obj"; ".pyc"; ".pyo"; ".pyd"; ".lib"; ".a"; ".dSYM";
      (* System and temporary files *)
      ".sys"; ".tmp"; ".bak"; ".old"; ".swp"; ".swo"; ".lock"; ".cfg";
      ".ini";
      (* Database files *)
      ".db"; ".sqlite"; ".sqlite3"; ".mdb"; ".accdb"; ".dbf"; ".frm";
      ".myd"; ".myi";
      (* Font files *)
      ".ttf"; ".otf"; ".woff"; ".woff2"; ".eot";
      (* Backup and miscellaneous files *)
      ".log"; ".bak"; ".orig"; ".sav"; ".save"; ".dump";
      (* Other non-essential files *)
      ".crt"; ".pem"; ".key"; ".csr"; ".der"; ".plist"; ".mobileprovision";
      ".icns"; ".ds_store"; "thumbs.db"; "desktop.ini";
      (* Generated files *)
      ".map"; ".min.js"; ".d.ts"; ".map.js"; ".map.css"; ".bundle.js";
      ".bundle.css"; ".bundle.js.map"; ".bundle.css.map"; ".bundle.min.js"
    ]%string.

(** [Math.ceil(length / 3.5)].  3.5 is a binary fraction and a string length
    stays far below 2^53, so the floating-point quotient rounds up to the
    same integer as the exact quotient [2 * length / 7]. *)
Definition estimateTokens (content : str) : Z :=
  (2 * Z.of_nat (length content) + 6) / 7.

(** [sort((a, b) => a.estimatedTokenCount - b.estimatedTokenCount)].
    [Array.prototype.sort] is stable, which fixes its result: ascending
    estimates, equal estimates in their previous order.  Insertion from the
    right computes that arrangement. *)
Fixpoint insertByEstimate (f : Est.t) (sorted : list Est.t) : list Est.t :=
  match sorted with
  | [] => [f]
  | g :: rest =>
      if (Est.estimatedTokenCount f <=? Est.estimatedTokenCount g)%Z
      then f :: sorted
      else g :: insertByEstimate f rest
  end.

Definition sortByEstimate (files : list Est.t) : list Est.t :=
  fold_right insertByEstimate [] files.

(** The [for (const file of estimatedFileDiffStats)] loop: the files pushed
    to [includedFileDiffs], in the order they are pushed.  The sum is the
    exact one, which is the double-precision sum of the code while the
    counts are safe integers; from 2^53 on the code rounds. *)
Fixpoint includeByEstimate (remaining currentTokenCount : Z)
  (files : list Est.t) : list Est.t :=
  match files with
  | [] => []
  | file :: rest =>
      if (currentTokenCount + Est.estimatedTokenCount file >? remaining)%Z
      then includeByEstimate remaining currentTokenCount rest
      else file :: includeByEstimate remaining
                     (currentTokenCount + Est.estimatedTokenCount file) rest
  end.

(** The [while (currentTokenCount > tokensRemaining && length > 0)] loop.
    [pop] removes the last element, so the array is held reversed here: the
    head of [reversed] is the file [pop] returns.  The difference is the
    exact one, which is that of the code while the counts are safe
    integers. *)
Fixpoint evictLoop (remaining currentTokenCount : Z) (reversed : list Acc.t)
  : Z * list Acc.t :=
  match reversed with
  | [] => (currentTokenCount, [])
  | removedFile :: rest =>
      if (currentTokenCount >? remaining)%Z
      then evictLoop remaining
             (currentTokenCount - Acc.tokenCount removedFile)%Z rest
      else (currentTokenCount, reversed)
  end.

Section Allocation.

(** [String.prototype.toLowerCase], the full Unicode mapping. *)
Variable toLowerCase : str -> str.

(** [encode(text, { disallowedSpecial: new Set() })] of gpt-tokenizer: the
    token array of a text. *)
Variable encode : str -> list N.

Definition isEssentialFile (name : str) : bool :=
  negb (existsb (fun ext => endsWith (toLowerCase name) ext)
          nonEssentialExtensions).

Definition essentialFileDiffs (diff : str) : list FileDiff :=
  filter (fun f => isEssentialFile (filename f)) (parsePerFileDiffs diff).

Definition estimate (f : FileDiff) : Est.t :=
  Est.mk (filename f) (estimateTokens (diffContent f)) (diffContent f).

(** [estimatedFileDiffStats] after the in-place sort. *)
Definition estimatedFileDiffStats (essential : list FileDiff) : list Est.t :=
  sortByEstimate (map estimate essential).

Definition includedFileDiffs (essential : list FileDiff)
  (limits : TokenLimits) : list Est.t :=
  includeByEstimate (tokensRemaining limits) (runningTokenCount limits)
    (estimatedFileDiffStats essential).

Definition measure (file : Est.t) : Acc.t :=
  Acc.mk (Est.filename file) (Est.estimatedTokenCount file)
    (Est.diffContent file)
    (Z.of_nat (length (encode (Est.diffContent file)))).

(** [accurateFileDiffStats] as [Promise.all] returns it. *)
Definition measuredFileDiffs (essential : list FileDiff)
  (limits : TokenLimits) : list Acc.t :=
  map measure (includedFileDiffs essential limits).

(** The eviction of one array: the exact total is taken first, then files
    are popped while it exceeds the budget.  The [reduce] adds in double
    precision, which gives the exact total while the counts are safe
    integers. *)
Definition evict (limits : TokenLimits) (measured : list Acc.t)
  : list Acc.t :=
  let currentTokenCount :=
    fold_left (fun sum file => (sum + Acc.tokenCount file)%Z) measured
      (runningTokenCount limits) in
  rev (snd (evictLoop (tokensRemaining limits) currentTokenCount
              (rev measured))).

(** [accurateFileDiffStats] after the eviction loop: the files whose content
    the result is built from (none when the function returns [null]). *)
Definition accurateFileDiffStats (essential : list FileDiff)
  (limits : TokenLimits) : list Acc.t :=
  evict limits (measuredFileDiffs essential limits).

(** [processPullRequestDiff] from the estimate on: the budget allocation
    over the essential files.  The result is the [diff] field of the
    returned object, [None] for [null]. *)
Definition allocateBudget (essential : list FileDiff) (limits : TokenLimits)
  : option str :=
  match includedFileDiffs essential limits with
  | [] => None
  | _ :: _ =>
      match accurateFileDiffStats essential limits with
      | [] => None
      | kept => Some (join (lit "
") (map Acc.diffContent kept))
      end
  end.

(** [processPullRequestDiff(diff, tokenLimits)] *)
Definition processPullRequestDiff (diff : str) (limits : TokenLimits)
  : option str :=
  allocateBudget (essentialFileDiffs diff) limits.

(** The segments of the result, as the files of the source diff that are
    among them, in the order the source diff has them. *)
Definition inSourceOrder (source : list FileDiff) (kept : list Acc.t)
  : list FileDiff :=
  filter (fun f =>
            existsb (fun k => (Js.eqb (filename f) (Acc.filename k)
                               && Js.eqb (diffContent f) (Acc.diffContent k))%bool)
              kept)
    source.

End Allocation.

(** A lower-casing that agrees with [toLowerCase] on ASCII text. *)
Definition asciiLowerCase (s : str) : str :=
  map (fun c => if (N.leb 65 c && N.leb c 90)%bool then (c + 32)%N else c) s.

(** A token counter with one token per code unit. *)
Definition unitEncode (s : str) : list N := s.

(** The exact total of a list of measured files. *)
Definition totalTokens (files : list Acc.t) : Z :=
  fold_right (fun file sum => (Acc.tokenCount file + sum)%Z) 0%Z files.

(** Ascending estimates. *)
Definition estimateLe (a b : Est.t) : Prop :=
  (Est.estimatedTokenCount a <= Est.estimatedTokenCount b)%Z.

(** Two files, the larger one first in the diff. *)
Definition twoFileDiff : str :=
  lit "diff --git a/big.ts b/big.ts
+a long line of text
diff --git a/s.ts b/s.ts
+x
".

(** ** [fetchPullRequestComments] *)

(** The part of [PullRequestGraphQlResponse] under
    [repository.pullRequest].  The three top-level [nodes] fields are
    tested for a value before they are iterated, so they are optional
    here; the nested objects are flattened into their leaves.  The
    interface declares [author] as an object, but the upstream answers
    [author: null] for a comment whose account was deleted, so the field is
    optional here. *)
Module Gql.

Record Author := mkAuthor { login : str; type : str }.

Record CommentNode := mkCommentNode
  { id : str; body : str; author : option Author }.

(** [{ comments: { nodes } }] *)
Record ReviewNode := mkReviewNode { reviewComments : list CommentNode }.

Record PageInfo := mkPageInfo { hasNextPage : bool; endCursor : option str }.

Record IssueNode := mkIssueNode
  { number : Z; url : str; issueBody : str;
    ownerLogin : str; repositoryName : str }.

Record PullRequest := mkPullRequest
  { prBody : str;
    closingIssuesReferences : option (list IssueNode);
    reviewsPageInfo : PageInfo;
    reviewsNodes : option (list ReviewNode);
    commentsPageInfo : PageInfo;
    commentsNodes : option (list CommentNode) }.

(** The variables of one query that change between pages. *)
Record Variables := mkVariables
  { commentsAfter : option str; reviewsAfter : option str }.

End Gql.

Record User := mkUser { userLogin : str; userType : str }.

Record SimplifiedComment := mkSimplifiedComment
  { commentBody : str; user : User; commentId : str;
    org : str; repo : str; issueUrl : str }.

Record PullRequestLinkedIssue := mkLinkedIssue
  { issueNumber : Z; issueOwner : str; issueRepo : str;
    linkedUrl : str; linkedBody : str }.

Record FetchParams := mkFetchParams
  { owner : str; repoName : str; issueNum : N }.

Record FetchResult := mkFetchResult
  { comments : list SimplifiedComment;
    linkedIssues : list PullRequestLinkedIssue }.

(** What is thrown: by [octokit.graphql], or by the engine for a property
    read on [null]. *)
Definition Exn := str.

(** One call of the transport, as it happened: the variables sent and the
    page returned or the exception thrown. *)
Definition Call := (Gql.Variables * (Exn + Gql.PullRequest))%type.

(** The upstream, which may answer each call differently: its answer to the
    call that has [n] calls before it. *)
Definition Transport := nat -> Gql.Variables -> Exn + Gql.PullRequest.

(** Computations that call the transport and may throw: they read and extend
    the log of calls, and end in a value or in an exception. *)
Definition M (A : Type) := list Call -> (Exn + A) * list Call.

Definition ret {A} (a : A) : M A := fun log => (inr a, log).

Definition bind {A B} (m : M A) (k : A -> M B) : M B :=
  fun log =>
    match m log with
    | (inl e, log') => (inl e, log')
    | (inr a, log') => k a log'
    end.

Notation "x <- m ;; k" := (bind m (fun x => k))
  (at level 61, m at next level, right associativity).

(** [try { body } catch (error) { handler }] *)
Definition tryCatch {A} (body : M A) (handler : Exn -> M A) : M A :=
  fun log =>
    match body log with
    | (inl e, log') => handler e log'
    | (inr a, log') => (inr a, log')
    end.

(** [await octokit.graphql(query, variables)] *)
Definition graphql (upstream : Transport) (vars : Gql.Variables)
  : M Gql.PullRequest :=
  fun log => (upstream (length log) vars, log ++ [(vars, upstream (length log) vars)]).

Definition MAX_PAGES : nat := 100.

(** The locals of [fetchPullRequestComments] that the loop updates. *)
Record LoopState := mkLoopState
  { allComments : list SimplifiedComment;
    linkedIssuesAcc : list PullRequestLinkedIssue;
    hasMoreComments : bool;
    hasMoreReviews : bool;
    commentsEndCursor : option str;
    reviewsEndCursor : option str;
    pageCount : nat }.

(** [!cursor] for a [string | null]: [null] and the empty string are
    falsy. *)
Definition isFalsy (cursor : option str) : bool :=
  match cursor with
  | None => true
  | Some [] => true
  | Some (_ :: _) => false
  end.

(** What reading [comment.author.type] throws when [author] is null. *)
Definition typeError : Exn :=
  lit "TypeError: Cannot read properties of null (reading 'type')".

(** A value used as a computation: an exception is thrown, anything else
    is returned. *)
Definition fromSum {A} (r : Exn + A) : M A := fun log => (r, log).

Section Pagination.

(** The text that a template literal writes for a number. *)
Variable numberToString : N -> str.

Variable params : FetchParams.

(** The object pushed to [allComments] for a node and its author. *)
Definition simplify (comment : Gql.CommentNode) (author : Gql.Author)
  : SimplifiedComment :=
  mkSimplifiedComment
    (Gql.body comment)
    (mkUser (Gql.login author) (Gql.type author))
    (Gql.id comment)
    (owner params)
    (repoName params)
    (lit "https://github.com/" ++ owner params ++ lit "/" ++ repoName params
       ++ lit "/pull/" ++ numberToString (issueNum params)).

(** [author.type !== "Bot"] *)
Definition notBot (author : Gql.Author) : bool :=
  negb (Js.eqb (Gql.type author) (lit "Bot")).

(** The body of the two comment loops for one node: the test reads
    [comment.author.type], which throws when the author is null. *)
Definition pushComment (allComments : list SimplifiedComment)
  (comment : Gql.CommentNode) : Exn + list SimplifiedComment :=
  match Gql.author comment with
  | None => inl typeError
  | Some author =>
      if notBot author
      then inr (allComments ++ [simplify comment author])
      else inr allComments
  end.

(** [for (const comment of nodes) { ... }] *)
Fixpoint pushComments (allComments : list SimplifiedComment)
  (nodes : list Gql.CommentNode) : Exn + list SimplifiedComment :=
  match nodes with
  | [] => inr allComments
  | comment :: rest =>
      match pushComment allComments comment with
      | inl e => inl e
      | inr allComments' => pushComments allComments' rest
      end
  end.

(** [for (const review of nodes) { for (const comment of
    review.comments.nodes) { ... } }] *)
Fixpoint pushReviewComments (allComments : list SimplifiedComment)
  (reviews : list Gql.ReviewNode) : Exn + list SimplifiedComment :=
  match reviews with
  | [] => inr allComments
  | review :: rest =>
      match pushComments allComments (Gql.reviewComments review) with
      | inl e => inl e
      | inr allComments' => pushReviewComments allComments' rest
      end
  end.

(** The object pushed to [linkedIssues] for one node. *)
Definition linkIssue (issue : Gql.IssueNode) : PullRequestLinkedIssue :=
  mkLinkedIssue (Gql.number issue) (Gql.ownerLogin issue)
    (Gql.repositoryName issue) (Gql.url issue) (Gql.issueBody issue).

(** [for (const issue of nodes) { linkedIssues.push(...) }] *)
Fixpoint pushIssues (linkedIssues : list PullRequestLinkedIssue)
  (nodes : list Gql.IssueNode) : list PullRequestLinkedIssue :=
  match nodes with
  | [] => linkedIssues
  | issue :: rest => pushIssues (linkedIssues ++ [linkIssue issue]) rest
  end.

(** The loop body from the processing of a page to the update of the flags
    and cursors; [pageCount] was incremented before the query.  It throws
    when one of the comment loops does. *)
Definition processPage (st : LoopState) (prData : Gql.PullRequest)
  : Exn + LoopState :=
  match
    match Gql.commentsNodes prData with
    | Some nodes => pushComments (allComments st) nodes
    | None => inr (allComments st)
    end
  with
  | inl e => inl e
  | inr withComments =>
      match
        match Gql.reviewsNodes prData with
        | Some reviews => pushReviewComments withComments reviews
        | None => inr withComments
        end
      with
      | inl e => inl e
      | inr withReviews =>
          inr (mkLoopState
                 withReviews
                 (if (isFalsy (commentsEndCursor st)
                      && isFalsy (reviewsEndCursor st))%bool
                  then match Gql.closingIssuesReferences prData with
                       | Some nodes => pushIssues (linkedIssuesAcc st) nodes
                       | None => linkedIssuesAcc st
                       end
                  else linkedIssuesAcc st)
                 (Gql.hasNextPage (Gql.commentsPageInfo prData))
                 (Gql.hasNextPage (Gql.reviewsPageInfo prData))
                 (Gql.endCursor (Gql.commentsPageInfo prData))
                 (Gql.endCursor (Gql.reviewsPageInfo prData))
                 (S (pageCount st)))
      end
  end.

Variable upstream : Transport.

(** [while (hasMoreComments || hasMoreReviews) { ... }]; the value is the
    state at the exit of the loop, [None] when the fuel ran out. *)
Fixpoint whileLoop (fuel : nat) (st : LoopState) : M (option LoopState) :=
  match fuel with
  | 0 => ret None
  | S fuel' =>
      if (hasMoreComments st || hasMoreReviews st)%bool then
        if Nat.leb MAX_PAGES (pageCount st) then ret (Some st)
        else
          prData <- graphql upstream
                      (Gql.mkVariables (commentsEndCursor st)
                         (reviewsEndCursor st)) ;;
          st' <- fromSum (processPage st prData) ;;
          if (negb (hasMoreComments st') && negb (hasMoreReviews st'))%bool
          then ret (Some st')
          else whileLoop fuel' st'
      else ret (Some st)
  end.

Definition initialState : LoopState :=
  mkLoopState [] [] true true None None 0.

(** The whole function: the [try] block and its [catch]. *)
Definition fetchWithFuel (fuel : nat) : M (option FetchResult) :=
  tryCatch
    (final <- whileLoop fuel initialState ;;
     ret (match final with
          | Some st => Some (mkFetchResult (allComments st) (linkedIssuesAcc st))
          | None => None
          end))
    (fun _ => ret (Some (mkFetchResult [] []))).

(** [fetchPullRequestComments(params)], run from an empty log with fuel for
    [MAX_PAGES] queries and one more test of the guard.  The first component
    is [inr (Some r)] when the function returns [r], [inl e] when it lets
    the exception [e] escape, and [inr None] when the fuel does not
    suffice; the second is the log of the calls made. *)
Definition fetchPullRequestComments : (Exn + option FetchResult) * list Call :=
  fetchWithFuel (S MAX_PAGES) [].

End Pagination.

(** The digits of a number: what a template literal writes for an integer
    below 10^21, as the number of an issue or pull request is. *)
Definition decimal (n : N) : str :=
  lit (DecimalString.NilEmpty.string_of_uint (N.to_uint n)).

(** *** What the pages of a log hold

    The contract of the function in terms of the pages received, written
    from the shape of the pages and of the result, not from the loops. *)

(** The comment nodes of a page: the top-level ones, then those nested in
    each review. *)
Definition pageNodes (prData : Gql.PullRequest) : list Gql.CommentNode :=
  match Gql.commentsNodes prData with
  | Some nodes => nodes
  | None => []
  end
  ++ match Gql.reviewsNodes prData with
     | Some reviews => flat_map Gql.reviewComments reviews
     | None => []
     end.

Definition noAuthor (node : Gql.CommentNode) : bool :=
  match Gql.author node with
  | None => true
  | Some _ => false
  end.

(** A page with a comment node whose author is null. *)
Definition lacksAuthor (prData : Gql.PullRequest) : bool :=
  existsb noAuthor (pageNodes prData).

(** A call that threw, or that returned a page with a node whose author is
    null. *)
Definition failed (call : Call) : bool :=
  match snd call with
  | inl _ => true
  | inr prData => lacksAuthor prData
  end.

(** The comment that the result holds for a node: none for a node of the
    author type [Bot]. *)
Definition survivor (numberToString : N -> str) (params : FetchParams)
  (node : Gql.CommentNode) : list SimplifiedComment :=
  match Gql.author node with
  | None => []
  | Some author =>
      if Js.eqb (Gql.type author) (lit "Bot") then []
      else [ {| commentBody := Gql.body node;
                user := {| userLogin := Gql.login author;
                           userType := Gql.type author |};
                commentId := Gql.id node;
                org := owner params;
                repo := repoName params;
                issueUrl :=
                  lit "https://github.com/" ++ owner params ++ lit "/"
                  ++ repoName params ++ lit "/pull/"
                  ++ numberToString (issueNum params) |} ]
  end.

(** The comments of the pages of a log, page by page in the order of the
    calls. *)
Definition loggedComments (numberToString : N -> str) (params : FetchParams)
  (log : list Call) : list SimplifiedComment :=
  flat_map (fun call : Call =>
              match snd call with
              | inr prData =>
                  flat_map (survivor numberToString params) (pageNodes prData)
              | inl _ => []
              end) log.

(** A request with a non-empty cursor for one of the two collections. *)
Definition carriesCursor (vars : Gql.Variables) : bool :=
  negb (isFalsy (Gql.commentsAfter vars) && isFalsy (Gql.reviewsAfter vars)).

(** The linked issue that the result holds for a node. *)
Definition issueOf (node : Gql.IssueNode) : PullRequestLinkedIssue :=
  {| issueNumber := Gql.number node;
     issueOwner := Gql.ownerLogin node;
     issueRepo := Gql.repositoryName node;
     linkedUrl := Gql.url node;
     linkedBody := Gql.issueBody node |}.

Definition pageIssues (prData : Gql.PullRequest)
  : list PullRequestLinkedIssue :=
  match Gql.closingIssuesReferences prData with
  | Some nodes => map issueOf nodes
  | None => []
  end.

(** The linked issues of the pages of a log that were requested without a
    cursor. *)
Definition loggedLinkedIssues (log : list Call)
  : list PullRequestLinkedIssue :=
  flat_map (fun call : Call =>
              match snd call with
              | inr prData =>
                  if carriesCursor (fst call) then [] else pageIssues prData
              | inl _ => []
              end) log.

(** The state of the loop after a page none of whose nodes lacks its
    author. *)
Definition afterPage (numberToString : N -> str) (params : FetchParams)
  (st : LoopState) (prData : Gql.PullRequest) : LoopState :=
  let vars := Gql.mkVariables (commentsEndCursor st) (reviewsEndCursor st) in
  mkLoopState
    (allComments st
     ++ flat_map (survivor numberToString params) (pageNodes prData))
    (linkedIssuesAcc st
     ++ (if carriesCursor vars then [] else pageIssues prData))
    (Gql.hasNextPage (Gql.commentsPageInfo prData))
    (Gql.hasNextPage (Gql.reviewsPageInfo prData))
    (Gql.endCursor (Gql.commentsPageInfo prData))
    (Gql.endCursor (Gql.reviewsPageInfo prData))
    (S (pageCount st)).

(** A call that ended in an exception. *)
Definition threw (call : Call) : bool :=
  match snd call with
  | inl _ => true
  | inr _ => false
  end.

(** An upstream that never throws and reports a next page on both
    collections, whatever it is asked. *)
Definition alwaysMore (upstream : Transport) : Prop :=
  forall n vars, exists prData,
    upstream n vars = inr prData
    /\ Gql.hasNextPage (Gql.commentsPageInfo prData) = true
    /\ Gql.hasNextPage (Gql.reviewsPageInfo prData) = true.

(** An upstream none of whose pages holds a comment node with a null
    author. *)
Definition authorsPresent (upstream : Transport) : Prop :=
  forall n vars prData,
    upstream n vars = inr prData -> lacksAuthor prData = false.

(** An upstream that follows the cursor protocol: a page that announces a
    next page on either collection carries a non-empty end cursor on one of
    them. *)
Definition followsCursorProtocol (upstream : Transport) : Prop :=
  forall n vars prData,
    upstream n vars = inr prData ->
    (Gql.hasNextPage (Gql.commentsPageInfo prData)
     || Gql.hasNextPage (Gql.reviewsPageInfo prData))%bool = true ->
    (isFalsy (Gql.endCursor (Gql.commentsPageInfo prData))
     && isFalsy (Gql.endCursor (Gql.reviewsPageInfo prData)))%bool = false.

(** *** Sample upstreams *)

Definition sampleParams : FetchParams :=
  mkFetchParams (lit "ubiquibot") (lit "ask-plugin") 7.

Definition humanComment : Gql.CommentNode :=
  Gql.mkCommentNode (lit "c1") (lit "looks good")
    (Some (Gql.mkAuthor (lit "alice") (lit "User"))).

Definition botComment : Gql.CommentNode :=
  Gql.mkCommentNode (lit "c2") (lit "coverage report")
    (Some (Gql.mkAuthor (lit "ci") (lit "Bot"))).

(** A comment whose account was deleted. *)
Definition ghostComment : Gql.CommentNode :=
  Gql.mkCommentNode (lit "c3") (lit "me too") None.

(** What the result holds for [humanComment]. *)
Definition humanSimplified : SimplifiedComment :=
  mkSimplifiedComment (lit "looks good")
    (mkUser (lit "alice") (lit "User")) (lit "c1")
    (lit "ubiquibot") (lit "ask-plugin")
    (lit "https://github.com/ubiquibot/ask-plugin/pull/7").

Definition sampleIssue : Gql.IssueNode :=
  Gql.mkIssueNode 12 (lit "https://github.com/ubiquibot/ask-plugin/issues/12")
    (lit "crash on start") (lit "ubiquibot") (lit "ask-plugin").

(** A page with one human and one bot comment at top level and in a review,
    and one linked issue. *)
Definition samplePage (more : bool) (cursor : option str) : Gql.PullRequest :=
  Gql.mkPullRequest (lit "body") (Some [sampleIssue])
    (Gql.mkPageInfo false None)
    (Some [Gql.mkReviewNode [botComment; humanComment]])
    (Gql.mkPageInfo more cursor)
    (Some [humanComment; botComment]).

(** Always another page of both collections. *)
Definition endlessUpstream : Transport :=
  fun _ _ =>
    inr (Gql.mkPullRequest (lit "body") (Some [sampleIssue])
           (Gql.mkPageInfo true (Some (lit "r")))
           (Some [Gql.mkReviewNode [botComment; humanComment]])
           (Gql.mkPageInfo true (Some (lit "c")))
           (Some [humanComment; botComment])).

(** Two pages of comments, then done. *)
Definition twoPageUpstream : Transport :=
  fun n _ =>
    match n with
    | 0 => inr (samplePage true (Some (lit "cursor1")))
    | _ => inr (samplePage false (Some (lit "cursor2")))
    end.

(** The second call fails. *)
Definition failingUpstream : Transport :=
  fun n _ =>
    match n with
    | 0 => inr (samplePage true (Some (lit "cursor1")))
    | _ => inl (lit "socket hang up")
    end.

(** The second page holds a comment whose author is null. *)
Definition ghostUpstream : Transport :=
  fun n _ =>
    match n with
    | 0 => inr (samplePage true (Some (lit "cursor1")))
    | _ =>
        inr (Gql.mkPullRequest (lit "body") (Some [sampleIssue])
               (Gql.mkPageInfo false None)
               None
               (Gql.mkPageInfo false (Some (lit "cursor2")))
               (Some [humanComment; ghostComment; humanComment]))
    end.

(** The first page announces more comments but carries no end cursor. *)
Definition cursorlessUpstream : Transport :=
  fun n _ =>
    match n with
    | 0 => inr (samplePage true None)
    | _ => inr (samplePage false None)
    end.

Definition sampleDiff : str :=
  lit "diff --git a/src/a.ts b/src/a.ts
+one
diff --git a/b.png b/b.png
+two
".

(** A comment of the result whose author type is not [Bot]. *)
Definition isHuman (c : SimplifiedComment) : Prop :=
  userType (user c) <> lit "Bot".

(** The linked issues of the page that answers the first call. *)
Definition firstPageIssues (upstream : Transport)
  : list PullRequestLinkedIssue :=
  match upstream 0 (Gql.mkVariables None None) with
  | inr prData => pageIssues prData
  | inl _ => []
  end.

(** *** Sample segments *)

Definition smallSegment : str := lit "diff --git a/s.ts b/s.ts
+x".

Definition bigSegment : str := lit "diff --git a/big.ts b/big.ts
+a long line of text".

Definition newline : str := lit "
".

(** *** Vocabulary for the proofs about the pattern and the parse loop *)

(** A code unit that [.] matches. *)
Definition notTerminator (c : char) : Prop := isLineTerminator c = false.

(** The header positions after the first code unit of [s]. *)
Definition countTail (s : str) : nat :=
  match s with
  | [] => 0
  | c :: s' => countHeaders (Some c) s'
  end.

(** The state of the loop between two iterations: the pattern's
    [lastIndex] is [k]; the segments and the header positions from [k] on
    add up to the header lines of the input; the last segment is open, its
    header line matched at [lastIndex] and ending at [k]; the segments
    before it are closed, and with their separators they make up the input
    from the first header line to [lastIndex]. *)
Definition loopInvariant (diff : str) (perFileDiffs : list FileDiff)
  (lastIndex k : nat) : Prop :=
  k <= length diff
  /\ length perFileDiffs + countHeaders (charBefore diff k) (skipn k diff)
     = countHeaders None diff
  /\ match rev perFileDiffs with
     | [] => lastIndex = 0 /\ k = 0
     | open :: closed =>
         (exists len,
            matchHeader (skipn lastIndex diff) = Some (filename open, len)
            /\ k = lastIndex + len)
         /\ Forall headed closed
         /\ exists seps,
              length seps = length closed
              /\ Forall whiteSpaceOnly seps
              /\ firstn lastIndex diff
                 = firstn (firstHeaderIndex diff) diff
                   ++ weave (map diffContent (rev closed)) seps
     end.

(** *** A diff with text before its first header line *)

Definition preambleDiff : str :=
  lit "junk
diff --git a/f.ts b/f.ts
+x
".

(** ** [fetchPullRequestDetails] *)

(** [fetchPullRequestDetails(context, org, repo, pullRequestNumber,
    tokenLimits)]: [pullsGet] is the outcome of
    [context.octokit.rest.pulls.get] in diff format, the diff text or the
    exception it throws; the result is the [diff] field. *)
Definition fetchPullRequestDetails (toLowerCase : str -> str)
  (encode : str -> list N) (pullsGet : Exn + str) (limits : TokenLimits)
  : option str :=
  match pullsGet with
  | inr diff => processPullRequestDiff toLowerCase encode diff limits
  | inl _ => None
  end.

(** The sum of the estimates of a list of files. *)
Definition totalEstimate (files : list Est.t) : Z :=
  fold_right (fun file sum => (Est.estimatedTokenCount file + sum)%Z) 0%Z
    files.

(** *** Safe integers

    The token counts are JavaScript numbers, and the code adds, subtracts
    and compares them in double precision.  The model computes with exact
    integers, which is what the code does as long as every operand and
    every result is a safe integer. *)

(** [Number.MAX_SAFE_INTEGER], 2^53 - 1. *)
Definition MAX_SAFE_INTEGER : Z := 9007199254740991.

(** [Number.isSafeInteger(n)] for an integer. *)
Definition isSafeInteger (n : Z) : Prop :=
  (- MAX_SAFE_INTEGER <= n <= MAX_SAFE_INTEGER)%Z.

(** The two limits are safe integers, and so are the estimates of all the
    candidates together and their exact counts together, alone and added
    to the running count.  The estimates and counts are not negative, so
    every operand of the two loops is one of these or less, and every sum
    they take lies between the running count and one of the two totals. *)
Definition safeAllocation (encode : str -> list N)
  (essential : list FileDiff) (limits : TokenLimits) : Prop :=
  isSafeInteger (runningTokenCount limits)
  /\ isSafeInteger (tokensRemaining limits)
  /\ isSafeInteger (totalEstimate (map estimate essential))
  /\ isSafeInteger
       (totalTokens (map (measure encode) (map estimate essential)))
  /\ isSafeInteger
       (runningTokenCount limits + totalEstimate (map estimate essential))
  /\ isSafeInteger
       (runningTokenCount limits
        + totalTokens (map (measure encode) (map estimate essential))).

(** *** Vocabulary for the statements about the log of a fetch *)

(** The page announces a next page on one of its two collections. *)
Definition announcesMore (prData : Gql.PullRequest) : bool :=
  (Gql.hasNextPage (Gql.commentsPageInfo prData)
   || Gql.hasNextPage (Gql.reviewsPageInfo prData))%bool.

(** The end cursors of a page, as the variables of the next request. *)
Definition endCursors (prData : Gql.PullRequest) : Gql.Variables :=
  Gql.mkVariables (Gql.endCursor (Gql.commentsPageInfo prData))
    (Gql.endCursor (Gql.reviewsPageInfo prData)).

(** [calls] is a chain of requests that starts with the variables [vars]
    at the call numbered [n]: each request is answered by the upstream,
    each next request carries the end cursors of the page before it, and
    nothing follows a call that threw. *)
Fixpoint chained (upstream : Transport) (n : nat) (vars : Gql.Variables)
  (calls : list Call) : Prop :=
  match calls with
  | [] => True
  | (sent, answer) :: rest =>
      sent = vars
      /\ answer = upstream n vars
      /\ match answer with
         | inr prData => chained upstream (S n) (endCursors prData) rest
         | inl _ => rest = []
         end
  end.

(** [calls], the first of which is the call numbered [n], go on after a
    page exactly when the page announces more, the call after it would not
    be beyond the ceiling, and no node of the page lacks its author. *)
Fixpoint paged (n : nat) (calls : list Call) : Prop :=
  match calls with
  | [] => True
  | (_, answer) :: rest =>
      match answer with
      | inr prData =>
          (rest <> []
           <-> announcesMore prData = true
               /\ S n < MAX_PAGES
               /\ lacksAuthor prData = false)
          /\ paged (S n) rest
      | inl _ => True
      end
  end.

(** A diff of two deny-listed files. *)
Definition deniedDiff : str :=
  lit "diff --git a/logo.PNG b/logo.PNG
+binary
diff --git a/yarn.lock b/yarn.lock
+dep
".

(** ** [sanitizeMetadata] ([src/helpers/errors.ts]) *)

Module Errors.

(** [s.includes(pat)] *)
Fixpoint includes (s pat : str) : bool :=
  match stripPrefix pat s with
  | Some _ => true
  | None =>
      match s with
      | [] => false
      | _ :: s' => includes s' pat
      end
  end.

(** [s.replace(/c/g, replacement)] for a pattern of one literal code
    unit. *)
Definition replaceChar (c : char) (replacement : str) (s : str) : str :=
  flat_map (fun x => if N.eqb x c then replacement else [x]) s.

(** [s.replace(/--/g, "&#45;&#45;")]: the occurrences are taken from left
    to right and do not overlap. *)
Fixpoint replaceDashes (s : str) : str :=
  match s with
  | c :: ((d :: rest) as s') =>
      if (N.eqb c 45%N && N.eqb d 45%N)%bool
      then lit "&#45;&#45;" ++ replaceDashes rest
      else c :: replaceDashes s'
  | _ => s
  end.

(** The three replacements of [sanitizeMetadata], applied to the text that
    [JSON.stringify] returns. *)
Definition sanitizeText (json : str) : str :=
  replaceDashes
    (replaceChar 62%N (lit "&gt;") (replaceChar 60%N (lit "&lt;") json)).

Section Sanitize.

(** The metadata objects and [JSON.stringify(obj, null, 2)] on them, which
    is [undefined] ([None]) for a value JSON cannot represent. *)
Variable Metadata : Type.
Variable stringify : Metadata -> option str.

(** [sanitizeMetadata(obj)]; calling [replace] on [undefined] throws. *)
Definition sanitizeMetadata (obj : Metadata) : Exn + str :=
  match stringify obj with
  | Some json => inr (sanitizeText json)
  | None => inl (lit "TypeError")
  end.

End Sanitize.

End Errors.

(** ** Drive links ([src/helpers/drive-link-handler.ts]) *)

Module Drive.

(** [interface DriveLink]; [permissionUrl] is optional. *)
Record DriveLink := mkDriveLink
  { url : str; requiresPermission : bool; permissionUrl : option str }.

(** *** The pattern [driveUrlPattern]: the scheme [https://], one of the
    hosts [docs], [drive], [sheets], [slides], the domain [.google.com/],
    one or more code units of the path class, and a lookahead for a
    delimiter or the end of the input; flag [g]. *)

(** The delimiters, which the path class excludes and the lookahead
    accepts: [\s] (the white space [trim] removes), the double quote, and
    the characters 60, 62, 41, 125 and 93 (angle brackets, closing
    parenthesis, brace and bracket). *)
Definition isUrlDelimiter (c : char) : bool :=
  (isWhiteSpace c || N.eqb c 34 || N.eqb c 60 || N.eqb c 62 || N.eqb c 41
   || N.eqb c 125 || N.eqb c 93)%bool.

(** The greedy run of the path class: it stops at the first delimiter or
    at the end of the input, where the lookahead holds.  Returns its
    length. *)
Fixpoint urlRun (s : str) : nat :=
  match s with
  | [] => 0
  | c :: s' => if isUrlDelimiter c then 0 else S (urlRun s')
  end.

Definition scheme : str := lit "https://".
Definition hosts : list str := map lit ["docs"; "drive"; "sheets"; "slides"]%string.
Definition domain : str := lit ".google.com/".

(** The rest of the pattern after the scheme, for one alternative of the
    group: the length of the match from the host on. *)
Definition matchHost (host afterScheme : str) : option nat :=
  match stripPrefix host afterScheme with
  | None => None
  | Some afterHost =>
      match stripPrefix domain afterHost with
      | None => None
      | Some path =>
          match urlRun path with
          | 0 => None
          | S n => Some (length host + length domain + S n)
          end
      end
  end.

(** The alternatives are tried in order. *)
Fixpoint matchHosts (alternatives : list str) (afterScheme : str)
  : option nat :=
  match alternatives with
  | [] => None
  | host :: others =>
      match matchHost host afterScheme with
      | Some len => Some len
      | None => matchHosts others afterScheme
      end
  end.

(** The pattern matched at the head of [s]: the length of the match. *)
Definition matchDriveUrl (s : str) : option nat :=
  match stripPrefix scheme s with
  | None => None
  | Some afterScheme =>
      match matchHosts hosts afterScheme with
      | Some len => Some (length scheme + len)
      | None => None
      end
  end.

(** [[...question.matchAll(driveUrlPattern)].map((m) => m[0])]: the
    matches from left to right; after a match the search goes on at its
    end, so the positions inside it ([skip] of them) are passed over. *)
Fixpoint scanUrls (skip : nat) (s : str) : list str :=
  match s with
  | [] => []
  | _ :: s' =>
      match skip with
      | S k => scanUrls k s'
      | 0 =>
          match matchDriveUrl s with
          | Some len => firstn len s :: scanUrls (len - 1) s'
          | None => scanUrls 0 s'
          end
      end
  end.

Definition driveUrlMatches (question : str) : list str := scanUrls 0 question.

(** *** The adapter [context.adapters.google.drive] *)

(** What [checkDriveLinks] reads of the result of [parseDriveLink]. *)
Record ParseResult := mkParseResult { isAccessible : bool; fileId : str }.

(** One call of the adapter, as it happened. *)
Inductive DriveCall :=
| ParseCall (link : str) (answer : Exn + ParseResult)
| PermissionCall (file : str) (answer : Exn + str).

(** The adapter, which may answer each call differently: its answers to the
    call that has [n] calls before it. *)
Record Adapter := mkAdapter
  { parseDriveLink : nat -> str -> Exn + ParseResult;
    generatePermissionUrl : nat -> str -> Exn + str }.

(** Computations that call the adapter and may throw. *)
Definition Eff (A : Type) := list DriveCall -> (Exn + A) * list DriveCall.

Definition pure {A} (a : A) : Eff A := fun log => (inr a, log).

Definition andThen {A B} (m : Eff A) (k : A -> Eff B) : Eff B :=
  fun log =>
    match m log with
    | (inl e, log') => (inl e, log')
    | (inr a, log') => k a log'
    end.

Definition attempt {A} (body : Eff A) (handler : Exn -> Eff A) : Eff A :=
  fun log =>
    match body log with
    | (inl e, log') => handler e log'
    | (inr a, log') => (inr a, log')
    end.

Section CheckDriveLinks.

Variable google : Adapter.

Definition callParse (link : str) : Eff ParseResult :=
  fun log =>
    (parseDriveLink google (length log) link,
     log ++ [ParseCall link (parseDriveLink google (length log) link)]).

Definition callPermission (file : str) : Eff str :=
  fun log =>
    (generatePermissionUrl google (length log) file,
     log ++ [PermissionCall file
               (generatePermissionUrl google (length log) file)]).

(** The body of the inner [try] for one new URL: the links after it. *)
Definition processUrl (link : str) (driveLinks : list DriveLink)
  : Eff (list DriveLink) :=
  andThen (callParse link) (fun result =>
    if negb (isAccessible result)
    then andThen (callPermission (fileId result)) (fun permission =>
           pure (driveLinks ++ [mkDriveLink link true (Some permission)]))
    else pure (driveLinks ++ [mkDriveLink link false None])).

(** The [for (const match of matches)] loop; [processedUrls] is the
    [Set], held as the list of its elements in insertion order. *)
Fixpoint processMatches (matches processedUrls : list str)
  (driveLinks : list DriveLink) : Eff (list DriveLink) :=
  match matches with
  | [] => pure driveLinks
  | link :: rest =>
      if existsb (Js.eqb link) processedUrls
      then processMatches rest processedUrls driveLinks
      else
        andThen
          (attempt (processUrl link driveLinks) (fun _ => pure driveLinks))
          (fun driveLinks' =>
             processMatches rest (processedUrls ++ [link]) driveLinks')
  end.

(** [checkDriveLinks(context, question)] *)
Definition checkDriveLinks (question : str) : Eff (list DriveLink) :=
  match driveUrlMatches question with
  | [] => pure []
  | matches => processMatches matches [] []
  end.

End CheckDriveLinks.

(** *** [checkAccessStatus] *)

Definition POLL_INTERVAL : Z := 25000.
Definition MAX_POLL_TIME : Z := 900000.

Section CheckAccessStatus.

Variable google : Adapter.

(** [Date.now()]: the reading that has [n] readings before it in one call
    of [checkAccessStatus], in milliseconds.  The wait
    [setTimeout(resolve, POLL_INTERVAL)] shows only in the readings. *)
Variable now : nat -> Z.

(** The body of the [for] loop for one link: [true] when the link was
    parsed and found accessible, [false] when [hasFullAccess] was cleared,
    by the test or by the [catch]. *)
Definition seenAccessible (link : DriveLink) : Eff bool :=
  attempt
    (andThen (callParse google (url link)) (fun result =>
       pure (isAccessible result)))
    (fun _ => pure false).

(** The [for (const link of linksNeedingPermission)] loop with its
    [break]: the value of [hasFullAccess] after it. *)
Fixpoint pollOnce (links : list DriveLink) : Eff bool :=
  match links with
  | [] => pure true
  | link :: rest =>
      andThen (seenAccessible link) (fun accessible =>
        if accessible then pollOnce rest else pure false)
  end.

(** The [while (Date.now() - startTime < MAX_POLL_TIME)] loop; [readings]
    counts the readings of the clock so far.  [None] when the fuel runs
    out. *)
Fixpoint pollLoop (fuel : nat) (startTime : Z) (links : list DriveLink)
  (readings : nat) : Eff (option bool) :=
  match fuel with
  | 0 => pure None
  | S fuel' =>
      if (now readings - startTime <? MAX_POLL_TIME)%Z
      then
        andThen (pollOnce links) (fun hasFullAccess =>
          if hasFullAccess
          then pure (Some true)
          else pollLoop fuel' startTime links (S readings))
      else pure (Some false)
  end.

(** [checkAccessStatus(context, links)] *)
Definition checkAccessStatus (fuel : nat) (links : list DriveLink)
  : Eff (option bool) :=
  let startTime := now 0 in
  let linksNeedingPermission := filter requiresPermission links in
  match linksNeedingPermission with
  | [] => pure (Some true)
  | _ :: _ => pollLoop fuel startTime linksNeedingPermission 1
  end.

End CheckAccessStatus.

(** *** [formatAccessRequestMessage] *)

(** A template literal renders a missing value as [undefined]. *)
Definition render (value : option str) : str :=
  match value with
  | Some s => s
  | None => lit "undefined"
  end.

Definition formatAccessRequestMessage (links : list DriveLink) : str :=
  let linksNeedingPermission := filter requiresPermission links in
  match linksNeedingPermission with
  | [] => []
  | _ :: _ =>
      let urlList :=
        join (lit "
") (map (fun link => lit "- " ++ render (permissionUrl link))
          linksNeedingPermission) in
      lit "I need access to continue. Please click these links and grant permission:

" ++ urlList ++ lit "

I'll wait up to 15 minutes for access to be granted."
  end.

(** The URLs a log shows as parsed, in the order of the calls. *)
Definition parsedUrls (log : list DriveCall) : list str :=
  flat_map (fun call =>
              match call with
              | ParseCall link _ => [link]
              | PermissionCall _ _ => []
              end) log.

(** A list without its repetitions, each element at its first place. *)
Fixpoint firstOccurrences (seen urls : list str) : list str :=
  match urls with
  | [] => []
  | u :: rest =>
      if existsb (Js.eqb u) seen
      then firstOccurrences seen rest
      else u :: firstOccurrences (seen ++ [u]) rest
  end.

End Drive.

(** ** [addCommentToIssue] with [lastCommentId]
    ([src/handlers/add-comment.ts], the version that keeps the id of the
    comment it created) *)

Module Comments.

(** [interface CommentData] *)
Record UserData := mkUserData
  { userLogin : str; userId : Z; userType : option str }.

Record CommentData := mkCommentData
  { dataId : Z; dataBody : option str; dataUser : option UserData }.

(** [CommentInfo] *)
Record CommentInfo := mkCommentInfo
  { infoId : Z; infoBody : str;
    infoLogin : str; infoUserId : Z; infoUserType : str }.

Definition createCommentInfo (data : CommentData) : CommentInfo :=
  mkCommentInfo
    (dataId data)
    (match dataBody data with Some b => b | None => [] end)
    (match dataUser data with Some u => userLogin u | None => [] end)
    (match dataUser data with Some u => userId u | None => 0%Z end)
    (match dataUser data with
     | Some u => match userType u with Some t => t | None => lit "User" end
     | None => lit "User"
     end).

(** What the function reads of the payload: the repository, the [issue]
    key with its number and whether it has a [pull_request] field, and the
    [pull_request] key with its number. *)
Record Issue := mkIssue { issueNumber : Z; hasPullRequest : bool }.

Record Payload := mkPayload
  { ownerLogin : str; repoName : str;
    issue : option Issue; pull_request : option Z }.

(** [options?.inReplyTo]: absent, or present with an optional
    [commentId]. *)
Definition InReplyTo := option (option Z).

(** The four REST calls. *)
Inductive Request :=
| UpdateReviewComment (owner repo body : str) (comment_id : Z)
| CreateReplyForReviewComment (owner repo : str) (pull_number : Z)
    (body : str) (comment_id : Z)
| UpdateComment (owner repo : str) (issue_number : option Z) (body : str)
    (comment_id : Z)
| CreateComment (owner repo : str) (issue_number : Z) (body : str)
    (in_reply_to : option Z).

(** [context.octokit.rest]: the answer to the call that has [n] calls
    before it, the [data] of the response or an exception. *)
Definition Octokit := nat -> Request -> Exn + CommentData.

Definition Call := (Request * (Exn + CommentData))%type.

(** A number in a condition: [undefined], [null] and [0] are falsy; the
    value of a truthy one. *)
Definition truthyValue (n : option Z) : option Z :=
  match n with
  | Some v => if Z.eqb v 0 then None else Some v
  | None => None
  end.

(** [a || b] on optional numbers *)
Definition orElse (a b : option Z) : option Z :=
  match truthyValue a with
  | Some _ => a
  | None => b
  end.

(** The state the function works on: the static [lastCommentId] and the
    log of the REST calls. *)
Record World := mkWorld { lastCommentId : option Z; calls : list Call }.

Section AddComment.

Variable octokit : Octokit.

(** One REST call. *)
Definition rest (request : Request) (w : World)
  : (Exn + CommentData) * World :=
  let answer := octokit (length (calls w)) request in
  (answer, mkWorld (lastCommentId w) (calls w ++ [(request, answer)])).

(** [if (addCommentToIssue.lastCommentId) { update } else { create;
    lastCommentId = data.id }], the shape of all three branches; the
    exception of a failed call leaves the [try] block. *)
Definition updateOrCreate (update : Z -> Request) (create : Request)
  (w : World) : (Exn + CommentInfo) * World :=
  match truthyValue (lastCommentId w) with
  | Some last =>
      match rest (update last) w with
      | (inr data, w') => (inr (createCommentInfo data), w')
      | (inl e, w') => (inl e, w')
      end
  | None =>
      match rest create w with
      | (inr data, w') =>
          (inr (createCommentInfo data),
           mkWorld (Some (dataId data)) (calls w'))
      | (inl e, w') => (inl e, w')
      end
  end.

(** [addCommentToIssue(context, message, options)] with
    [inReplyTo = options?.inReplyTo]; the [catch] logs and rethrows, so an
    exception of the [try] block is the result. *)
Definition addCommentToIssue (payload : Payload) (message : str)
  (inReplyTo : InReplyTo) (w : World) : (Exn + CommentInfo) * World :=
  let owner := ownerLogin payload in
  let repo := repoName payload in
  let commentId := match inReplyTo with Some c => c | None => None end in
  match truthyValue commentId with
  | Some reply =>
      let pullNumber :=
        match pull_request payload with
        | Some number => Some number
        | None =>
            match issue payload with
            | Some i =>
                if hasPullRequest i then Some (issueNumber i) else None
            | None => None
            end
        end in
      match truthyValue pullNumber with
      | Some pull =>
          updateOrCreate
            (fun last => UpdateReviewComment owner repo message last)
            (CreateReplyForReviewComment owner repo pull message reply) w
      | None =>
          match orElse (option_map issueNumber (issue payload))
                  (pull_request payload) with
          | None => (inl (lit "Cannot determine issue/PR number"), w)
          | Some number =>
              updateOrCreate
                (fun last => UpdateComment owner repo None message last)
                (CreateComment owner repo number message (Some reply)) w
          end
      end
  | None =>
      let number :=
        match issue payload with
        | Some i => Some (issueNumber i)
        | None => pull_request payload
        end in
      match truthyValue number with
      | Some number =>
          updateOrCreate
            (fun last => UpdateComment owner repo (Some number) message last)
            (CreateComment owner repo number message None) w
      | None => (inl (lit "Cannot determine issue/PR number"), w)
      end
  end.

(** A series of invocations, one after the other on the same state, each
    of which may succeed or throw. *)
Fixpoint addComments
  (invocations : list (Payload * str * InReplyTo)) (w : World) : World :=
  match invocations with
  | [] => w
  | (payload, message, inReplyTo) :: rest =>
      addComments rest (snd (addCommentToIssue payload message inReplyTo w))
  end.

End AddComment.

Definition isCreate (request : Request) : bool :=
  match request with
  | CreateReplyForReviewComment _ _ _ _ _ | CreateComment _ _ _ _ _ => true
  | _ => false
  end.

(** The request updates the comment [id] with the body [message]. *)
Definition updates (id : Z) (request : Request) : Prop :=
  match request with
  | UpdateReviewComment _ _ _ c | UpdateComment _ _ _ _ c => c = id
  | _ => False
  end.

Definition bodyOf (request : Request) : str :=
  match request with
  | UpdateReviewComment _ _ b _ => b
  | CreateReplyForReviewComment _ _ _ b _ => b
  | UpdateComment _ _ _ b _ => b
  | CreateComment _ _ _ b _ => b
  end.

(** The calls of a process: creations that fail, then at most one creation
    that succeeds, then only updates of the comment it created. *)
Fixpoint oneComment (log : list Call) : Prop :=
  match log with
  | [] => True
  | (request, answer) :: rest =>
      isCreate request = true
      /\ match answer with
         | inr data => Forall (fun call => updates (dataId data) (fst call)) rest
         | inl _ => oneComment rest
         end
  end.

End Comments.

(** A link carries a permission URL exactly when it requires permission. *)
Definition permissionConsistent (link : Drive.DriveLink) : Prop :=
  match Drive.permissionUrl link with
  | Some _ => Drive.requiresPermission link = true
  | None => Drive.requiresPermission link = false
  end.

(** The two fixed parts of the access request message. *)
Definition accessMessageHead : str :=
  lit "I need access to continue. Please click these links and grant permission:

".

Definition accessMessageTail : str :=
  lit "

I'll wait up to 15 minutes for access to be granted.".

(** The content of a segment is its own trim. *)
Definition contentTrimmed (seg : FileDiff) : Prop :=
  trim (diffContent seg) = diffContent seg.

(** A code unit of the path class of the Drive pattern. *)
Definition notDelimiter (c : char) : Prop :=
  Drive.isUrlDelimiter c = false.

(** A call that parsed the URL of a link and found it accessible. *)
Definition seenAsAccessible (link : Drive.DriveLink) (call : Drive.DriveCall)
  : Prop :=
  exists result,
    call = Drive.ParseCall (Drive.url link) (inr result)
    /\ Drive.isAccessible result = true.

(** A call that parsed the URL of one of the links. *)
Definition parsesOneOf (links : list Drive.DriveLink) (call : Drive.DriveCall)
  : Prop :=
  exists link answer,
    In link links /\ call = Drive.ParseCall (Drive.url link) answer.

(** The readings of the clock at and after the first test of the loop are
    at least the polling interval apart, and none is before the start. *)
Definition clockWaits (now : nat -> Z) : Prop :=
  (now 0%nat <= now 1%nat)%Z
  /\ forall k, 1 <= k -> (now k + Drive.POLL_INTERVAL <= now (S k))%Z.

Section CommentVocabulary.

Import Comments.

(** What one invocation does to the state, as a statement about its result
    [r] and the state [w'] it leaves. *)
Definition stepOutcome (octokit : Octokit) (message : str) (w : World)
  (r : Exn + CommentInfo) (w' : World) : Prop :=
  (calls w' = calls w /\ lastCommentId w' = lastCommentId w
   /\ exists e, r = inl e)
  \/ exists request,
       let answer := octokit (length (calls w)) request in
       calls w' = calls w ++ [(request, answer)]
       /\ bodyOf request = message
       /\ r = match answer with
              | inr data => inr (createCommentInfo data)
              | inl e => inl e
              end
       /\ match truthyValue (lastCommentId w) with
          | Some last =>
              updates last request /\ lastCommentId w' = lastCommentId w
          | None =>
              isCreate request = true
              /\ lastCommentId w'
                 = match answer with
                   | inr data => Some (dataId data)
                   | inl _ => lastCommentId w
                   end
          end.

(** The state of a process: before its first successful creation, or with
    the comment it created. *)
Definition threadState (w : World) : Prop :=
  match truthyValue (lastCommentId w) with
  | None =>
      Forall (fun call : Call =>
                isCreate (fst call) = true /\ exists e, snd call = inl e)
        (calls w)
  | Some last =>
      exists failed request data later,
        calls w = failed ++ (request, inr data) :: later
        /\ Forall (fun call : Call =>
                     isCreate (fst call) = true /\ exists e, snd call = inl e)
             failed
        /\ isCreate request = true
        /\ dataId data = last
        /\ Forall (fun call : Call => updates last (fst call)) later
  end.

End CommentVocabulary.

(** *** Sample REST clients and invocations *)

(** Every call succeeds and returns a comment with the id 7. *)
Definition sampleOctokit : Comments.Octokit :=
  fun _ _ => inr (Comments.mkCommentData 7 (Some (lit "body")) None).

(** Every call succeeds and returns a comment with the id 0. *)
Definition zeroIdOctokit : Comments.Octokit :=
  fun _ _ => inr (Comments.mkCommentData 0 (Some (lit "body")) None).

Definition issuePayload : Comments.Payload :=
  Comments.mkPayload (lit "ubiquibot") (lit "ask-plugin")
    (Some (Comments.mkIssue 12 false)) None.

Definition sampleInvocations
  : list (Comments.Payload * str * Comments.InReplyTo) :=
  [ (issuePayload, lit "Thinking...", None);
    (issuePayload, lit "The answer", Some (Some 5%Z)) ].

(** *** A sample adapter and question *)

Definition sampleQuestion : str :=
  lit "see https://docs.google.com/document/d/abc/edit and
(https://drive.google.com/file/d/xyz) and https://docs.google.com/document/d/abc/edit again".

(** The document is accessible, the file is not. *)
Definition sampleAdapter : Drive.Adapter :=
  Drive.mkAdapter
    (fun _ link =>
       if Js.eqb link (lit "https://drive.google.com/file/d/xyz")
       then inr (Drive.mkParseResult false (lit "xyz"))
       else inr (Drive.mkParseResult true (lit "abc")))
    (fun _ file => inr (lit "https://accounts.example/grant/" ++ file)).

(** The file becomes accessible with the third call. *)
Definition grantingAdapter : Drive.Adapter :=
  Drive.mkAdapter
    (fun n _ => inr (Drive.mkParseResult (2 <=? n) (lit "xyz")))
    (fun _ file => inr (lit "https://accounts.example/grant/" ++ file)).

(** The file is never accessible. *)
Definition refusingAdapter : Drive.Adapter :=
  Drive.mkAdapter
    (fun _ _ => inr (Drive.mkParseResult false (lit "xyz")))
    (fun _ file => inr (lit "https://accounts.example/grant/" ++ file)).

Definition restrictedLinks : list Drive.DriveLink :=
  [ Drive.mkDriveLink (lit "https://docs.google.com/document/d/abc/edit")
      false None;
    Drive.mkDriveLink (lit "https://drive.google.com/file/d/xyz") true
      (Some (lit "https://accounts.example/grant/xyz")) ].

(** A clock read exactly every 25 seconds. *)
Definition steadyClock (n : nat) : Z := 25000 * Z.of_nat n.

(** ** Sample runs *)

Example parse_sample :
  parsePerFileDiffs sampleDiff
  = [ mkFileDiff (lit "src/a.ts") (lit "diff --git a/src/a.ts b/src/a.ts
+one");
      mkFileDiff (lit "b.png") (lit "diff --git a/b.png b/b.png
+two") ].
Proof. vm_compute. reflexivity. Qed.

Example process_sample :
  processPullRequestDiff asciiLowerCase unitEncode sampleDiff
    (mkTokenLimits 0 100)
  = Some (lit "diff --git a/src/a.ts b/src/a.ts
+one").
Proof. vm_compute. reflexivity. Qed.

(** A header is recognised at the start of a line only, and needs its
    [ b/] part. *)
Example header_not_at_line_start :
  parsePerFileDiffs (lit " diff --git a/x.ts b/x.ts") = [].
Proof. vm_compute. reflexivity. Qed.

Example header_without_second_path :
  parsePerFileDiffs (lit "diff --git a/x.ts") = [].
Proof. vm_compute. reflexivity. Qed.

(** The capture is the shortest one: it ends at the first [ b/]. *)
Example capture_is_lazy :
  map filename (parsePerFileDiffs (lit "diff --git a/x b/y b/z")) = [lit "x"].
Proof. vm_compute. reflexivity. Qed.

(** An empty diff and a diff of deny-listed files give [null]. *)
Example process_empty :
  processPullRequestDiff asciiLowerCase unitEncode [] (mkTokenLimits 0 100)
  = None.
Proof. vm_compute. reflexivity. Qed.

Example process_denied :
  processPullRequestDiff asciiLowerCase unitEncode
    (lit "diff --git a/logo.PNG b/logo.PNG
+binary
diff --git a/yarn.lock b/yarn.lock
+dep
") (mkTokenLimits 0 100)
  = None.
Proof. vm_compute. reflexivity. Qed.

(** Two pages of comments: the survivors of the first page, then those of
    the second, and the linked issue of the first page once. *)
Example fetch_two_pages :
  fst (fetchPullRequestComments decimal sampleParams twoPageUpstream)
  = inr (Some (mkFetchResult (repeat humanSimplified 4)
                 [issueOf sampleIssue])).
Proof. vm_compute. reflexivity. Qed.

(** A node whose author is null on the second page: the test of the loop
    throws, and the catch gives up what the first page contributed. *)
Example fetch_ghost_page :
  fst (fetchPullRequestComments decimal sampleParams ghostUpstream)
  = inr (Some (mkFetchResult [] []))
  /\ length (snd (fetchPullRequestComments decimal sampleParams ghostUpstream))
     = 2.
Proof. split; vm_compute; reflexivity. Qed.

(** Outside the cursor protocol: the first page of [cursorlessUpstream]
    announces more comments without an end cursor, so the second request
    again carries no cursor and the linked issue of the second page is
    appended to the one captured from the first. *)
Example cursorless_page_is_captured_again :
  fst (fetchPullRequestComments decimal sampleParams cursorlessUpstream)
  = inr (Some (mkFetchResult (repeat humanSimplified 4)
                 [issueOf sampleIssue; issueOf sampleIssue]))
  /\ map fst
       (snd (fetchPullRequestComments decimal sampleParams cursorlessUpstream))
     = [Gql.mkVariables None None; Gql.mkVariables None None].
Proof. split; vm_compute; reflexivity. Qed.

(** ** Properties of [fetchPullRequestComments] *)

Section PaginationProperties.

Variable numberToString : N -> str.
Variable params : FetchParams.
Variable upstream : Transport.

Lemma eqb_eq (a b : str) : Js.eqb a b = true <-> a = b.
Proof.
  revert b; induction a as [|x a IH]; intros [|y b]; simpl;
    try (split; (discriminate || reflexivity)).
  rewrite andb_true_iff, N.eqb_eq, IH.
  split; [intros [-> ->]; reflexivity | intros H; inversion H; auto].
Qed.

(** *** The loops of one page against what the page holds *)

Lemma pushComments_spec (nodes : list Gql.CommentNode) :
  forall allComments,
    pushComments numberToString params allComments nodes
    = if existsb noAuthor nodes then inl typeError
      else inr (allComments
                ++ flat_map (survivor numberToString params) nodes).
Proof.
  induction nodes as [|node nodes IH]; intros acc;
    cbn [pushComments existsb flat_map].
  - rewrite app_nil_r. reflexivity.
  - unfold pushComment, noAuthor at 1, survivor at 1, notBot, simplify.
    destruct (Gql.author node) as [author|]; [|reflexivity].
    cbn [orb].
    destruct (Js.eqb (Gql.type author) (lit "Bot")); cbn [negb];
      rewrite IH; destruct (existsb noAuthor nodes); try reflexivity.
    rewrite <- app_assoc. reflexivity.
Qed.

Lemma pushReviewComments_spec (reviews : list Gql.ReviewNode) :
  forall allComments,
    pushReviewComments numberToString params allComments reviews
    = if existsb noAuthor (flat_map Gql.reviewComments reviews)
      then inl typeError
      else inr (allComments
                ++ flat_map (survivor numberToString params)
                     (flat_map Gql.reviewComments reviews)).
Proof.
  induction reviews as [|review reviews IH]; intros acc;
    cbn [pushReviewComments flat_map].
  - cbn [existsb]. rewrite app_nil_r. reflexivity.
  - rewrite pushComments_spec, existsb_app, flat_map_app.
    destruct (existsb noAuthor (Gql.reviewComments review)); cbn [orb];
      [reflexivity|].
    rewrite IH.
    destruct (existsb noAuthor (flat_map Gql.reviewComments reviews));
      [reflexivity|].
    rewrite <- app_assoc. reflexivity.
Qed.

Lemma pushIssues_spec (nodes : list Gql.IssueNode) :
  forall linked, pushIssues linked nodes = linked ++ map issueOf nodes.
Proof.
  induction nodes as [|node nodes IH]; intros linked; cbn [pushIssues map].
  - rewrite app_nil_r. reflexivity.
  - rewrite IH, <- app_assoc. reflexivity.
Qed.

(** One page: the loops throw exactly when a node of the page lacks its
    author, and otherwise leave what the page holds. *)
Lemma processPage_spec (st : LoopState) (prData : Gql.PullRequest) :
  processPage numberToString params st prData
  = if lacksAuthor prData then inl typeError
    else inr (afterPage numberToString params st prData).
Proof.
  unfold processPage, lacksAuthor, afterPage, pageNodes, pageIssues,
    carriesCursor.
  cbn [Gql.commentsAfter Gql.reviewsAfter].
  rewrite existsb_app, flat_map_app.
  assert (Hissues :
            (if (isFalsy (commentsEndCursor st)
                 && isFalsy (reviewsEndCursor st))%bool
             then match Gql.closingIssuesReferences prData with
                  | Some nodes => pushIssues (linkedIssuesAcc st) nodes
                  | None => linkedIssuesAcc st
                  end
             else linkedIssuesAcc st)
            = linkedIssuesAcc st
              ++ (if negb (isFalsy (commentsEndCursor st)
                           && isFalsy (reviewsEndCursor st))
                  then []
                  else match Gql.closingIssuesReferences prData with
                       | Some nodes => map issueOf nodes
                       | None => []
                       end)).
  { destruct (isFalsy (commentsEndCursor st)
              && isFalsy (reviewsEndCursor st))%bool; cbn [negb];
      [|rewrite app_nil_r; reflexivity].
    destruct (Gql.closingIssuesReferences prData) as [nodes|];
      [apply pushIssues_spec | rewrite app_nil_r; reflexivity]. }
  rewrite Hissues. clear Hissues.
  destruct (Gql.commentsNodes prData) as [nodes|];
    [rewrite pushComments_spec; destruct (existsb noAuthor nodes)|];
    cbn [orb existsb flat_map]; try reflexivity.
  - destruct (Gql.reviewsNodes prData) as [reviews|];
      [rewrite pushReviewComments_spec;
       destruct (existsb noAuthor (flat_map Gql.reviewComments reviews))|];
      cbn [existsb flat_map]; rewrite <- ?app_assoc, ?app_nil_r;
      reflexivity.
  - destruct (Gql.reviewsNodes prData) as [reviews|];
      [rewrite pushReviewComments_spec;
       destruct (existsb noAuthor (flat_map Gql.reviewComments reviews))|];
      cbn [existsb flat_map app]; rewrite ?app_nil_r; reflexivity.
Qed.

Lemma survivor_isHuman (nodes : list Gql.CommentNode) :
  Forall isHuman (flat_map (survivor numberToString params) nodes).
Proof.
  induction nodes as [|node nodes IH]; cbn [flat_map]; [constructor|].
  apply Forall_app. split; [|exact IH].
  unfold survivor. destruct (Gql.author node) as [author|]; [|constructor].
  destruct (Js.eqb (Gql.type author) (lit "Bot")) eqn:Hbot; constructor;
    [|constructor].
  unfold isHuman. cbn [user userType]. intros Heq.
  apply eqb_eq in Heq. congruence.
Qed.

Lemma loggedComments_isHuman (log : list Call) :
  Forall isHuman (loggedComments numberToString params log).
Proof.
  induction log as [|[vars [e|prData]] log IH]; cbn [loggedComments flat_map snd];
    auto.
  apply Forall_app. split; [apply survivor_isHuman | exact IH].
Qed.

Lemma loggedComments_app (l1 l2 : list Call) :
  loggedComments numberToString params (l1 ++ l2)
  = loggedComments numberToString params l1
    ++ loggedComments numberToString params l2.
Proof. apply flat_map_app. Qed.

Lemma loggedLinkedIssues_app (l1 l2 : list Call) :
  loggedLinkedIssues (l1 ++ l2)
  = loggedLinkedIssues l1 ++ loggedLinkedIssues l2.
Proof. apply flat_map_app. Qed.

Lemma threw_failed (log : list Call) :
  existsb threw log = true -> existsb failed log = true.
Proof.
  induction log as [|[vars [e|prData]] log IH]; cbn [existsb]; auto.
  unfold threw at 1, failed at 1. cbn [snd orb]. intros Hlog.
  rewrite (IH Hlog). apply orb_true_r.
Qed.

(** *** One iteration of the loop *)

Lemma whileLoop_step (fuel : nat) (st : LoopState) :
  whileLoop numberToString params upstream (S fuel) st
  = if (hasMoreComments st || hasMoreReviews st)%bool then
      if Nat.leb MAX_PAGES (pageCount st) then ret (Some st)
      else
        prData <- graphql upstream
                    (Gql.mkVariables (commentsEndCursor st)
                       (reviewsEndCursor st)) ;;
        st' <- fromSum (processPage numberToString params st prData) ;;
        if (negb (hasMoreComments st') && negb (hasMoreReviews st'))%bool
        then ret (Some st')
        else whileLoop numberToString params upstream fuel st'
    else ret (Some st).
Proof. reflexivity. Qed.

(** The loop either leaves at once, its guard false or the ceiling reached,
    or makes one call; then it throws when the call does or when the page
    lacks an author, goes on from the state after the page when the page
    announces more, and leaves with that state otherwise. *)
Lemma whileLoop_cases (fuel : nat) (st : LoopState) (log : list Call) :
  let run := whileLoop numberToString params upstream (S fuel) st log in
  let vars := Gql.mkVariables (commentsEndCursor st) (reviewsEndCursor st) in
  let answer := upstream (length log) vars in
  let log1 := log ++ [(vars, answer)] in
  (run = (inr (Some st), log)
   /\ ((hasMoreComments st || hasMoreReviews st)%bool = false
       \/ MAX_PAGES <= pageCount st))
  \/ ((hasMoreComments st || hasMoreReviews st)%bool = true
      /\ pageCount st < MAX_PAGES
      /\ match answer with
         | inl e => run = (inl e, log1)
         | inr prData =>
             if lacksAuthor prData then run = (inl typeError, log1)
             else if announcesMore prData
                  then run
                       = whileLoop numberToString params upstream fuel
                           (afterPage numberToString params st prData) log1
                  else run
                       = (inr (Some (afterPage numberToString params st
                                       prData)), log1)
         end).
Proof.
  cbv zeta. rewrite whileLoop_step.
  destruct (hasMoreComments st || hasMoreReviews st)%bool;
    [|left; split; [reflexivity | left; reflexivity]].
  destruct (Nat.leb MAX_PAGES (pageCount st)) eqn:Hceil.
  - apply Nat.leb_le in Hceil. left. split; [reflexivity | right; exact Hceil].
  - apply Nat.leb_gt in Hceil. right. split; [reflexivity|].
    split; [exact Hceil|].
    unfold bind, graphql, fromSum.
    destruct (upstream (length log) _) as [e|prData]; [reflexivity|].
    rewrite processPage_spec.
    destruct (lacksAuthor prData); [reflexivity|].
    unfold announcesMore, afterPage.
    cbn [hasMoreComments hasMoreReviews].
    destruct (Gql.hasNextPage (Gql.commentsPageInfo prData)),
      (Gql.hasNextPage (Gql.reviewsPageInfo prData)); reflexivity.
Qed.

(** What one run of the loop does, whatever the upstream answers: it only
    adds calls to the log, at most as many as the page ceiling leaves; it
    throws exactly when its last call threw or returned a page that lacks
    an author; and when it leaves normally the accumulators hold what the
    pages of its calls hold.  With more fuel than the ceiling leaves pages,
    the fuel does not run out. *)
Lemma whileLoop_spec (fuel : nat) :
  forall st log res log',
    whileLoop numberToString params upstream fuel st log = (res, log') ->
    exists calls,
      log' = log ++ calls
      /\ length calls <= MAX_PAGES - pageCount st
      /\ (MAX_PAGES - pageCount st < fuel -> res <> inr None)
      /\ match res with
         | inl _ => existsb failed calls = true
         | inr None => True
         | inr (Some st') =>
             existsb failed calls = false
             /\ allComments st'
                = allComments st ++ loggedComments numberToString params calls
             /\ linkedIssuesAcc st'
                = linkedIssuesAcc st ++ loggedLinkedIssues calls
             /\ pageCount st' = pageCount st + length calls
         end.
Proof.
  induction fuel as [|fuel IH]; intros st log res log' Hrun.
  - simpl in Hrun. inversion Hrun; subst. exists []. rewrite app_nil_r.
    repeat split; cbn -[MAX_PAGES Nat.sub]; try lia.
  - destruct (whileLoop_cases fuel st log)
      as [[Heq Hstop] | (Hguard & Hceil & Hiter)].
    + rewrite Heq in Hrun. inversion Hrun; subst. exists [].
      rewrite !app_nil_r. cbn -[MAX_PAGES Nat.sub].
      repeat split; try lia; discriminate.
    + set (vars := Gql.mkVariables (commentsEndCursor st)
                     (reviewsEndCursor st)) in *.
      destruct (upstream (length log) vars) as [e|prData] eqn:Hcall.
      * rewrite Hiter in Hrun. inversion Hrun; subst.
        exists [(vars, inl e)].
        repeat split; cbn -[MAX_PAGES Nat.sub];
          first [lia | discriminate | reflexivity].
      * destruct (lacksAuthor prData) eqn:Hauth.
        { rewrite Hiter in Hrun. inversion Hrun; subst.
          exists [(vars, inr prData)].
          split; [reflexivity|]. split; [cbn -[MAX_PAGES Nat.sub]; lia|].
          split; [discriminate|].
          cbn [existsb]. unfold failed. cbn [snd]. rewrite Hauth.
          reflexivity. }
        assert (Hok1 : failed (vars, inr prData) = false).
        { unfold failed. cbn [snd]. exact Hauth. }
        destruct (announcesMore prData) eqn:Hmore.
        { rewrite Hiter in Hrun. apply IH in Hrun.
          destruct Hrun as (calls & Hlog & Hlen & Hfuel & Hres).
          change (pageCount (afterPage numberToString params st prData))
            with (S (pageCount st)) in *.
          exists ((vars, inr prData) :: calls).
          split; [rewrite Hlog, <- app_assoc; reflexivity|].
          split; [cbn -[MAX_PAGES Nat.sub]; lia|].
          split; [intros Hlt; apply Hfuel; lia|].
          destruct res as [e|[st'|]]; auto.
          - cbn [existsb]. rewrite Hres. apply orb_true_r.
          - destruct Hres as (Hok & Hc & Hl & Hp).
            cbn [existsb length]. rewrite Hok1, Hok.
            split; [reflexivity|].
            split; [rewrite Hc; unfold afterPage; cbn [allComments];
                    rewrite <- app_assoc; reflexivity|].
            split; [rewrite Hl; unfold afterPage; cbn [linkedIssuesAcc];
                    rewrite <- app_assoc; reflexivity|].
            lia. }
        rewrite Hiter in Hrun. inversion Hrun; subst.
        exists [(vars, inr prData)].
        split; [reflexivity|]. split; [cbn -[MAX_PAGES Nat.sub]; lia|].
        split; [discriminate|].
        cbn [existsb length]. rewrite Hok1.
        split; [reflexivity|].
        split; [unfold afterPage, loggedComments;
                cbn [allComments flat_map snd]; rewrite app_nil_r;
                reflexivity|].
        split; [unfold afterPage, loggedLinkedIssues;
                cbn [linkedIssuesAcc flat_map snd fst]; rewrite app_nil_r;
                reflexivity|].
        change (pageCount (afterPage numberToString params st prData))
          with (S (pageCount st)). lia.
Qed.

(** The ways the function can end, read off the loop. *)
Lemma fetch_cases :
  exists r log,
    fetchPullRequestComments numberToString params upstream
    = (inr (Some r), log)
    /\ length log <= MAX_PAGES
    /\ (if existsb failed log
        then r = mkFetchResult [] []
        else comments r = loggedComments numberToString params log
             /\ linkedIssues r = loggedLinkedIssues log).
Proof.
  unfold fetchPullRequestComments, fetchWithFuel, tryCatch, bind.
  destruct (whileLoop numberToString params upstream (S MAX_PAGES)
              initialState [])
    as [res log] eqn:Hrun.
  apply whileLoop_spec in Hrun.
  destruct Hrun as (calls & Hlog & Hlen & Hfuel & Hres).
  simpl in Hlog. change (MAX_PAGES - pageCount initialState) with MAX_PAGES
    in Hlen, Hfuel. subst log.
  destruct res as [e|[st'|]].
  - unfold ret. exists (mkFetchResult [] []), calls.
    rewrite Hres. repeat split. exact Hlen.
  - unfold ret. destruct Hres as (Hok & Hc & Hl & _).
    exists (mkFetchResult (allComments st') (linkedIssuesAcc st')), calls.
    rewrite Hok. repeat split; auto.
  - exfalso. apply Hfuel; [unfold MAX_PAGES; lia | reflexivity].
Qed.

(** With an upstream that always announces more and never leaves out an
    author, the loop leaves only at the ceiling: it makes every query the
    ceiling still allows. *)
Lemma whileLoop_alwaysMore (Hmore : alwaysMore upstream)
  (Hauthors : authorsPresent upstream) (fuel : nat) :
  forall st log res log',
    (hasMoreComments st || hasMoreReviews st)%bool = true ->
    pageCount st <= MAX_PAGES ->
    MAX_PAGES - pageCount st < fuel ->
    whileLoop numberToString params upstream fuel st log = (res, log') ->
    length log' = length log + (MAX_PAGES - pageCount st)
    /\ exists st', res = inr (Some st').
Proof.
  induction fuel as [|fuel IH]; intros st log res log' Hguard Hle Hfuel Hrun;
    [lia|].
  destruct (whileLoop_cases fuel st log)
    as [[Heq [Hstop|Hstop]] | (_ & Hceil & Hiter)].
  - congruence.
  - rewrite Heq in Hrun. inversion Hrun; subst. split; [lia | eauto].
  - destruct (Hmore (length log)
                (Gql.mkVariables (commentsEndCursor st) (reviewsEndCursor st)))
      as (prData & Hcall & Hc & Hr).
    rewrite Hcall in Hiter. rewrite (Hauthors _ _ _ Hcall) in Hiter.
    unfold announcesMore in Hiter. rewrite Hc in Hiter. cbn [orb] in Hiter.
    rewrite Hiter in Hrun. apply IH in Hrun.
    + destruct Hrun as [Hlen Hres]. split; [|exact Hres].
      rewrite Hlen, length_app.
      change (pageCount (afterPage numberToString params st prData))
        with (S (pageCount st)).
      cbn [length]. lia.
    + cbn [afterPage hasMoreComments]. rewrite Hc. reflexivity.
    + change (pageCount (afterPage numberToString params st prData))
        with (S (pageCount st)). lia.
    + change (pageCount (afterPage numberToString params st prData))
        with (S (pageCount st)). lia.
Qed.

(** Once a request carries a cursor, an upstream that follows the cursor
    protocol makes every later request carry one. *)
Lemma whileLoop_carries_cursor (Hproto : followsCursorProtocol upstream)
  (fuel : nat) :
  forall st log res log',
    carriesCursor
      (Gql.mkVariables (commentsEndCursor st) (reviewsEndCursor st)) = true ->
    whileLoop numberToString params upstream fuel st log = (res, log') ->
    exists calls,
      log' = log ++ calls
      /\ Forall (fun call : Call => carriesCursor (fst call) = true) calls.
Proof.
  induction fuel as [|fuel IH]; intros st log res log' Hcur Hrun.
  - inversion Hrun. exists []. rewrite app_nil_r. auto.
  - destruct (whileLoop_cases fuel st log)
      as [[Heq _] | (_ & _ & Hiter)].
    + rewrite Heq in Hrun. inversion Hrun. exists []. rewrite app_nil_r. auto.
    + set (vars := Gql.mkVariables (commentsEndCursor st)
                     (reviewsEndCursor st)) in *.
      destruct (upstream (length log) vars) as [e|prData] eqn:Hcall.
      { rewrite Hiter in Hrun. inversion Hrun. eexists. split; [reflexivity|].
        repeat constructor. exact Hcur. }
      destruct (lacksAuthor prData).
      { rewrite Hiter in Hrun. inversion Hrun. eexists. split; [reflexivity|].
        repeat constructor. exact Hcur. }
      destruct (announcesMore prData) eqn:Hmore.
      * rewrite Hiter in Hrun. apply IH in Hrun.
        -- destruct Hrun as (calls & -> & Hall).
           exists ((vars, inr prData) :: calls).
           split; [rewrite <- app_assoc; reflexivity|].
           constructor; [exact Hcur | exact Hall].
        -- unfold carriesCursor, afterPage.
           cbn [Gql.commentsAfter Gql.reviewsAfter commentsEndCursor
                  reviewsEndCursor].
           rewrite (Hproto _ _ _ Hcall Hmore). reflexivity.
      * rewrite Hiter in Hrun. inversion Hrun. eexists.
        split; [reflexivity|]. repeat constructor. exact Hcur.
Qed.

Lemma loggedLinkedIssues_with_cursor (calls : list Call) :
  Forall (fun call : Call => carriesCursor (fst call) = true) calls ->
  loggedLinkedIssues calls = [].
Proof.
  induction 1 as [|[vars [e|prData]] calls Hcur _ IH];
    cbn [loggedLinkedIssues flat_map snd fst] in *; auto.
  rewrite Hcur. exact IH.
Qed.

(** Under the cursor protocol the log of a fetch is one request without a
    cursor, answered by the upstream, and then requests with a cursor. *)
Lemma fetch_first_call (Hproto : followsCursorProtocol upstream) :
  exists later,
    snd (fetchPullRequestComments numberToString params upstream)
    = (Gql.mkVariables None None, upstream 0 (Gql.mkVariables None None))
      :: later
    /\ Forall (fun call : Call => carriesCursor (fst call) = true) later.
Proof.
  unfold fetchPullRequestComments, fetchWithFuel, tryCatch, bind.
  destruct (whileLoop_cases MAX_PAGES initialState [])
    as [[_ [Hstop|Hstop]] | (_ & _ & Hiter)].
  - discriminate.
  - unfold MAX_PAGES in Hstop. cbn [pageCount initialState] in Hstop. lia.
  - cbn [initialState commentsEndCursor reviewsEndCursor length app]
      in Hiter.
    set (vars := Gql.mkVariables None None) in *.
    destruct (upstream 0 vars) as [e|prData] eqn:Hcall.
    { rewrite Hiter. exists []. auto. }
    destruct (lacksAuthor prData).
    { rewrite Hiter. exists []. auto. }
    destruct (announcesMore prData) eqn:Hmore.
    + rewrite Hiter.
      destruct (whileLoop numberToString params upstream MAX_PAGES
                  (afterPage numberToString params initialState prData)
                  [(vars, inr prData)]) as [res log] eqn:Hrun.
      apply whileLoop_carries_cursor in Hrun; [|exact Hproto|].
      * destruct Hrun as (calls & -> & Hall). exists calls.
        split; [destruct res as [e|final]; reflexivity | exact Hall].
      * unfold carriesCursor, afterPage.
        cbn [Gql.commentsAfter Gql.reviewsAfter commentsEndCursor
               reviewsEndCursor].
        rewrite (Hproto _ _ _ Hcall Hmore). reflexivity.
    + rewrite Hiter. exists []. auto.
Qed.

(** C6: whatever pages the upstream returns, the call returns a result and
    no comment in it has the author type [Bot]; every comment of the result
    comes from a top-level node or from a review's nested node through the
    same test. *)
Theorem paginator_excludes_bots :
  exists r log,
    fetchPullRequestComments numberToString params upstream
    = (inr (Some r), log)
    /\ Forall (fun c => userType (user c) <> lit "Bot") (comments r).
Proof.
  destruct fetch_cases as (r & log & Hrun & _ & Hres).
  exists r, log. split; [exact Hrun|].
  destruct (existsb failed log).
  - subst r. constructor.
  - destruct Hres as [-> _]. apply loggedComments_isHuman.
Qed.

(** C7: for every upstream the call returns after at most [MAX_PAGES] = 100
    queries; with an upstream that announces a next page on both collections
    on every page, and never leaves out the author of a comment, it makes
    exactly 100 queries and returns the comments and linked issues the 100
    pages contributed. *)
Theorem paginator_stops_at_ceiling :
  exists r log,
    fetchPullRequestComments numberToString params upstream
    = (inr (Some r), log)
    /\ length log <= 100
    /\ (alwaysMore upstream ->
        authorsPresent upstream ->
        length log = 100
        /\ comments r = loggedComments numberToString params log
        /\ linkedIssues r = loggedLinkedIssues log).
Proof.
  destruct fetch_cases as (r & log & Hrun & Hlen & Hres).
  exists r, log. split; [exact Hrun|]. split; [exact Hlen|].
  intros Hmore Hauthors.
  pose proof Hrun as Hrun'.
  unfold fetchPullRequestComments, fetchWithFuel, tryCatch, bind in Hrun'.
  destruct (whileLoop numberToString params upstream (S MAX_PAGES)
              initialState [])
    as [res log0] eqn:Hloop.
  pose proof (whileLoop_spec _ _ _ _ _ Hloop)
    as (calls & Hlog & _ & _ & Hspec).
  simpl in Hlog. subst log0.
  apply whileLoop_alwaysMore in Hloop;
    [|assumption | assumption | reflexivity | unfold MAX_PAGES; simpl; lia
     | unfold MAX_PAGES; simpl; lia].
  destruct Hloop as [Hcount (st' & ->)].
  unfold ret in Hrun'.
  assert (log = calls) by congruence. subst log.
  destruct Hspec as (Hok & _). rewrite Hok in Hres.
  split; [exact Hcount | exact Hres].
Qed.

(** C8: with an upstream that follows the cursor protocol, the linked
    issues are captured once, from the page that answers the first request,
    the only request without a cursor: every later request carries a
    cursor, so no later iteration appends to the list.  The result holds
    exactly the linked issues of that first page, unless the fetch fails
    and returns empty lists. *)
Theorem linked_issues_captured_once :
  followsCursorProtocol upstream ->
  exists r log later,
    fetchPullRequestComments numberToString params upstream
    = (inr (Some r), log)
    /\ log = (Gql.mkVariables None None,
              upstream 0 (Gql.mkVariables None None)) :: later
    /\ Forall (fun call : Call => carriesCursor (fst call) = true) later
    /\ linkedIssues r
       = if existsb failed log then [] else firstPageIssues upstream.
Proof.
  intros Hproto.
  destruct fetch_cases as (r & log & Hrun & _ & Hres).
  destruct (fetch_first_call Hproto) as (later & Hlog & Hlater).
  rewrite Hrun in Hlog. cbn [snd] in Hlog.
  exists r, log, later. repeat split; auto.
  destruct (existsb failed log) eqn:Hfailed; [subst r; reflexivity|].
  destruct Hres as [_ ->]. rewrite Hlog.
  change ((Gql.mkVariables None None,
           upstream 0 (Gql.mkVariables None None)) :: later)
    with ([(Gql.mkVariables None None,
            upstream 0 (Gql.mkVariables None None))] ++ later).
  rewrite loggedLinkedIssues_app, (loggedLinkedIssues_with_cursor _ Hlater),
    app_nil_r.
  unfold firstPageIssues, loggedLinkedIssues. cbn [flat_map snd fst].
  destruct (upstream 0 (Gql.mkVariables None None)); cbn;
    rewrite ?app_nil_r; reflexivity.
Qed.

(** C9: when some call of the transport throws, the function returns
    normally, with an empty comment list and an empty linked-issue list. *)
Theorem transport_failure_gives_empty_result :
  existsb threw (snd (fetchPullRequestComments numberToString params upstream))
  = true ->
  fst (fetchPullRequestComments numberToString params upstream)
  = inr (Some (mkFetchResult [] [])).
Proof.
  destruct fetch_cases as (r & log & Hrun & _ & Hres).
  rewrite Hrun. simpl. intros Hthrew.
  rewrite (threw_failed _ Hthrew) in Hres. subst r.
  reflexivity.
Qed.

End PaginationProperties.

Lemma endlessUpstream_alwaysMore : alwaysMore endlessUpstream.
Proof. intros n vars. eexists. repeat split. Qed.

Lemma endlessUpstream_authorsPresent : authorsPresent endlessUpstream.
Proof. intros n vars prData [= <-]. reflexivity. Qed.

Lemma twoPageUpstream_followsCursorProtocol :
  followsCursorProtocol twoPageUpstream.
Proof.
  intros [|n] vars prData [= <-] Hmore; [reflexivity | discriminate].
Qed.

Lemma paginator_stops_at_ceiling_witness :
  exists r log,
    fetchPullRequestComments decimal sampleParams endlessUpstream
    = (inr (Some r), log)
    /\ length log = 100.
Proof.
  destruct (paginator_stops_at_ceiling decimal sampleParams endlessUpstream)
    as (r & log & Hrun & _ & Hmore).
  exists r, log. split; [exact Hrun|].
  apply Hmore.
  - exact endlessUpstream_alwaysMore.
  - exact endlessUpstream_authorsPresent.
Defined.

Lemma linked_issues_captured_once_witness :
  exists r log,
    fetchPullRequestComments decimal sampleParams twoPageUpstream
    = (inr (Some r), log)
    /\ linkedIssues r
       = if existsb failed log then [] else firstPageIssues twoPageUpstream.
Proof.
  destruct (linked_issues_captured_once decimal sampleParams twoPageUpstream
              twoPageUpstream_followsCursorProtocol)
    as (r & log & later & Hrun & _ & _ & Hissues).
  exists r, log. split; [exact Hrun | exact Hissues].
Defined.

Lemma transport_failure_witness :
  fst (fetchPullRequestComments decimal sampleParams failingUpstream)
  = inr (Some (mkFetchResult [] [])).
Proof.
  apply (transport_failure_gives_empty_result decimal sampleParams
           failingUpstream).
  vm_compute. reflexivity.
Defined.

(** ** Properties of the budget allocation *)

Section SortProperties.

Lemma insertByEstimate_Forall (P : Est.t -> Prop) (f : Est.t)
  (sorted : list Est.t) :
  P f -> Forall P sorted -> Forall P (insertByEstimate f sorted).
Proof.
  intros Hf Hs. induction Hs as [|g rest Hg Hrest IH]; simpl.
  - constructor; auto.
  - destruct (Est.estimatedTokenCount f <=? Est.estimatedTokenCount g)%Z;
      repeat constructor; auto.
Qed.

Lemma insertByEstimate_sorted (f : Est.t) (sorted : list Est.t) :
  StronglySorted estimateLe sorted ->
  StronglySorted estimateLe (insertByEstimate f sorted).
Proof.
  induction 1 as [|g rest Hrest IH Hg]; simpl.
  - repeat constructor.
  - destruct (Est.estimatedTokenCount f <=? Est.estimatedTokenCount g)%Z
      eqn:Hle.
    + apply Z.leb_le in Hle. constructor.
      * constructor; assumption.
      * constructor; [exact Hle|].
        eapply Forall_impl; [|exact Hg].
        unfold estimateLe in *. intros; lia.
    + apply Z.leb_gt in Hle. constructor; [exact IH|].
      apply insertByEstimate_Forall; [unfold estimateLe; lia | exact Hg].
Qed.

Lemma sortByEstimate_sorted (files : list Est.t) :
  StronglySorted estimateLe (sortByEstimate files).
Proof.
  induction files as [|f files IH]; simpl;
    [constructor | apply insertByEstimate_sorted, IH].
Qed.

Lemma insertByEstimate_perm (f : Est.t) (sorted : list Est.t) :
  Permutation (f :: sorted) (insertByEstimate f sorted).
Proof.
  induction sorted as [|g rest IH]; simpl; [reflexivity|].
  destruct (Est.estimatedTokenCount f <=? Est.estimatedTokenCount g)%Z;
    [reflexivity|].
  rewrite perm_swap. constructor. exact IH.
Qed.

Lemma sortByEstimate_perm (files : list Est.t) :
  Permutation files (sortByEstimate files).
Proof.
  induction files as [|f files IH]; simpl; [constructor|].
  rewrite <- insertByEstimate_perm. constructor. exact IH.
Qed.

End SortProperties.

Section IncludeProperties.

(** Over the budget already, nothing with a non-negative estimate is
    included. *)
Lemma includeByEstimate_exhausted (remaining current : Z)
  (files : list Est.t) :
  (remaining < current)%Z ->
  Forall (fun f => 0 <= Est.estimatedTokenCount f)%Z files ->
  includeByEstimate remaining current files = [].
Proof.
  intros Hover Hnonneg. induction Hnonneg as [|f rest Hf _ IH]; simpl; auto.
  destruct (current + Est.estimatedTokenCount f >? remaining)%Z eqn:Hgt;
    [exact IH|].
  rewrite Z.gtb_ltb in Hgt. apply Z.ltb_ge in Hgt. lia.
Qed.

(** Files that all overshoot are all skipped. *)
Lemma includeByEstimate_all_skipped (remaining current : Z)
  (files : list Est.t) :
  Forall (fun f => remaining < current + Est.estimatedTokenCount f)%Z files ->
  includeByEstimate remaining current files = [].
Proof.
  induction 1 as [|f rest Hf _ IH]; simpl; auto.
  destruct (current + Est.estimatedTokenCount f >? remaining)%Z eqn:Hgt;
    [exact IH|].
  rewrite Z.gtb_ltb in Hgt. apply Z.ltb_ge in Hgt. lia.
Qed.

(** On ascending estimates the walk takes a prefix of the list. *)
Lemma includeByEstimate_prefix (remaining : Z) (files : list Est.t) :
  StronglySorted estimateLe files ->
  forall current, exists k,
    k <= length files
    /\ includeByEstimate remaining current files = firstn k files.
Proof.
  induction 1 as [|f rest Hrest IH Hf]; intros current; simpl.
  - exists 0. split; auto.
  - destruct (current + Est.estimatedTokenCount f >? remaining)%Z eqn:Hgt.
    + exists 0. split; [lia|]. simpl.
      apply includeByEstimate_all_skipped.
      rewrite Z.gtb_ltb in Hgt. apply Z.ltb_lt in Hgt.
      eapply Forall_impl; [|exact Hf]. unfold estimateLe. intros; lia.
    + destruct (IH (current + Est.estimatedTokenCount f)%Z) as (k & Hk & ->).
      exists (S k). split; [lia | reflexivity].
Qed.

(** A larger budget extends what the walk takes. *)
Lemma includeByEstimate_monotone (remaining remaining' : Z)
  (files : list Est.t) :
  (remaining <= remaining')%Z ->
  StronglySorted estimateLe files ->
  forall current, exists more,
    includeByEstimate remaining' current files
    = includeByEstimate remaining current files ++ more.
Proof.
  intros Hle. induction 1 as [|f rest Hrest IH Hf]; intros current; simpl.
  - exists []. reflexivity.
  - destruct (current + Est.estimatedTokenCount f >? remaining')%Z eqn:Hgt';
      destruct (current + Est.estimatedTokenCount f >? remaining)%Z eqn:Hgt.
    + apply IH.
    + rewrite Z.gtb_ltb in Hgt, Hgt'.
      apply Z.ltb_lt in Hgt'. apply Z.ltb_ge in Hgt. lia.
    + rewrite (includeByEstimate_all_skipped remaining); [eexists; reflexivity|].
      rewrite Z.gtb_ltb in Hgt. apply Z.ltb_lt in Hgt.
      eapply Forall_impl; [|exact Hf]. unfold estimateLe. intros; lia.
    + destruct (IH (current + Est.estimatedTokenCount f)%Z) as (more & ->).
      exists more. reflexivity.
Qed.

End IncludeProperties.

Section EvictProperties.

Lemma totalTokens_app (a b : list Acc.t) :
  totalTokens (a ++ b) = (totalTokens a + totalTokens b)%Z.
Proof. induction a as [|f a IH]; simpl; [reflexivity | rewrite IH; lia]. Qed.

Lemma fold_left_totalTokens (files : list Acc.t) (base : Z) :
  fold_left (fun sum file => (sum + Acc.tokenCount file)%Z) files base
  = (base + totalTokens files)%Z.
Proof.
  revert base; induction files as [|f files IH]; intros base; simpl;
    [lia | rewrite IH; lia].
Qed.

Lemma evict_nil (limits : TokenLimits) : evict limits [] = [].
Proof. reflexivity. Qed.

(** One test of the eviction loop, seen from the end of the array. *)
Lemma evict_snoc (limits : TokenLimits) (files : list Acc.t) (x : Acc.t) :
  evict limits (files ++ [x])
  = if (runningTokenCount limits + totalTokens (files ++ [x])
        >? tokensRemaining limits)%Z
    then evict limits files
    else files ++ [x].
Proof.
  unfold evict. rewrite !fold_left_totalTokens, rev_app_distr. simpl.
  destruct (runningTokenCount limits + totalTokens (files ++ [x])
            >? tokensRemaining limits)%Z.
  - rewrite totalTokens_app. simpl.
    replace (runningTokenCount limits + (totalTokens files
               + (Acc.tokenCount x + 0)) - Acc.tokenCount x)%Z
      with (runningTokenCount limits + totalTokens files)%Z by lia.
    reflexivity.
  - simpl. rewrite rev_involutive. reflexivity.
Qed.

Lemma evict_prefix (limits : TokenLimits) (files : list Acc.t) :
  exists k, k <= length files /\ evict limits files = firstn k files.
Proof.
  induction files as [|x files IH] using rev_ind.
  - exists 0. auto.
  - rewrite evict_snoc, length_app. simpl.
    destruct (_ >? _)%Z.
    + destruct IH as (k & Hk & ->). exists k. split; [lia|].
      rewrite firstn_app. replace (k - length files) with 0 by lia.
      simpl. rewrite app_nil_r. reflexivity.
    + exists (length (files ++ [x])). rewrite length_app. simpl.
      split; [lia|].
      replace (length files + 1) with (length (files ++ [x]))
        by (rewrite length_app; reflexivity).
      rewrite firstn_all. reflexivity.
Qed.

Lemma evict_length (limits : TokenLimits) (files : list Acc.t) :
  length (evict limits files) <= length files.
Proof.
  destruct (evict_prefix limits files) as (k & Hk & ->).
  rewrite length_firstn. lia.
Qed.

(** What the loop leaves fits the budget, unless it leaves nothing. *)
Lemma evict_fits (limits : TokenLimits) (files : list Acc.t) :
  evict limits files = []
  \/ (runningTokenCount limits + totalTokens (evict limits files)
      <= tokensRemaining limits)%Z.
Proof.
  induction files as [|x files IH] using rev_ind; [left; reflexivity|].
  rewrite evict_snoc.
  destruct (_ >? _)%Z eqn:Hgt; [exact IH|].
  right. rewrite Z.gtb_ltb in Hgt. apply Z.ltb_ge in Hgt. exact Hgt.
Qed.

Lemma evict_longer_list (limits : TokenLimits) (files more : list Acc.t) :
  length (evict limits files) <= length (evict limits (files ++ more)).
Proof.
  induction more as [|x more IH] using rev_ind; [rewrite app_nil_r; lia|].
  rewrite app_assoc, evict_snoc.
  destruct (_ >? _)%Z; [exact IH|].
  rewrite !length_app. pose proof (evict_length limits files). lia.
Qed.

Lemma evict_larger_budget (running remaining remaining' : Z)
  (files : list Acc.t) :
  (remaining <= remaining')%Z ->
  length (evict (mkTokenLimits running remaining) files)
  <= length (evict (mkTokenLimits running remaining') files).
Proof.
  intros Hle. induction files as [|x files IH] using rev_ind; [auto|].
  rewrite (evict_snoc (mkTokenLimits running remaining')).
  rewrite (evict_snoc (mkTokenLimits running remaining)).
  cbn [runningTokenCount tokensRemaining].
  destruct (running + totalTokens (files ++ [x]) >? remaining')%Z eqn:Hgt';
    destruct (running + totalTokens (files ++ [x]) >? remaining)%Z eqn:Hgt.
  - exact IH.
  - rewrite Z.gtb_ltb in Hgt, Hgt'.
    apply Z.ltb_lt in Hgt'. apply Z.ltb_ge in Hgt. lia.
  - rewrite length_app.
    pose proof (evict_length (mkTokenLimits running remaining) files). lia.
  - lia.
Qed.

End EvictProperties.

Section AllocationProperties.

Variable toLowerCase : str -> str.
Variable encode : str -> list N.

Lemma estimateTokens_nonneg (content : str) : (0 <= estimateTokens content)%Z.
Proof. unfold estimateTokens. apply Z.div_pos; lia. Qed.

Lemma estimatedFileDiffStats_nonneg (essential : list FileDiff) :
  Forall (fun f => 0 <= Est.estimatedTokenCount f)%Z
    (estimatedFileDiffStats essential).
Proof.
  unfold estimatedFileDiffStats.
  induction essential as [|f essential IH]; simpl; [constructor|].
  apply insertByEstimate_Forall; [apply estimateTokens_nonneg | exact IH].
Qed.

(** The sort is stable: files with the same estimate keep their order. *)
Lemma insertByEstimate_filter (v : Z) (f : Est.t) (sorted : list Est.t) :
  filter (fun g => Est.estimatedTokenCount g =? v)%Z
    (insertByEstimate f sorted)
  = filter (fun g => Est.estimatedTokenCount g =? v)%Z (f :: sorted).
Proof.
  induction sorted as [|g rest IH]; [reflexivity|].
  cbn [insertByEstimate].
  destruct (Est.estimatedTokenCount f <=? Est.estimatedTokenCount g)%Z eqn:Hle;
    [reflexivity|].
  apply Z.leb_gt in Hle. cbn [filter] in *. rewrite IH.
  destruct (Est.estimatedTokenCount g =? v)%Z eqn:Hg;
    destruct (Est.estimatedTokenCount f =? v)%Z eqn:Hf; try reflexivity.
  apply Z.eqb_eq in Hg, Hf. lia.
Qed.

Lemma sortByEstimate_stable (v : Z) (files : list Est.t) :
  filter (fun g => Est.estimatedTokenCount g =? v)%Z (sortByEstimate files)
  = filter (fun g => Est.estimatedTokenCount g =? v)%Z files.
Proof.
  induction files as [|f files IH]; [reflexivity|].
  cbn [sortByEstimate fold_right]. rewrite insertByEstimate_filter.
  cbn [filter]. fold (sortByEstimate files). rewrite IH. reflexivity.
Qed.

(** [null] is returned exactly when no file is left at the end. *)
Lemma allocateBudget_None (essential : list FileDiff) (limits : TokenLimits) :
  allocateBudget encode essential limits = None
  <-> accurateFileDiffStats encode essential limits = [].
Proof.
  unfold allocateBudget, accurateFileDiffStats, measuredFileDiffs.
  destruct (includedFileDiffs essential limits) eqn:Hinc.
  - split; reflexivity.
  - destruct (evict limits (map (measure encode) (t :: l)));
      split; (reflexivity || discriminate).
Qed.

Lemma allocateBudget_Some (essential : list FileDiff) (limits : TokenLimits)
  (d : str) :
  allocateBudget encode essential limits = Some d ->
  d = join (lit "
") (map Acc.diffContent (accurateFileDiffStats encode essential limits)).
Proof.
  unfold allocateBudget.
  destruct (includedFileDiffs essential limits); [discriminate|].
  destruct (accurateFileDiffStats encode essential limits);
    [discriminate | congruence].
Qed.

(** The files left at the end are a prefix of the sorted estimates. *)
Lemma accurateFileDiffStats_prefix (essential : list FileDiff)
  (limits : TokenLimits) :
  exists k,
    k <= length (estimatedFileDiffStats essential)
    /\ accurateFileDiffStats encode essential limits
       = map (measure encode) (firstn k (estimatedFileDiffStats essential)).
Proof.
  unfold accurateFileDiffStats, measuredFileDiffs, includedFileDiffs.
  destruct (includeByEstimate_prefix (tokensRemaining limits)
              (estimatedFileDiffStats essential)
              (sortByEstimate_sorted _) (runningTokenCount limits))
    as (k1 & Hk1 & ->).
  destruct (evict_prefix limits
              (map (measure encode)
                 (firstn k1 (estimatedFileDiffStats essential))))
    as (k2 & Hk2 & ->).
  exists (Nat.min k2 k1). split; [lia|].
  rewrite <- firstn_map, firstn_firstn, firstn_map. reflexivity.
Qed.

(** C1, as the code has it: a non-null result is the content of the kept
    files joined by one newline, in the order of the sort: the kept files
    are the first [k] files by ascending estimate, files of equal estimate
    in the order of the input. *)
Theorem diff_joins_survivors_in_estimate_order (essential : list FileDiff)
  (limits : TokenLimits) (d : str) :
  allocateBudget encode essential limits = Some d ->
  exists k,
    0 < k <= length essential
    /\ accurateFileDiffStats encode essential limits
       = map (measure encode) (firstn k (estimatedFileDiffStats essential))
    /\ d = join (lit "
") (map Est.diffContent (firstn k (estimatedFileDiffStats essential)))
    /\ StronglySorted estimateLe (estimatedFileDiffStats essential)
    /\ Permutation (map estimate essential) (estimatedFileDiffStats essential)
    /\ forall v,
         filter (fun g => Est.estimatedTokenCount g =? v)%Z
           (estimatedFileDiffStats essential)
         = filter (fun g => Est.estimatedTokenCount g =? v)%Z
             (map estimate essential).
Proof.
  intros Hsome.
  destruct (accurateFileDiffStats_prefix essential limits) as (k & Hk & Hkept).
  assert (Hlen : length (estimatedFileDiffStats essential) = length essential).
  { unfold estimatedFileDiffStats.
    rewrite <- (Permutation_length (sortByEstimate_perm _)).
    apply length_map. }
  exists k.
  assert (Hk0 : 0 < k).
  { destruct k as [|k]; [|lia]. simpl in Hkept.
    apply allocateBudget_None in Hkept. congruence. }
  split; [lia|]. split; [exact Hkept|].
  split.
  - rewrite (allocateBudget_Some _ _ _ Hsome), Hkept, map_map. reflexivity.
  - split; [apply sortByEstimate_sorted|].
    split; [apply sortByEstimate_perm|].
    intros v. apply sortByEstimate_stable.
Qed.

(** C3: when the result is not [null], the running count plus the exact
    token counts of the kept files is within [tokensRemaining], for limits
    and candidates whose totals are safe integers, where the sums of the
    code are exact. *)
Theorem selected_files_fit_budget (essential : list FileDiff)
  (limits : TokenLimits) (d : str) :
  safeAllocation encode essential limits ->
  allocateBudget encode essential limits = Some d ->
  let kept := accurateFileDiffStats encode essential limits in
  d = join (lit "
") (map Acc.diffContent kept)
  /\ Forall (fun f => Acc.tokenCount f
                      = Z.of_nat (length (encode (Acc.diffContent f)))) kept
  /\ (runningTokenCount limits + totalTokens kept
      <= tokensRemaining limits)%Z.
Proof.
  intros _ Hsome kept.
  assert (Hne : kept <> []).
  { intros Hnil. apply allocateBudget_None in Hnil. congruence. }
  split; [|split].
  - apply allocateBudget_Some, Hsome.
  - destruct (accurateFileDiffStats_prefix essential limits) as (k & _ & Hk).
    unfold kept. rewrite Hk. apply Forall_forall.
    intros f Hin. apply in_map_iff in Hin. destruct Hin as (e & <- & _).
    reflexivity.
  - destruct (evict_fits limits (measuredFileDiffs encode essential limits));
      [contradiction | assumption].
Qed.

(** C4: with [tokensRemaining] below [runningTokenCount] the result is
    [null], for every list of candidates, empty contents included. *)
Theorem nothing_fits_when_budget_is_spent (limits : TokenLimits) :
  (tokensRemaining limits < runningTokenCount limits)%Z ->
  (forall essential, allocateBudget encode essential limits = None)
  /\ (forall diff, processPullRequestDiff toLowerCase encode diff limits = None).
Proof.
  intros Hspent.
  assert (Hall : forall essential,
             allocateBudget encode essential limits = None).
  { intros essential. unfold allocateBudget, includedFileDiffs.
    rewrite includeByEstimate_exhausted;
      [reflexivity | exact Hspent | apply estimatedFileDiffStats_nonneg]. }
  split; [exact Hall | intros diff; apply Hall].
Qed.

(** C5: with the candidates, the running count and the token counter
    fixed, a larger [tokensRemaining] never leaves fewer files in the
    result; in particular a non-null result stays non-null.  Both budgets
    and the totals of the candidates are safe integers, where the sums of
    the code are exact. *)
Theorem larger_budget_keeps_no_fewer_files (essential : list FileDiff)
  (running remaining remaining' : Z) :
  safeAllocation encode essential (mkTokenLimits running remaining) ->
  safeAllocation encode essential (mkTokenLimits running remaining') ->
  (remaining <= remaining')%Z ->
  length (accurateFileDiffStats encode essential
            (mkTokenLimits running remaining))
  <= length (accurateFileDiffStats encode essential
               (mkTokenLimits running remaining'))
  /\ (allocateBudget encode essential (mkTokenLimits running remaining)
      <> None ->
      allocateBudget encode essential (mkTokenLimits running remaining')
      <> None).
Proof.
  intros _ _ Hle.
  assert (Hlen : length (accurateFileDiffStats encode essential
                           (mkTokenLimits running remaining))
                 <= length (accurateFileDiffStats encode essential
                              (mkTokenLimits running remaining'))).
  { unfold accurateFileDiffStats, measuredFileDiffs, includedFileDiffs.
    cbn [runningTokenCount tokensRemaining].
    destruct (includeByEstimate_monotone remaining remaining'
                (estimatedFileDiffStats essential) Hle
                (sortByEstimate_sorted _) running) as (more & ->).
    rewrite map_app.
    etransitivity; [apply (evict_larger_budget _ _ _ _ Hle)|].
    apply evict_longer_list. }
  split; [exact Hlen|].
  rewrite !allocateBudget_None. intros Hsmall Hlarge.
  rewrite Hlarge in Hlen. simpl in Hlen.
  destruct (accurateFileDiffStats encode essential
              (mkTokenLimits running remaining)); [auto | simpl in Hlen; lia].
Qed.

End AllocationProperties.

(** *** The allocation on a two-file diff *)

Example twoFileDiff_segments :
  parsePerFileDiffs twoFileDiff
  = [mkFileDiff (lit "big.ts") bigSegment; mkFileDiff (lit "s.ts") smallSegment].
Proof. vm_compute. reflexivity. Qed.

Example twoFileDiff_result :
  processPullRequestDiff asciiLowerCase unitEncode twoFileDiff
    (mkTokenLimits 0 1000)
  = Some (smallSegment ++ newline ++ bigSegment).
Proof. vm_compute. reflexivity. Qed.

(** C1 as stated fails: both files of [twoFileDiff] are kept, the source
    diff has [big.ts] first, and the result has [s.ts] first. *)
Lemma source_order_refuted :
  let limits := mkTokenLimits 0 1000 in
  let source := parsePerFileDiffs twoFileDiff in
  let kept :=
    accurateFileDiffStats unitEncode
      (essentialFileDiffs asciiLowerCase twoFileDiff) limits in
  length kept = 2
  /\ join newline (map diffContent (inSourceOrder source kept))
     = bigSegment ++ newline ++ smallSegment
  /\ processPullRequestDiff asciiLowerCase unitEncode twoFileDiff limits
     <> Some (join newline (map diffContent (inSourceOrder source kept))).
Proof.
  cbv zeta. split; [vm_compute; reflexivity|].
  split; [vm_compute; reflexivity|].
  vm_compute. discriminate.
Qed.

Lemma diff_joins_survivors_witness :
  exists k,
    smallSegment ++ newline ++ bigSegment
    = join newline
        (map Est.diffContent
           (firstn k
              (estimatedFileDiffStats
                 (essentialFileDiffs asciiLowerCase twoFileDiff)))).
Proof.
  destruct (diff_joins_survivors_in_estimate_order unitEncode
              (essentialFileDiffs asciiLowerCase twoFileDiff)
              (mkTokenLimits 0 1000)
              (smallSegment ++ newline ++ bigSegment))
    as (k & _ & _ & Hd & _).
  - vm_compute. reflexivity.
  - exists k. exact Hd.
Defined.

Lemma selected_files_fit_budget_witness :
  (0 + totalTokens
         (accurateFileDiffStats unitEncode
            (essentialFileDiffs asciiLowerCase twoFileDiff)
            (mkTokenLimits 0 1000))
   <= 1000)%Z.
Proof.
  apply (selected_files_fit_budget unitEncode
           (essentialFileDiffs asciiLowerCase twoFileDiff)
           (mkTokenLimits 0 1000)
           (smallSegment ++ newline ++ bigSegment)).
  - unfold safeAllocation, isSafeInteger. vm_compute.
    repeat split; discriminate.
  - vm_compute. reflexivity.
Defined.

Lemma nothing_fits_witness :
  allocateBudget unitEncode [mkFileDiff (lit "empty.ts") []]
    (mkTokenLimits 10 5)
  = None.
Proof.
  apply (nothing_fits_when_budget_is_spent asciiLowerCase unitEncode
           (mkTokenLimits 10 5)).
  simpl. lia.
Defined.

Lemma larger_budget_witness :
  length (accurateFileDiffStats unitEncode
            (essentialFileDiffs asciiLowerCase twoFileDiff)
            (mkTokenLimits 0 30))
  <= length (accurateFileDiffStats unitEncode
               (essentialFileDiffs asciiLowerCase twoFileDiff)
               (mkTokenLimits 0 1000)).
Proof.
  apply (larger_budget_keeps_no_fewer_files unitEncode
           (essentialFileDiffs asciiLowerCase twoFileDiff) 0 30 1000).
  - unfold safeAllocation, isSafeInteger. vm_compute.
    repeat split; discriminate.
  - unfold safeAllocation, isSafeInteger. vm_compute.
    repeat split; discriminate.
  - lia.
Defined.

(** ** Properties of the header pattern and of [parsePerFileDiffs] *)

Section StringProperties.

Lemma stripPrefix_Some (p s r : str) :
  stripPrefix p s = Some r <-> s = p ++ r.
Proof.
  revert s; induction p as [|a p IH]; intros s; simpl.
  - split; [intros [= ->]; reflexivity | intros ->; reflexivity].
  - destruct s as [|b s]; [split; discriminate|].
    destruct (N.eqb a b) eqn:Hab.
    + apply N.eqb_eq in Hab. subst b. rewrite IH.
      split; [intros ->; reflexivity | intros [= ->]; reflexivity].
    + apply N.eqb_neq in Hab. split; [discriminate | intros [= -> _]].
      contradiction.
Qed.

Lemma stripPrefix_app (p a t : str) :
  length p <= length a ->
  stripPrefix p (a ++ t)
  = match stripPrefix p a with
    | Some r => Some (r ++ t)
    | None => None
    end.
Proof.
  revert a; induction p as [|x p IH]; intros a Hlen; simpl; [reflexivity|].
  destruct a as [|y a]; simpl in *; [lia|].
  destruct (N.eqb x y); [apply IH; lia | reflexivity].
Qed.

Lemma dropWhile_app (p : char -> bool) (l y : str) (c : char) :
  p c = false ->
  dropWhile p (l ++ c :: y) = dropWhile p l ++ c :: y.
Proof.
  intros Hc. induction l as [|x l IH]; simpl; [rewrite Hc; reflexivity|].
  destruct (p x); [exact IH | reflexivity].
Qed.

Lemma dropWhile_split (p : char -> bool) (l : str) :
  exists w, l = w ++ dropWhile p l /\ Forall (fun c => p c = true) w.
Proof.
  induction l as [|x l (w & Hl & Hw)]; simpl; [exists []; auto|].
  destruct (p x) eqn:Hx.
  - exists (x :: w). split; [simpl; congruence | constructor; auto].
  - exists []. auto.
Qed.

(** [trimEnd] only removes white space. *)
Lemma trimEnd_split (s : str) :
  exists w, s = trimEnd s ++ w /\ Forall (fun c => isWhiteSpace c = true) w.
Proof.
  unfold trimEnd.
  destruct (dropWhile_split isWhiteSpace (rev s)) as (w & Hs & Hw).
  exists (rev w). split; [|apply Forall_rev, Hw].
  rewrite <- rev_app_distr, <- Hs, rev_involutive. reflexivity.
Qed.

(** Text that ends in something other than white space is kept by
    [trimEnd], whatever follows it. *)
Lemma trimEnd_app (a t : str) (c : char) :
  isWhiteSpace c = false ->
  trimEnd ((a ++ [c]) ++ t) = (a ++ [c]) ++ trimEnd t.
Proof.
  intros Hc. unfold trimEnd.
  rewrite !rev_app_distr. simpl.
  rewrite dropWhile_app by exact Hc.
  rewrite rev_app_distr. simpl. rewrite rev_involutive, <- app_assoc.
  reflexivity.
Qed.

Lemma substring_ordered (s : str) (a b : nat) :
  a <= b -> b <= length s ->
  substring s a b = firstn (b - a) (skipn a s).
Proof.
  intros Hab Hb. unfold substring.
  repeat (rewrite Nat.min_l by lia). rewrite Nat.max_r by lia.
  reflexivity.
Qed.

Lemma firstn_add (s : str) (a n : nat) :
  firstn (a + n) s = firstn a s ++ firstn n (skipn a s).
Proof.
  revert s; induction a as [|a IH]; intros s; simpl; [reflexivity|].
  destruct s as [|c s]; simpl; [rewrite firstn_nil; reflexivity|].
  rewrite IH. reflexivity.
Qed.

End StringProperties.

Section PatternProperties.

Lemma dotStar_le (s : str) : dotStar s <= length s.
Proof.
  induction s as [|c s IH]; simpl; [lia|].
  destruct (isLineTerminator c); simpl; lia.
Qed.

Lemma dotStar_line (s : str) : Forall notTerminator (firstn (dotStar s) s).
Proof.
  induction s as [|c s IH]; simpl; [constructor|].
  destruct (isLineTerminator c) eqn:Hc; simpl; constructor; assumption.
Qed.

Lemma lazyCapture_eq (s : str) :
  lazyCapture s
  = match stripPrefix headerInfix s with
    | Some rest => Some ([], rest)
    | None =>
        match s with
        | [] => None
        | c :: s' =>
            if isLineTerminator c then None
            else match lazyCapture s' with
                 | Some (cap, rest) => Some (c :: cap, rest)
                 | None => None
                 end
        end
    end.
Proof. destruct s; reflexivity. Qed.

Lemma lazyCapture_Some (s cap rest : str) :
  lazyCapture s = Some (cap, rest) ->
  s = cap ++ headerInfix ++ rest /\ Forall notTerminator cap.
Proof.
  revert cap rest; induction s as [|c s IH]; intros cap rest;
    rewrite lazyCapture_eq.
  - simpl. discriminate.
  - destruct (stripPrefix headerInfix (c :: s)) as [r|] eqn:Hstrip.
    + intros [= <- <-]. apply stripPrefix_Some in Hstrip.
      split; [exact Hstrip | constructor].
    + destruct (isLineTerminator c) eqn:Hc; [discriminate|].
      destruct (lazyCapture s) as [[cap' rest']|]; [|discriminate].
      intros [= <- <-]. destruct (IH cap' rest' eq_refl) as [-> Hcap].
      split; [reflexivity | constructor; assumption].
Qed.

(** The capture does not depend on what follows the literal [ b/]. *)
Lemma lazyCapture_retail (cap tail tail' : str) :
  lazyCapture (cap ++ headerInfix ++ tail) = Some (cap, tail) ->
  lazyCapture (cap ++ headerInfix ++ tail') = Some (cap, tail').
Proof.
  induction cap as [|c cap IH]; [intros _; reflexivity|].
  intros Hcap.
  assert (Hwindow : forall t,
             stripPrefix headerInfix ((c :: cap) ++ headerInfix ++ t)
             = match stripPrefix headerInfix ((c :: cap) ++ headerInfix) with
               | Some r => Some (r ++ t)
               | None => None
               end).
  { intros t. rewrite app_assoc. apply stripPrefix_app.
    rewrite length_app. simpl. lia. }
  rewrite lazyCapture_eq, Hwindow in Hcap.
  rewrite lazyCapture_eq, Hwindow.
  destruct (stripPrefix headerInfix ((c :: cap) ++ headerInfix));
    [discriminate|].
  cbn [app] in *.
  destruct (isLineTerminator c); [discriminate|].
  destruct (lazyCapture (cap ++ headerInfix ++ tail)) as [[cap0 rest0]|]
    eqn:Hrec; [|discriminate].
  injection Hcap as -> ->. rewrite (IH eq_refl). reflexivity.
Qed.

Lemma matchHeader_Some (s cap : str) (len : nat) :
  matchHeader s = Some (cap, len) ->
  exists tail,
    s = headerPrefix ++ cap ++ headerInfix ++ tail
    /\ lazyCapture (cap ++ headerInfix ++ tail) = Some (cap, tail)
    /\ len = length headerPrefix + length cap + length headerInfix
             + dotStar tail.
Proof.
  unfold matchHeader.
  destruct (stripPrefix headerPrefix s) as [after|] eqn:Hp; [|discriminate].
  destruct (lazyCapture after) as [[cap' rest]|] eqn:Hcap; [|discriminate].
  intros [= <- <-]. apply stripPrefix_Some in Hp.
  destruct (lazyCapture_Some _ _ _ Hcap) as [-> _].
  exists rest. auto.
Qed.

Lemma matchHeader_retail (cap tail tail' : str) (len : nat) :
  matchHeader (headerPrefix ++ cap ++ headerInfix ++ tail) = Some (cap, len) ->
  exists len',
    matchHeader (headerPrefix ++ cap ++ headerInfix ++ tail')
    = Some (cap, len').
Proof.
  intros Hm. destruct (matchHeader_Some _ _ _ Hm) as (tail0 & Hs & Hcap & _).
  apply app_inv_head in Hs. apply app_inv_head in Hs.
  apply app_inv_head in Hs. subst tail0.
  unfold matchHeader.
  rewrite (proj2 (stripPrefix_Some headerPrefix _ _) eq_refl).
  rewrite (lazyCapture_retail _ _ tail' Hcap). eauto.
Qed.

(** A match is at least sixteen code units long, lies within its input and
    within one line. *)
Lemma matchHeader_extent (s cap : str) (len : nat) :
  matchHeader s = Some (cap, len) ->
  16 <= len <= length s /\ Forall notTerminator (firstn len s).
Proof.
  intros Hm. destruct (matchHeader_Some _ _ _ Hm) as (tail & -> & Hcap & ->).
  destruct (lazyCapture_Some _ _ _ Hcap) as [_ Hline].
  pose proof (dotStar_le tail). pose proof (dotStar_line tail).
  rewrite !length_app.
  change (length headerPrefix) with 13. change (length headerInfix) with 3.
  split; [lia|].
  replace (13 + length cap + 3 + dotStar tail)
    with (length headerPrefix + (length cap + (length headerInfix
            + dotStar tail)))
    by (change (length headerPrefix) with 13;
        change (length headerInfix) with 3; lia).
  rewrite !firstn_app_2.
  repeat (apply Forall_app; split); auto;
    repeat constructor.
Qed.

(** No position strictly inside a line starts a header. *)
Lemma countTail_inside (len : nat) :
  forall s,
    S len <= length s ->
    Forall notTerminator (firstn (S len) s) ->
    countTail s = countHeaders (nth_error s len) (skipn (S len) s).
Proof.
  induction len as [|len IH]; intros s Hlen Hline;
    (destruct s as [|c s]; [simpl in Hlen; lia|]).
  - reflexivity.
  - cbn [firstn] in Hline. inversion Hline as [|? ? Hc Hrest]; subst.
    simpl in Hlen.
    change (countHeaders (Some c) s
            = countHeaders (nth_error s len) (skipn (S len) s)).
    rewrite <- (IH s) by (assumption || lia).
    destruct s as [|d s]; [simpl in Hlen; lia|].
    cbn [countHeaders countTail atLineStart]. unfold notTerminator in Hc.
    rewrite Hc. reflexivity.
Qed.

End PatternProperties.

Section ExecProperties.

Lemma countHeaders_eq (prev : option char) (s : str) :
  countHeaders prev s
  = match (if atLineStart prev then matchHeader s else None) with
    | Some _ => 1
    | None => 0
    end + countTail s.
Proof. destruct s; reflexivity. Qed.

Lemma execScan_None (s : str) :
  forall prev i, execScan prev s i = None -> countHeaders prev s = 0.
Proof.
  induction s as [|c s IH]; intros prev i Hscan; simpl in *;
    destruct (if atLineStart prev then matchHeader _ else None)
      as [[cap len]|]; try discriminate; eauto.
Qed.

Lemma execScan_Some (s : str) :
  forall prev i m,
    execScan prev s i = Some m ->
    exists pre rest,
      s = pre ++ rest
      /\ index m = i + length pre
      /\ matchHeader rest = Some (group1 m, matchLength m)
      /\ countHeaders prev s = S (countTail rest).
Proof.
  assert (Hhere : forall prev s0 i m cap len,
             (if atLineStart prev then matchHeader s0 else None)
             = Some (cap, len) ->
             Some (mkMatch i cap len) = Some m ->
             exists pre rest,
               s0 = pre ++ rest
               /\ index m = i + length pre
               /\ matchHeader rest = Some (group1 m, matchLength m)
               /\ countHeaders prev s0 = S (countTail rest)).
  { intros prev s0 i m cap len Hm [= <-]. exists [], s0.
    rewrite countHeaders_eq, Hm. simpl.
    destruct (atLineStart prev); [|discriminate].
    repeat split; auto. }
  induction s as [|c s IH]; intros prev i m Hscan; simpl in Hscan;
    destruct (if atLineStart prev then matchHeader _ else None)
      as [[cap len]|] eqn:Hm; try discriminate; eauto.
  destruct (IH _ _ _ Hscan) as (pre & rest & -> & Hi & Hrest & Hcount).
  exists (c :: pre), rest. simpl.
  rewrite Hm. repeat split; auto; lia.
Qed.

Variable diff : str.

Lemma exec_None (k : nat) :
  k <= length diff ->
  exec diff k = None ->
  countHeaders (charBefore diff k) (skipn k diff) = 0.
Proof.
  intros Hk. unfold exec.
  rewrite (proj2 (Nat.ltb_ge _ _) Hk). apply execScan_None.
Qed.

(** A successful [exec]: the match lies at or after [lastIndex], within the
    input, and between [lastIndex] and the end of the match it is the only
    header position. *)
Lemma exec_Some (k : nat) (m : Match) :
  k <= length diff ->
  exec diff k = Some m ->
  k <= index m
  /\ index m + matchLength m <= length diff
  /\ matchHeader (skipn (index m) diff) = Some (group1 m, matchLength m)
  /\ countHeaders (charBefore diff k) (skipn k diff)
     = S (countHeaders (charBefore diff (index m + matchLength m))
            (skipn (index m + matchLength m) diff)).
Proof.
  intros Hk. unfold exec. rewrite (proj2 (Nat.ltb_ge _ _) Hk).
  intros Hscan.
  destruct (execScan_Some _ _ _ _ Hscan)
    as (pre & rest & Hsplit & Hi & Hrest & Hcount).
  assert (Hskip : skipn (index m) diff = rest).
  { rewrite Hi, Nat.add_comm, <- skipn_skipn, Hsplit, skipn_app.
    rewrite skipn_all, Nat.sub_diag. reflexivity. }
  destruct (matchHeader_extent _ _ _ Hrest) as [Hlen Hline].
  assert (Hwithin : index m + length rest = length diff).
  { pose proof (f_equal (@length _) Hsplit) as Hl.
    rewrite length_skipn, length_app in Hl. lia. }
  split; [lia|]. split; [lia|]. split; [rewrite Hskip; exact Hrest|].
  rewrite Hcount. f_equal.
  destruct (matchLength m) as [|len] eqn:Hml; [lia|].
  rewrite (countTail_inside len) by (assumption || lia).
  replace (index m + S len) with (S (index m + len)) by lia.
  cbn [charBefore].
  rewrite <- Hskip at 1. rewrite nth_error_skipn.
  rewrite <- Hskip, skipn_skipn.
  replace (S len + index m) with (S (index m + len)) by lia.
  reflexivity.
Qed.

End ExecProperties.

Section SegmentProperties.

Lemma weave_snoc (contents seps : list str) (c w : str) :
  length seps = length contents ->
  weave (contents ++ [c]) (seps ++ [w]) = weave contents seps ++ c ++ w.
Proof.
  unfold weave. revert seps; induction contents as [|x contents IH];
    intros [|y seps] Hlen; simpl in *; try discriminate.
  - rewrite app_nil_r. reflexivity.
  - rewrite IH by lia. rewrite <- !app_assoc. reflexivity.
Qed.

Lemma setLastContent_snoc (done : list FileDiff) (open : FileDiff)
  (content : str) :
  setLastContent (done ++ [open]) content
  = done ++ [mkFileDiff (filename open) content].
Proof.
  unfold setLastContent. rewrite rev_app_distr. simpl.
  rewrite rev_involutive. reflexivity.
Qed.

Lemma trim_header (f t : str) :
  trim (headerPrefix ++ f ++ headerInfix ++ t)
  = headerPrefix ++ f ++ headerInfix ++ trimEnd t.
Proof.
  unfold trim.
  assert (Hstart : forall s, trimStart (headerPrefix ++ s) = headerPrefix ++ s)
    by reflexivity.
  rewrite Hstart.
  change headerInfix with (lit " b" ++ [47%N]).
  replace (headerPrefix ++ f ++ (lit " b" ++ [47%N]) ++ t)
    with (((headerPrefix ++ f ++ lit " b") ++ [47%N]) ++ t)
    by (rewrite <- !app_assoc; reflexivity).
  rewrite trimEnd_app by reflexivity.
  rewrite <- !app_assoc. reflexivity.
Qed.

(** The segment closed over a raw range that holds at least the header
    line: its content keeps the header line and its capture, and the range
    is the content followed by white space. *)
Lemma closed_segment (raw0 f : str) (len n : nat) :
  matchHeader raw0 = Some (f, len) ->
  len <= n ->
  headed (mkFileDiff f (trim (firstn n raw0)))
  /\ exists w, firstn n raw0 = trim (firstn n raw0) ++ w /\ whiteSpaceOnly w.
Proof.
  intros Hm Hn.
  destruct (matchHeader_Some _ _ _ Hm) as (tail & -> & Hcap & Hlen).
  pose proof (dotStar_le tail) as Hdot.
  replace n with (length headerPrefix
                  + (length f + (length headerInfix
                                 + (n - length headerPrefix - length f
                                    - length headerInfix)))) by lia.
  rewrite !firstn_app_2, trim_header.
  split.
  - unfold headed. cbn [diffContent filename].
    eapply matchHeader_retail. exact Hm.
  - destruct (trimEnd_split
                (firstn (n - length headerPrefix - length f
                         - length headerInfix) tail)) as (w & Hw & Hws).
    exists w. split; [|exact Hws].
    rewrite <- !app_assoc. rewrite <- Hw. reflexivity.
Qed.

End SegmentProperties.

Section ParseProperties.

Variable diff : str.

Lemma loopInvariant_init : loopInvariant diff [] 0 0.
Proof. unfold loopInvariant. simpl. repeat split; lia. Qed.

(** One iteration keeps the invariant. *)
Lemma loopInvariant_step (perFileDiffs : list FileDiff) (lastIndex k : nat)
  (m : Match) :
  loopInvariant diff perFileDiffs lastIndex k ->
  exec diff k = Some m ->
  loopInvariant diff
    ((if Nat.ltb 0 (length perFileDiffs)
      then setLastContent perFileDiffs
             (trim (substring diff lastIndex (index m)))
      else perFileDiffs)
     ++ [mkFileDiff (group1 m) []])
    (index m) (index m + matchLength m).
Proof.
  intros (Hk & Hcount & Hshape) Hexec.
  destruct (exec_Some diff k m Hk Hexec) as (Hkm & Hend & Hhead & Hnext).
  unfold loopInvariant. split; [exact Hend|].
  rewrite rev_app_distr. cbn [rev app filename].
  destruct (rev perFileDiffs) as [|open closed] eqn:Hrev.
  - apply (f_equal (@rev _)) in Hrev. rewrite rev_involutive in Hrev.
    subst perFileDiffs. destruct Hshape as [-> ->].
    rewrite Hnext in Hcount. cbn [rev length app Nat.ltb Nat.leb] in *.
    split; [lia|].
    split; [eauto|]. split; [constructor|].
    exists []. repeat split; [constructor|].
    unfold firstHeaderIndex. rewrite Hexec, app_nil_r. reflexivity.
  - apply (f_equal (@rev _)) in Hrev. rewrite rev_involutive in Hrev.
    simpl in Hrev. subst perFileDiffs.
    destruct Hshape as ((len & Hopen & ->) & Hclosed & seps & Hlen & Hws & Hcov).
    assert (Hlt : Nat.ltb 0 (length (rev closed ++ [open])) = true)
      by (apply Nat.ltb_lt; rewrite length_app; simpl; lia).
    rewrite Hlt, setLastContent_snoc.
    rewrite Hnext in Hcount. rewrite !length_app in *. cbn [length] in *.
    split; [lia|].
    rewrite rev_app_distr. cbn [rev app]. rewrite rev_involutive.
    split; [eauto|].
    rewrite substring_ordered by lia.
    destruct (closed_segment _ _ _ (index m - lastIndex) Hopen ltac:(lia))
      as (Hheaded & w & Hraw & Hw).
    split; [constructor; assumption|].
    exists (seps ++ [w]). rewrite length_app. simpl.
    split; [lia|]. split; [apply Forall_app; auto|].
    rewrite map_app. simpl.
    rewrite weave_snoc by (rewrite length_map, length_rev; exact Hlen).
    rewrite app_assoc, <- Hcov, <- Hraw.
    replace (index m) with (lastIndex + (index m - lastIndex)) at 1 by lia.
    apply firstn_add.
Qed.

(** The loop ends within its fuel, in a state that satisfies the invariant
    and at which [exec] finds no further match. *)
Lemma parseLoop_ends (fuel : nat) :
  forall perFileDiffs lastIndex k,
    loopInvariant diff perFileDiffs lastIndex k ->
    length diff - k < fuel ->
    exists final lastIndex' k',
      parseLoop fuel diff perFileDiffs lastIndex k = Some (final, lastIndex')
      /\ loopInvariant diff final lastIndex' k'
      /\ exec diff k' = None.
Proof.
  induction fuel as [|fuel IH]; intros perFileDiffs lastIndex k Hinv Hfuel;
    [lia|].
  simpl. destruct (exec diff k) as [m|] eqn:Hexec; [|eauto 6].
  pose proof (loopInvariant_step _ _ _ _ Hinv Hexec) as Hinv'.
  destruct Hinv as (Hk & _).
  destruct (exec_Some diff k m Hk Hexec) as (Hkm & Hend & Hhead & _).
  destruct (matchHeader_extent _ _ _ Hhead) as [Hlen _].
  apply IH; [exact Hinv' | lia].
Qed.

(** The result of [parsePerFileDiffs], read off the final state. *)
Lemma parsePerFileDiffs_final :
  exists final lastIndex k,
    loopInvariant diff final lastIndex k
    /\ exec diff k = None
    /\ parsePerFileDiffs diff
       = match rev final with
         | [] => []
         | open :: closed =>
             rev closed
             ++ [mkFileDiff (filename open) (trim (skipn lastIndex diff))]
         end.
Proof.
  destruct (parseLoop_ends (S (length diff)) [] 0 0 loopInvariant_init
              ltac:(lia)) as (final & lastIndex & k & Hrun & Hinv & Hexec).
  exists final, lastIndex, k. split; [exact Hinv|]. split; [exact Hexec|].
  unfold parsePerFileDiffs, parseWithFuel. rewrite Hrun.
  destruct Hinv as (Hk & _ & Hshape).
  destruct (rev final) as [|open closed] eqn:Hrev;
    apply (f_equal (@rev _)) in Hrev; rewrite rev_involutive in Hrev;
    subst final; [reflexivity|].
  destruct Hshape as ((len & Hopen & ->) & _).
  destruct (matchHeader_extent _ _ _ Hopen) as [Hlen _].
  rewrite length_skipn in Hlen. cbn [rev].
  assert (Hlt : Nat.ltb 0 (length (rev closed ++ [open])) = true)
    by (apply Nat.ltb_lt; rewrite length_app; simpl; lia).
  assert (Hlast : Nat.ltb lastIndex (length diff) = true)
    by (apply Nat.ltb_lt; lia).
  rewrite Hlt, Hlast. cbn [andb]. apply setLastContent_snoc.
Qed.

End ParseProperties.

Section ParseTheorems.

(** C2, as the code has it: the segments are as many as the header lines
    of the input, and the contents in order, each followed by the white
    space that [trim] removed after it, make up the input from its first
    header line to its end; the text before the first header line belongs
    to no segment. *)
Theorem segments_cover_from_first_header (diff : str) :
  length (parsePerFileDiffs diff) = countHeaders None diff
  /\ exists seps,
       length seps = length (parsePerFileDiffs diff)
       /\ Forall whiteSpaceOnly seps
       /\ diff = firstn (firstHeaderIndex diff) diff
                 ++ weave (map diffContent (parsePerFileDiffs diff)) seps.
Proof.
  destruct (parsePerFileDiffs_final diff)
    as (final & lastIndex & k & (Hk & Hcount & Hshape) & Hexec & ->).
  rewrite (exec_None diff k Hk Hexec), Nat.add_0_r in Hcount.
  rewrite <- Hcount, <- (length_rev final).
  destruct (rev final) as [|open closed].
  - destruct Hshape as [_ ->]. split; [reflexivity|].
    exists []. repeat split; [constructor|].
    unfold firstHeaderIndex. rewrite Hexec, firstn_all, app_nil_r.
    reflexivity.
  - destruct Hshape
      as ((len & Hopen & ->) & _ & seps & Hlen & Hws & Hcov).
    rewrite length_app, length_rev. cbn [length].
    split; [lia|].
    destruct (matchHeader_extent _ _ _ Hopen) as [Hextent _].
    destruct (closed_segment _ _ _ (length (skipn lastIndex diff)) Hopen
                ltac:(lia)) as (_ & w & Hraw & Hw).
    rewrite firstn_all in Hraw.
    exists (seps ++ [w]). rewrite length_app. cbn [length].
    split; [lia|]. split; [apply Forall_app; auto|].
    rewrite map_app. cbn [map diffContent].
    rewrite weave_snoc by (rewrite length_map, length_rev; exact Hlen).
    rewrite app_assoc, <- Hcov, <- Hraw. symmetry. apply firstn_skipn.
Qed.

(** C10: the content of every segment (none is empty) starts with the
    header line it was split at: matched against the header pattern, the
    content yields the segment's file name as its capture, so it reads
    [diff --git a/], the file name, [ b/] and the rest. *)
Theorem segment_content_keeps_its_header (diff : str) (seg : FileDiff) :
  In seg (parsePerFileDiffs diff) ->
  diffContent seg <> [] ->
  headed seg
  /\ exists rest,
       diffContent seg
       = headerPrefix ++ filename seg ++ headerInfix ++ rest.
Proof.
  intros Hin _.
  assert (Hheaded : headed seg).
  { destruct (parsePerFileDiffs_final diff)
      as (final & lastIndex & k & (Hk & _ & Hshape) & _ & Hparse).
    rewrite Hparse in Hin.
    destruct (rev final) as [|open closed]; [contradiction|].
    destruct Hshape as ((len & Hopen & ->) & Hclosed & _).
    apply in_app_or in Hin. destruct Hin as [Hin|[<-|[]]].
    - apply in_rev in Hin.
      exact (proj1 (Forall_forall _ _) Hclosed _ Hin).
    - destruct (matchHeader_extent _ _ _ Hopen) as [Hextent _].
      destruct (closed_segment _ _ _ (length (skipn lastIndex diff)) Hopen
                  ltac:(lia)) as (Hlast & _).
      rewrite firstn_all in Hlast. exact Hlast. }
  split; [exact Hheaded|].
  destruct Hheaded as (len & Hm).
  destruct (matchHeader_Some _ _ _ Hm) as (tail & Hs & _). eauto.
Qed.

End ParseTheorems.

(** *** A diff with text before its first header line *)

Example preambleDiff_segments :
  parsePerFileDiffs preambleDiff
  = [mkFileDiff (lit "f.ts") (lit "diff --git a/f.ts b/f.ts
+x")].
Proof. vm_compute. reflexivity. Qed.

(** C2 as stated fails: [preambleDiff] has one header line and one segment,
    but its first line is in no segment and is not white space. *)
Lemma preamble_not_covered :
  countHeaders None preambleDiff = 1
  /\ length (parsePerFileDiffs preambleDiff) = 1
  /\ ~ coversInput preambleDiff (parsePerFileDiffs preambleDiff).
Proof.
  split; [vm_compute; reflexivity|]. split; [vm_compute; reflexivity|].
  rewrite preambleDiff_segments.
  intros (before & seps & Hlen & Hbefore & _ & Hdiff).
  destruct seps as [|w [|? ?]]; try discriminate Hlen.
  destruct before as [|c before].
  - vm_compute in Hdiff. discriminate.
  - inversion Hbefore as [|? ? Hc _]; subst.
    vm_compute in Hdiff. injection Hdiff as <- _.
    vm_compute in Hc. discriminate.
Qed.

Lemma segment_content_witness :
  headed (mkFileDiff (lit "f.ts") (lit "diff --git a/f.ts b/f.ts
+x")).
Proof.
  apply (segment_content_keeps_its_header preambleDiff).
  - rewrite preambleDiff_segments. left. reflexivity.
  - discriminate.
Defined.

(** ** Further properties of [parsePerFileDiffs] *)

Section MoreParseProperties.

Variable diff : str.

Lemma parsePerFileDiffs_headed (seg : FileDiff) :
  In seg (parsePerFileDiffs diff) -> headed seg.
Proof.
  intros Hin.
  destruct (parsePerFileDiffs_final diff)
    as (final & lastIndex & k & (Hk & _ & Hshape) & _ & Hparse).
  rewrite Hparse in Hin.
  destruct (rev final) as [|open closed]; [contradiction|].
  destruct Hshape as ((len & Hopen & ->) & Hclosed & _).
  apply in_app_or in Hin. destruct Hin as [Hin|[<-|[]]].
  - apply in_rev in Hin. exact (proj1 (Forall_forall _ _) Hclosed _ Hin).
  - destruct (matchHeader_extent _ _ _ Hopen) as [Hextent _].
    destruct (closed_segment _ _ _ (length (skipn lastIndex diff)) Hopen
                ltac:(lia)) as (Hlast & _).
    rewrite firstn_all in Hlast. exact Hlast.
Qed.

Lemma parsePerFileDiffs_length :
  length (parsePerFileDiffs diff) = countHeaders None diff.
Proof.
  destruct (parsePerFileDiffs_final diff)
    as (final & lastIndex & k & (Hk & Hcount & _) & Hexec & ->).
  rewrite (exec_None diff k Hk Hexec), Nat.add_0_r in Hcount.
  rewrite <- Hcount, <- (length_rev final).
  destruct (rev final); [reflexivity|].
  rewrite length_app, length_rev. simpl. lia.
Qed.

(** The capture ends at the first [ b/] of its text. *)
Lemma lazyCapture_first (a r : str) :
  forall cap rest,
    lazyCapture (a ++ headerInfix ++ r) = Some (cap, rest) ->
    length cap <= length a.
Proof.
  induction a as [|c a IH]; intros cap rest; rewrite lazyCapture_eq.
  - cbn [app].
    rewrite (proj2 (stripPrefix_Some headerInfix (headerInfix ++ r) r) eq_refl).
    intros [= <- _]. simpl. lia.
  - destruct (stripPrefix headerInfix ((c :: a) ++ headerInfix ++ r));
      [intros [= <- _]; simpl; lia|].
    cbn [app]. destruct (isLineTerminator c); [discriminate|].
    destruct (lazyCapture (a ++ headerInfix ++ r)) as [[cap0 rest0]|] eqn:Hrec;
      [|discriminate].
    intros [= <- _]. specialize (IH _ _ eq_refl). simpl. lia.
Qed.

(** X1: the file name of a segment is the shortest text between
    [diff --git a/] and a [ b/] on the header line: it holds no line
    terminator and no [ b/], so a path that contains [ b/] is cut there. *)
Theorem segment_filename_is_shortest_capture (seg : FileDiff) :
  In seg (parsePerFileDiffs diff) ->
  Forall notTerminator (filename seg)
  /\ forall a b, filename seg <> a ++ headerInfix ++ b.
Proof.
  intros Hin. destruct (parsePerFileDiffs_headed seg Hin) as (len & Hm).
  destruct (matchHeader_Some _ _ _ Hm) as (tail & _ & Hcap & _).
  split; [exact (proj2 (lazyCapture_Some _ _ _ Hcap))|].
  intros a b Hname. rewrite Hname, <- !app_assoc in Hcap.
  apply lazyCapture_first in Hcap. rewrite !length_app in Hcap.
  change (length headerInfix) with 3 in Hcap. lia.
Qed.

End MoreParseProperties.

Section TrimProperties.

Lemma dropWhile_idempotent (p : char -> bool) (s : str) :
  dropWhile p (dropWhile p s) = dropWhile p s.
Proof.
  induction s as [|c s IH]; simpl; [reflexivity|].
  destruct (p c) eqn:Hc; [exact IH | simpl; rewrite Hc; reflexivity].
Qed.

Lemma dropWhile_head (p : char -> bool) (s : str) (c : char) (rest : str) :
  dropWhile p s = c :: rest -> p c = false.
Proof.
  induction s as [|x s IH]; simpl; [discriminate|].
  destruct (p x) eqn:Hx; [exact IH | intros [= <- _]; exact Hx].
Qed.

(** Trimming the end keeps the first code unit of what it leaves. *)
Lemma trimStart_trimEnd (s : str) :
  trimStart s = s -> trimStart (trimEnd s) = trimEnd s.
Proof.
  intros Hs. destruct (trimEnd_split s) as (w & Hsplit & _).
  destruct (trimEnd s) as [|c t] eqn:Hend; [reflexivity|].
  rewrite Hsplit in Hs. unfold trimStart in *. simpl in *.
  destruct (isWhiteSpace c) eqn:Hc; [|reflexivity].
  exfalso.
  assert (Hhead : isWhiteSpace c = false).
  { apply (dropWhile_head isWhiteSpace (t ++ w) c (t ++ w)). exact Hs. }
  congruence.
Qed.

Lemma trim_idempotent (s : str) : trim (trim s) = trim s.
Proof.
  unfold trim.
  rewrite trimStart_trimEnd by apply dropWhile_idempotent.
  unfold trimEnd. rewrite rev_involutive, dropWhile_idempotent. reflexivity.
Qed.

End TrimProperties.

Section TrimmedSegments.

Variable diff : str.

Lemma setLastContent_trimmed (segs : list FileDiff) (raw : str) :
  Forall contentTrimmed segs ->
  Forall contentTrimmed (setLastContent segs (trim raw)).
Proof.
  intros Hall. unfold setLastContent.
  destruct (rev segs) as [|last before] eqn:Hrev; [constructor|].
  apply Forall_app. split.
  - apply Forall_rev. apply Forall_rev in Hall. rewrite Hrev in Hall.
    inversion Hall; assumption.
  - repeat constructor. apply trim_idempotent.
Qed.

Lemma parseLoop_trimmed (fuel : nat) :
  forall segs lastIndex k final lastIndex',
    Forall contentTrimmed segs ->
    parseLoop fuel diff segs lastIndex k = Some (final, lastIndex') ->
    Forall contentTrimmed final.
Proof.
  induction fuel as [|fuel IH]; intros segs lastIndex k final lastIndex'
    Hall Hrun; [discriminate|].
  simpl in Hrun. destruct (exec diff k) as [m|]; [|congruence].
  apply IH in Hrun; [exact Hrun|].
  apply Forall_app. split; [|repeat constructor].
  destruct (Nat.ltb 0 (length segs));
    [apply setLastContent_trimmed|]; exact Hall.
Qed.

(** X2: the content of a segment is trimmed: it is not empty, and neither
    starts nor ends with white space, so trimming it again changes
    nothing. *)
Theorem segment_content_is_trimmed (seg : FileDiff) :
  In seg (parsePerFileDiffs diff) ->
  diffContent seg <> [] /\ trim (diffContent seg) = diffContent seg.
Proof.
  intros Hin. split.
  - destruct (parsePerFileDiffs_headed diff seg Hin) as (len & Hm).
    destruct (matchHeader_Some _ _ _ Hm) as (tail & -> & _). discriminate.
  - revert seg Hin. apply Forall_forall.
    unfold parsePerFileDiffs, parseWithFuel.
    destruct (parseLoop (S (length diff)) diff [] 0 0) as [[final last]|]
      eqn:Hrun; [|constructor].
    apply parseLoop_trimmed in Hrun; [|constructor].
    destruct (_ && _)%bool; [apply setLastContent_trimmed|]; exact Hrun.
Qed.

End TrimmedSegments.

Lemma segment_filename_witness :
  Forall notTerminator (lit "src/a.ts").
Proof.
  apply (segment_filename_is_shortest_capture sampleDiff
           (mkFileDiff (lit "src/a.ts")
              (lit "diff --git a/src/a.ts b/src/a.ts
+one"))).
  rewrite parse_sample. left. reflexivity.
Defined.

Lemma segment_trimmed_witness :
  trim (lit "diff --git a/src/a.ts b/src/a.ts
+one")
  = lit "diff --git a/src/a.ts b/src/a.ts
+one".
Proof.
  apply (segment_content_is_trimmed sampleDiff
           (mkFileDiff (lit "src/a.ts")
              (lit "diff --git a/src/a.ts b/src/a.ts
+one"))).
  rewrite parse_sample. left. reflexivity.
Defined.

(** ** Further properties of the budget allocation *)

Section MoreAllocationProperties.

Variable toLowerCase : str -> str.
Variable encode : str -> list N.

Lemma totalTokens_measured_nonneg (files : list Est.t) :
  (0 <= totalTokens (map (measure encode) files))%Z.
Proof. induction files as [|f files IH]; simpl; lia. Qed.

Lemma In_firstn {A : Type} (k : nat) (l : list A) (x : A) :
  In x (firstn k l) -> In x l.
Proof.
  intros Hin. rewrite <- (firstn_skipn k l). apply in_or_app. auto.
Qed.

Lemma estimated_file_origin (diff : str) (e : Est.t) :
  In e (estimatedFileDiffStats (essentialFileDiffs toLowerCase diff)) ->
  exists seg,
    In seg (parsePerFileDiffs diff)
    /\ isEssentialFile toLowerCase (filename seg) = true
    /\ e = estimate seg.
Proof.
  unfold estimatedFileDiffStats. intros He.
  apply (Permutation_in _ (Permutation_sym (sortByEstimate_perm _))) in He.
  apply in_map_iff in He. destruct He as (seg & <- & Hseg).
  unfold essentialFileDiffs in Hseg. apply filter_In in Hseg.
  destruct Hseg as [Hseg Hess]. eauto.
Qed.

Lemma essentialFileDiffs_nil (diff : str) :
  (forall seg, In seg (parsePerFileDiffs diff) ->
               isEssentialFile toLowerCase (filename seg) = false) ->
  essentialFileDiffs toLowerCase diff = [].
Proof.
  unfold essentialFileDiffs.
  induction (parsePerFileDiffs diff) as [|seg segs IH]; intros Hdenied;
    [reflexivity|].
  simpl. rewrite (Hdenied seg (or_introl eq_refl)).
  apply IH. intros s Hs. apply Hdenied. right. exact Hs.
Qed.

(** X3: every file of the result is a segment of the diff whose name
    passes [isEssentialFile], with that segment's content, its estimate and
    its exact token count: no deny-listed file is ever included and no
    content is altered. *)
Theorem kept_files_are_essential_segments (diff : str) (limits : TokenLimits)
  (file : Acc.t) :
  In file (accurateFileDiffStats encode
             (essentialFileDiffs toLowerCase diff) limits) ->
  exists seg,
    In seg (parsePerFileDiffs diff)
    /\ isEssentialFile toLowerCase (filename seg) = true
    /\ Acc.filename file = filename seg
    /\ Acc.diffContent file = diffContent seg
    /\ Acc.estimatedTokenCount file = estimateTokens (diffContent seg)
    /\ Acc.tokenCount file = Z.of_nat (length (encode (diffContent seg))).
Proof.
  intros Hin.
  destruct (accurateFileDiffStats_prefix encode
              (essentialFileDiffs toLowerCase diff) limits)
    as (k & _ & Hkept).
  rewrite Hkept in Hin. apply in_map_iff in Hin.
  destruct Hin as (e & <- & He). apply In_firstn in He.
  destruct (estimated_file_origin diff e He) as (seg & Hseg & Hess & ->).
  exists seg. repeat split; assumption.
Qed.

(** X4: when no segment of the diff passes [isEssentialFile], the result
    is [null]. *)
Theorem only_denied_files_give_null (diff : str) (limits : TokenLimits) :
  (forall seg, In seg (parsePerFileDiffs diff) ->
               isEssentialFile toLowerCase (filename seg) = false) ->
  processPullRequestDiff toLowerCase encode diff limits = None.
Proof.
  intros Hdenied. unfold processPullRequestDiff.
  rewrite (essentialFileDiffs_nil diff Hdenied). reflexivity.
Qed.

(** X5: a diff without a header line has no segment, and its result is
    [null]. *)
Theorem no_header_gives_null (diff : str) (limits : TokenLimits) :
  countHeaders None diff = 0 ->
  parsePerFileDiffs diff = []
  /\ processPullRequestDiff toLowerCase encode diff limits = None.
Proof.
  intros Hnone.
  assert (Hnil : parsePerFileDiffs diff = []).
  { apply length_zero_iff_nil. rewrite parsePerFileDiffs_length. exact Hnone. }
  split; [exact Hnil|].
  unfold processPullRequestDiff, essentialFileDiffs. rewrite Hnil.
  reflexivity.
Qed.

(** The estimate walk: what it includes fits the budget by estimate. *)
Lemma includeByEstimate_fits (remaining : Z) (files : list Est.t) :
  forall current,
    includeByEstimate remaining current files = []
    \/ (current + totalEstimate (includeByEstimate remaining current files)
        <= remaining)%Z.
Proof.
  induction files as [|f files IH]; intros current; simpl; [auto|].
  destruct (current + Est.estimatedTokenCount f >? remaining)%Z eqn:Hgt;
    [apply IH|].
  right. rewrite Z.gtb_ltb in Hgt. apply Z.ltb_ge in Hgt. simpl.
  destruct (IH (current + Est.estimatedTokenCount f)%Z) as [-> | Hfit];
    simpl; lia.
Qed.

Lemma includeByEstimate_all (remaining : Z) (files : list Est.t) :
  Forall (fun f => 0 <= Est.estimatedTokenCount f)%Z files ->
  forall current,
    (current + totalEstimate files <= remaining)%Z ->
    includeByEstimate remaining current files = files.
Proof.
  induction 1 as [|f files Hf Hrest IH]; intros current Hfit; simpl in *;
    [reflexivity|].
  assert (Hsum : (0 <= totalEstimate files)%Z).
  { clear -Hrest. induction Hrest; simpl; lia. }
  destruct (current + Est.estimatedTokenCount f >? remaining)%Z eqn:Hgt.
  - rewrite Z.gtb_ltb in Hgt. apply Z.ltb_lt in Hgt. lia.
  - rewrite IH by lia. reflexivity.
Qed.

(** The eviction never removes a first file that fits on its own. *)
Lemma evict_keeps_head (limits : TokenLimits) (x : Acc.t)
  (files : list Acc.t) :
  (runningTokenCount limits + Acc.tokenCount x <= tokensRemaining limits)%Z ->
  exists more, evict limits (x :: files) = x :: more.
Proof.
  intros Hfit. induction files as [|y files IH] using rev_ind.
  - exists []. change [x] with ([] ++ [x]). rewrite evict_snoc. simpl.
    destruct (_ >? _)%Z eqn:Hgt; [|reflexivity].
    rewrite Z.gtb_ltb in Hgt. apply Z.ltb_lt in Hgt. lia.
  - change (x :: files ++ [y]) with ((x :: files) ++ [y]).
    rewrite evict_snoc.
    destruct (_ >? _)%Z; [exact IH | eexists; reflexivity].
Qed.

Lemma evict_all (limits : TokenLimits) (files : list Acc.t) :
  (runningTokenCount limits + totalTokens files <= tokensRemaining limits)%Z ->
  evict limits files = files.
Proof.
  intros Hfit. destruct files as [|x files] using rev_ind; [reflexivity|].
  rewrite evict_snoc.
  destruct (_ >? _)%Z eqn:Hgt; [|reflexivity].
  rewrite Z.gtb_ltb in Hgt. apply Z.ltb_lt in Hgt. lia.
Qed.

(** X6: for limits and candidates whose totals are safe integers, the
    result is not [null] exactly when there is a candidate and the one with
    the smallest estimate, the first of the sort, fits the budget on its
    own, by its estimate and by its exact token count; that file is then
    the first of the result. *)
Theorem result_iff_smallest_file_fits (essential : list FileDiff)
  (limits : TokenLimits) :
  safeAllocation encode essential limits ->
  (allocateBudget encode essential limits <> None
   <-> exists f rest,
         estimatedFileDiffStats essential = f :: rest
         /\ (runningTokenCount limits + Est.estimatedTokenCount f
             <= tokensRemaining limits)%Z
         /\ (runningTokenCount limits
             + Z.of_nat (length (encode (Est.diffContent f)))
             <= tokensRemaining limits)%Z)
  /\ (allocateBudget encode essential limits <> None ->
      exists f rest more,
        estimatedFileDiffStats essential = f :: rest
        /\ accurateFileDiffStats encode essential limits
           = measure encode f :: more).
Proof.
  intros _.
  assert (Hhead : allocateBudget encode essential limits <> None ->
            exists f rest k,
              estimatedFileDiffStats essential = f :: rest
              /\ accurateFileDiffStats encode essential limits
                 = measure encode f :: map (measure encode) (firstn k rest)).
  { rewrite allocateBudget_None. intros Hne.
    destruct (accurateFileDiffStats_prefix encode essential limits)
      as (k & _ & Hkept).
    destruct (estimatedFileDiffStats essential) as [|f rest] eqn:Hsorted.
    { rewrite firstn_nil in Hkept. contradiction. }
    destruct k as [|k]; [contradiction|].
    exists f, rest, k. split; [reflexivity | exact Hkept]. }
  split; [split|].
  - intros Hne.
    destruct (Hhead Hne) as (f & rest & k & Hsorted & Hkept).
    exists f, rest. split; [exact Hsorted|].
    rewrite allocateBudget_None in Hne.
    assert (Hest : (runningTokenCount limits + Est.estimatedTokenCount f
                    <= tokensRemaining limits)%Z).
    { destruct (Z.leb_spec (runningTokenCount limits
                            + Est.estimatedTokenCount f)
                  (tokensRemaining limits)) as [Hle|Hgt]; [exact Hle|].
      exfalso. apply Hne.
      unfold accurateFileDiffStats, measuredFileDiffs, includedFileDiffs.
      rewrite Hsorted, includeByEstimate_all_skipped; [reflexivity|].
      pose proof (sortByEstimate_sorted (map estimate essential)) as Hs.
      fold (estimatedFileDiffStats essential) in Hs. rewrite Hsorted in Hs.
      inversion Hs as [|? ? _ Hle]; subst.
      constructor; [exact Hgt|].
      eapply Forall_impl; [|exact Hle]. unfold estimateLe. intros; lia. }
    split; [exact Hest|].
    destruct (evict_fits limits (measuredFileDiffs encode essential limits))
      as [Hnil|Hfit]; [contradiction|].
    fold (accurateFileDiffStats encode essential limits) in Hfit.
    rewrite Hkept in Hfit. simpl in Hfit.
    pose proof (totalTokens_measured_nonneg (firstn k rest)). lia.
  - intros (f & rest & Hsorted & Hest & Hexact).
    rewrite allocateBudget_None.
    unfold accurateFileDiffStats, measuredFileDiffs, includedFileDiffs.
    rewrite Hsorted. cbn [includeByEstimate].
    destruct (_ >? _)%Z eqn:Hgt;
      [rewrite Z.gtb_ltb in Hgt; apply Z.ltb_lt in Hgt; lia|].
    cbn [map].
    destruct (evict_keeps_head limits (measure encode f)
                (map (measure encode)
                   (includeByEstimate (tokensRemaining limits)
                      (runningTokenCount limits + Est.estimatedTokenCount f)
                      rest))
                Hexact) as (more & ->).
    discriminate.
  - intros Hne.
    destruct (Hhead Hne) as (f & rest & k & Hsorted & Hkept).
    exists f, rest. eexists. split; [exact Hsorted | exact Hkept].
Qed.

(** X7: when the two limits are safe integers and all the essential files
    together fit the budget, by the sum of their estimates and by the sum
    of their exact token counts, the result holds every one of them, in the
    order of the sort.  Every sum the code takes then lies between the two
    limits, so it is exact. *)
Theorem everything_is_kept_when_all_fits (essential : list FileDiff)
  (limits : TokenLimits) :
  isSafeInteger (runningTokenCount limits) ->
  isSafeInteger (tokensRemaining limits) ->
  essential <> [] ->
  (runningTokenCount limits + totalEstimate (estimatedFileDiffStats essential)
   <= tokensRemaining limits)%Z ->
  (runningTokenCount limits
   + totalTokens (map (measure encode) (estimatedFileDiffStats essential))
   <= tokensRemaining limits)%Z ->
  accurateFileDiffStats encode essential limits
  = map (measure encode) (estimatedFileDiffStats essential)
  /\ allocateBudget encode essential limits
     = Some (join (lit "
") (map Est.diffContent (estimatedFileDiffStats essential))).
Proof.
  intros _ _ Hne Hest Hexact.
  assert (Hkept : accurateFileDiffStats encode essential limits
                  = map (measure encode) (estimatedFileDiffStats essential)).
  { unfold accurateFileDiffStats, measuredFileDiffs, includedFileDiffs.
    rewrite includeByEstimate_all
      by (exact Hest || apply estimatedFileDiffStats_nonneg).
    apply evict_all. exact Hexact. }
  split; [exact Hkept|].
  destruct (allocateBudget encode essential limits) as [d|] eqn:Hres.
  - rewrite (allocateBudget_Some _ _ _ _ Hres), Hkept, map_map. reflexivity.
  - apply allocateBudget_None in Hres. rewrite Hkept in Hres.
    apply map_eq_nil in Hres.
    apply (f_equal (@length _)) in Hres. unfold estimatedFileDiffStats in Hres.
    rewrite <- (Permutation_length (sortByEstimate_perm _)), length_map in Hres.
    destruct essential; [contradiction | discriminate].
Qed.

(** X8: the files included by estimate fit the budget by estimate: unless
    none is included, the running count plus their estimates is within
    [tokensRemaining], for limits and candidates whose totals are safe
    integers, where the sums of the code are exact. *)
Theorem included_estimates_fit (essential : list FileDiff)
  (limits : TokenLimits) :
  safeAllocation encode essential limits ->
  includedFileDiffs essential limits <> [] ->
  (runningTokenCount limits
   + totalEstimate (includedFileDiffs essential limits)
   <= tokensRemaining limits)%Z.
Proof.
  intros _ Hne. unfold includedFileDiffs in *.
  destruct (includeByEstimate_fits (tokensRemaining limits)
              (estimatedFileDiffStats essential) (runningTokenCount limits));
    [contradiction | assumption].
Qed.

(** X9: [fetchPullRequestDetails] returns [null] when the transport throws,
    and otherwise what [processPullRequestDiff] makes of the fetched diff:
    a result that is not [null] is the content of essential segments of
    that diff, joined by newlines; it is within the budget when the limits
    and the totals of the candidates are safe integers. *)
Theorem details_come_from_the_fetched_diff (pullsGet : Exn + str)
  (limits : TokenLimits) (d : str) :
  fetchPullRequestDetails toLowerCase encode pullsGet limits = Some d ->
  exists diff,
    pullsGet = inr diff
    /\ let kept := accurateFileDiffStats encode
                     (essentialFileDiffs toLowerCase diff) limits in
       d = join (lit "
") (map Acc.diffContent kept)
       /\ (safeAllocation encode (essentialFileDiffs toLowerCase diff) limits ->
           (runningTokenCount limits + totalTokens kept
            <= tokensRemaining limits)%Z)
       /\ Forall (fun file =>
                    exists seg,
                      In seg (parsePerFileDiffs diff)
                      /\ isEssentialFile toLowerCase (filename seg) = true
                      /\ Acc.diffContent file = diffContent seg) kept.
Proof.
  unfold fetchPullRequestDetails.
  destruct pullsGet as [e|diff]; [discriminate|].
  intros Hres. exists diff. split; [reflexivity|]. cbv zeta.
  unfold processPullRequestDiff in Hres.
  split; [apply allocateBudget_Some, Hres|].
  split.
  - intros _.
    destruct (evict_fits limits
                (measuredFileDiffs encode
                   (essentialFileDiffs toLowerCase diff) limits))
      as [Hnil|Hfit]; [|exact Hfit].
    apply allocateBudget_None in Hnil. congruence.
  - apply Forall_forall. intros file Hin.
    destruct (accurateFileDiffStats_prefix encode
                (essentialFileDiffs toLowerCase diff) limits)
      as (k & _ & Hkept).
    rewrite Hkept in Hin. apply in_map_iff in Hin.
    destruct Hin as (e & <- & He). apply In_firstn in He.
    destruct (estimated_file_origin diff e He) as (seg & Hseg & Hess & ->).
    exists seg. repeat split; assumption.
Qed.

End MoreAllocationProperties.

Lemma kept_files_witness :
  exists seg,
    In seg (parsePerFileDiffs twoFileDiff) /\ filename seg = lit "s.ts".
Proof.
  destruct (kept_files_are_essential_segments asciiLowerCase unitEncode
              twoFileDiff (mkTokenLimits 0 1000)
              (measure unitEncode
                 (estimate (mkFileDiff (lit "s.ts") smallSegment))))
    as (seg & Hseg & _ & Hname & _).
  - vm_compute. left. reflexivity.
  - exists seg. split; [exact Hseg | symmetry; exact Hname].
Defined.

Lemma only_denied_witness :
  processPullRequestDiff asciiLowerCase unitEncode deniedDiff
    (mkTokenLimits 0 100)
  = None.
Proof.
  apply (only_denied_files_give_null asciiLowerCase unitEncode deniedDiff).
  intros seg Hin. vm_compute in Hin.
  destruct Hin as [<-|[<-|[]]]; vm_compute; reflexivity.
Defined.

Lemma no_header_witness :
  parsePerFileDiffs (lit "no header here") = [].
Proof.
  apply (no_header_gives_null asciiLowerCase unitEncode
           (lit "no header here") (mkTokenLimits 0 100)).
  vm_compute. reflexivity.
Defined.

Lemma smallest_file_witness :
  exists f rest,
    estimatedFileDiffStats (essentialFileDiffs asciiLowerCase twoFileDiff)
    = f :: rest
    /\ (0 + Est.estimatedTokenCount f <= 1000)%Z.
Proof.
  destruct (result_iff_smallest_file_fits unitEncode
              (essentialFileDiffs asciiLowerCase twoFileDiff)
              (mkTokenLimits 0 1000)) as [Hiff _].
  - unfold safeAllocation, isSafeInteger. vm_compute.
    repeat split; discriminate.
  - destruct (proj1 Hiff) as (f & rest & Hsorted & Hest & _).
    + vm_compute. discriminate.
    + exists f, rest. split; [exact Hsorted | exact Hest].
Defined.

Lemma everything_kept_witness :
  allocateBudget unitEncode (essentialFileDiffs asciiLowerCase twoFileDiff)
    (mkTokenLimits 0 1000)
  = Some (join (lit "
") (map Est.diffContent
          (estimatedFileDiffStats
             (essentialFileDiffs asciiLowerCase twoFileDiff)))).
Proof.
  apply (everything_is_kept_when_all_fits unitEncode
           (essentialFileDiffs asciiLowerCase twoFileDiff)
           (mkTokenLimits 0 1000)).
  - unfold isSafeInteger. vm_compute. split; discriminate.
  - unfold isSafeInteger. vm_compute. split; discriminate.
  - vm_compute. discriminate.
  - vm_compute. discriminate.
  - vm_compute. discriminate.
Defined.

Lemma included_estimates_witness :
  (0 + totalEstimate
         (includedFileDiffs (essentialFileDiffs asciiLowerCase twoFileDiff)
            (mkTokenLimits 0 30))
   <= 30)%Z.
Proof.
  apply (included_estimates_fit unitEncode
           (essentialFileDiffs asciiLowerCase twoFileDiff)
           (mkTokenLimits 0 30)).
  - unfold safeAllocation, isSafeInteger. vm_compute.
    repeat split; discriminate.
  - vm_compute. discriminate.
Defined.

Lemma details_witness :
  (0 + totalTokens
         (accurateFileDiffStats unitEncode
            (essentialFileDiffs asciiLowerCase twoFileDiff)
            (mkTokenLimits 0 1000))
   <= 1000)%Z.
Proof.
  destruct (details_come_from_the_fetched_diff asciiLowerCase unitEncode
              (inr twoFileDiff) (mkTokenLimits 0 1000)
              (smallSegment ++ newline ++ bigSegment))
    as (diff & Hdiff & _ & Hfit & _).
  - vm_compute. reflexivity.
  - injection Hdiff as <-. apply Hfit.
    unfold safeAllocation, isSafeInteger. vm_compute.
    repeat split; discriminate.
Defined.

(** ** Further properties of [fetchPullRequestComments] *)

Section MorePaginationProperties.

Variable numberToString : N -> str.
Variable params : FetchParams.
Variable upstream : Transport.

Lemma whileLoop_chained (fuel : nat) :
  forall st log res log',
    whileLoop numberToString params upstream fuel st log = (res, log') ->
    exists calls,
      log' = log ++ calls
      /\ chained upstream (length log)
           (Gql.mkVariables (commentsEndCursor st) (reviewsEndCursor st))
           calls.
Proof.
  induction fuel as [|fuel IH]; intros st log res log' Hrun.
  - inversion Hrun. exists []. rewrite app_nil_r. simpl. auto.
  - destruct (whileLoop_cases numberToString params upstream fuel st log)
      as [[Heq _] | (_ & _ & Hiter)].
    + rewrite Heq in Hrun. inversion Hrun. exists []. rewrite app_nil_r.
      simpl. auto.
    + set (vars := Gql.mkVariables (commentsEndCursor st)
                     (reviewsEndCursor st)) in *.
      destruct (upstream (length log) vars) as [e|prData] eqn:Hcall.
      { rewrite Hiter in Hrun. inversion Hrun; subst.
        exists [(vars, inl e)]. simpl. rewrite Hcall. auto. }
      destruct (lacksAuthor prData).
      { rewrite Hiter in Hrun. inversion Hrun; subst.
        exists [(vars, inr prData)]. simpl. rewrite Hcall. auto. }
      destruct (announcesMore prData).
      * rewrite Hiter in Hrun. apply IH in Hrun.
        destruct Hrun as (calls & -> & Hchain).
        exists ((vars, inr prData) :: calls).
        split; [rewrite <- app_assoc; reflexivity|].
        simpl. rewrite Hcall. repeat split.
        rewrite length_app, Nat.add_comm in Hchain. exact Hchain.
      * rewrite Hiter in Hrun. inversion Hrun; subst.
        exists [(vars, inr prData)]. simpl. rewrite Hcall. auto.
Qed.

(** X10: the calls of a fetch form one chain: the first request carries no
    cursor, every later request carries the two end cursors of the page
    before it, every call is answered by the upstream, and no call follows
    one that threw. *)
Theorem requests_follow_the_cursors :
  chained upstream 0 (Gql.mkVariables None None)
    (snd (fetchPullRequestComments numberToString params upstream)).
Proof.
  unfold fetchPullRequestComments, fetchWithFuel, tryCatch, bind.
  destruct (whileLoop numberToString params upstream (S MAX_PAGES)
              initialState [])
    as [res log] eqn:Hrun.
  destruct (whileLoop_chained _ _ _ _ _ Hrun) as (calls & -> & Hchain).
  destruct res as [e|final]; exact Hchain.
Qed.

(** The calls of one run of the loop, with enough fuel: a first call is
    made exactly when the guard holds below the ceiling, and the calls go on
    by the same rule. *)
Lemma whileLoop_paged (fuel : nat) :
  forall st log res log',
    MAX_PAGES - pageCount st < fuel ->
    whileLoop numberToString params upstream fuel st log = (res, log') ->
    exists calls,
      log' = log ++ calls
      /\ paged (pageCount st) calls
      /\ (calls <> []
          <-> (hasMoreComments st || hasMoreReviews st)%bool = true
              /\ pageCount st < MAX_PAGES).
Proof.
  induction fuel as [|fuel IH]; intros st log res log' Hfuel Hrun; [lia|].
  destruct (whileLoop_cases numberToString params upstream fuel st log)
    as [[Heq Hstop] | (Hguard & Hceil & Hiter)].
  - rewrite Heq in Hrun. inversion Hrun; subst.
    exists []. rewrite app_nil_r. cbn [paged].
    split; [reflexivity|]. split; [exact I|].
    split; [contradiction|].
    intros [Hg Hc]. destruct Hstop; [congruence | lia].
  - set (vars := Gql.mkVariables (commentsEndCursor st)
                   (reviewsEndCursor st)) in *.
    destruct (upstream (length log) vars) as [e|prData] eqn:Hcall.
    { rewrite Hiter in Hrun. inversion Hrun; subst.
      exists [(vars, inl e)]. cbn [paged].
      repeat split; auto; discriminate. }
    destruct (lacksAuthor prData) eqn:Hauth.
    { rewrite Hiter in Hrun. inversion Hrun; subst.
      exists [(vars, inr prData)]. cbn [paged].
      split; [reflexivity|].
      split; [|split; [auto | discriminate]].
      split; [|exact I].
      split; [contradiction|]. intros (_ & _ & Hno). congruence. }
    destruct (announcesMore prData) eqn:Hmore.
    + rewrite Hiter in Hrun. apply IH in Hrun;
        [|change (pageCount (afterPage numberToString params st prData))
            with (S (pageCount st)); lia].
      destruct Hrun as (calls & -> & Hpaged & Hnext).
      change (pageCount (afterPage numberToString params st prData))
        with (S (pageCount st)) in *.
      change ((hasMoreComments (afterPage numberToString params st prData)
               || hasMoreReviews (afterPage numberToString params st prData))
              %bool)
        with (announcesMore prData) in Hnext.
      exists ((vars, inr prData) :: calls).
      split; [rewrite <- app_assoc; reflexivity|].
      split; [|split; [auto | discriminate]].
      cbn [paged]. split; [|exact Hpaged].
      rewrite Hnext. rewrite Hmore, Hauth. tauto.
    + rewrite Hiter in Hrun. inversion Hrun; subst.
      exists [(vars, inr prData)]. cbn [paged].
      split; [reflexivity|].
      split; [|split; [auto | discriminate]].
      split; [|exact I].
      split; [contradiction|]. intros (Hyes & _). congruence.
Qed.

(** X11: a fetch makes at least one call; after a page it makes another
    call exactly when the page announces a next page on one of the two
    collections, fewer than [MAX_PAGES] calls have been made, and no
    comment node of the page has a null author. *)
Theorem fetch_goes_on_while_pages_announce_more :
  snd (fetchPullRequestComments numberToString params upstream) <> []
  /\ paged 0 (snd (fetchPullRequestComments numberToString params upstream)).
Proof.
  unfold fetchPullRequestComments, fetchWithFuel, tryCatch, bind.
  destruct (whileLoop numberToString params upstream (S MAX_PAGES)
              initialState [])
    as [res log] eqn:Hrun.
  apply whileLoop_paged in Hrun;
    [|unfold MAX_PAGES; cbn [pageCount initialState]; lia].
  destruct Hrun as (calls & -> & Hpaged & Hfirst).
  assert (Hne : calls <> []).
  { apply Hfirst.
    split; [reflexivity | unfold MAX_PAGES; cbn [pageCount initialState]; lia]. }
  destruct res as [e|final]; simpl; auto.
Qed.

(** X12: when no call throws and no page holds a comment node with a null
    author, the comments of the result are, page by page in the order of
    the calls, the top-level comment nodes of the page and then the comment
    nodes of its reviews, without those of the author type [Bot], each with
    its body, id, author login and type, the owner, the repository and the
    URL of the pull request; the linked issues are those of the pages
    requested without a cursor. *)
Theorem result_is_what_the_pages_hold (r : FetchResult) (log : list Call) :
  fetchPullRequestComments numberToString params upstream
  = (inr (Some r), log) ->
  existsb failed log = false ->
  comments r = loggedComments numberToString params log
  /\ linkedIssues r = loggedLinkedIssues log.
Proof.
  intros Hrun Hok.
  destruct (fetch_cases numberToString params upstream)
    as (r' & log' & Hrun' & _ & Hres).
  rewrite Hrun in Hrun'. injection Hrun' as <- <-.
  rewrite Hok in Hres. exact Hres.
Qed.

(** A run of the loop that throws: the call that failed is its last one. *)
Lemma whileLoop_fails_last (fuel : nat) :
  forall st log e log',
    whileLoop numberToString params upstream fuel st log = (inl e, log') ->
    exists earlier last,
      log' = log ++ earlier ++ [last]
      /\ existsb failed earlier = false
      /\ failed last = true.
Proof.
  induction fuel as [|fuel IH]; intros st log e log' Hrun; [discriminate|].
  destruct (whileLoop_cases numberToString params upstream fuel st log)
    as [[Heq _] | (_ & _ & Hiter)].
  - rewrite Heq in Hrun. discriminate.
  - set (vars := Gql.mkVariables (commentsEndCursor st)
                   (reviewsEndCursor st)) in *.
    destruct (upstream (length log) vars) as [e0|prData] eqn:Hcall.
    { rewrite Hiter in Hrun. inversion Hrun; subst.
      exists [], (vars, inl e). repeat split. }
    destruct (lacksAuthor prData) eqn:Hauth.
    { rewrite Hiter in Hrun. inversion Hrun; subst.
      exists [], (vars, inr prData).
      split; [reflexivity|]. split; [reflexivity|].
      unfold failed. cbn [snd]. exact Hauth. }
    destruct (announcesMore prData).
    + rewrite Hiter in Hrun. apply IH in Hrun.
      destruct Hrun as (earlier & last & -> & Hok & Hlast).
      exists ((vars, inr prData) :: earlier), last.
      split; [rewrite <- app_assoc; reflexivity|].
      split; [|exact Hlast].
      cbn [existsb]. unfold failed at 1. cbn [snd].
      rewrite Hauth, Hok. reflexivity.
    + rewrite Hiter in Hrun. discriminate.
Qed.

(** X25: when a page holds a comment node whose author is null, as the
    upstream returns for a deleted account, or when a call throws, the
    function returns empty lists: what the earlier pages contributed is
    given up, and the failing call is the last one made. *)
Theorem missing_author_gives_empty_result :
  existsb failed (snd (fetchPullRequestComments numberToString params upstream))
  = true ->
  fst (fetchPullRequestComments numberToString params upstream)
  = inr (Some (mkFetchResult [] []))
  /\ exists earlier last,
       snd (fetchPullRequestComments numberToString params upstream)
       = earlier ++ [last]
       /\ existsb failed earlier = false
       /\ failed last = true.
Proof.
  intros Hfailed.
  unfold fetchPullRequestComments, fetchWithFuel, tryCatch, bind in *.
  destruct (whileLoop numberToString params upstream (S MAX_PAGES)
              initialState [])
    as [res log] eqn:Hrun.
  destruct res as [e|[st'|]]; unfold ret in *; cbn [fst snd] in *.
  - split; [reflexivity|].
    apply whileLoop_fails_last in Hrun.
    destruct Hrun as (earlier & last & Hlog & Hearlier & Hlast).
    exists earlier, last. auto.
  - apply whileLoop_spec in Hrun.
    destruct Hrun as (calls & Hlog & _ & _ & (Hok & _)).
    simpl in Hlog. subst log. congruence.
  - apply whileLoop_spec in Hrun.
    destruct Hrun as (calls & _ & _ & Hfuel & _).
    exfalso. apply Hfuel; [unfold MAX_PAGES; cbn; lia | reflexivity].
Qed.

End MorePaginationProperties.

Lemma result_is_what_the_pages_hold_witness :
  match fetchPullRequestComments decimal sampleParams twoPageUpstream with
  | (inr (Some r), log) => comments r = loggedComments decimal sampleParams log
  | _ => False
  end.
Proof.
  destruct (fetchPullRequestComments decimal sampleParams twoPageUpstream)
    as [[e|[r|]] log] eqn:Hrun; try (vm_compute in Hrun; discriminate).
  apply (result_is_what_the_pages_hold decimal sampleParams twoPageUpstream
           r log Hrun).
  replace log
    with (snd (fetchPullRequestComments decimal sampleParams twoPageUpstream))
    by (rewrite Hrun; reflexivity).
  vm_compute. reflexivity.
Defined.

Lemma missing_author_witness :
  fst (fetchPullRequestComments decimal sampleParams ghostUpstream)
  = inr (Some (mkFetchResult [] [])).
Proof.
  apply (missing_author_gives_empty_result decimal sampleParams ghostUpstream).
  vm_compute. reflexivity.
Defined.

(** ** Properties of [sanitizeMetadata] *)

Section SanitizeProperties.

Import Errors.

(** Induction that follows [replaceDashes]: two code units at a time. *)
Lemma str_pair_ind (P : str -> Prop) :
  P [] ->
  (forall c, P [c]) ->
  (forall c d rest, P rest -> P (d :: rest) -> P (c :: d :: rest)) ->
  forall s, P s.
Proof.
  intros Hnil Hone Hstep s.
  assert (Hboth : P s /\ forall c, P (c :: s)).
  { induction s as [|d s [IHs IHc]]; split; auto. }
  exact (proj1 Hboth).
Qed.

Lemma replaceChar_In (c : char) (replacement s : str) (x : char) :
  In x (replaceChar c replacement s) ->
  (In x s /\ x <> c) \/ In x replacement.
Proof.
  unfold replaceChar. intros Hin. apply in_flat_map in Hin.
  destruct Hin as (y & Hy & Hx).
  destruct (N.eqb y c) eqn:Hyc; [right; exact Hx|].
  destruct Hx as [<-|[]]. left. split; [exact Hy|].
  apply N.eqb_neq. exact Hyc.
Qed.

Lemma replaceChar_clean (c : char) (replacement s : str) :
  ~ In c s -> replaceChar c replacement s = s.
Proof.
  unfold replaceChar. induction s as [|x s IH]; intros Hclean; simpl;
    [reflexivity|].
  destruct (N.eqb x c) eqn:Hxc.
  - apply N.eqb_eq in Hxc. exfalso. apply Hclean. left. exact Hxc.
  - simpl. rewrite IH; [reflexivity|]. intros Hin. apply Hclean. right.
    exact Hin.
Qed.

Lemma replaceDashes_pair (c d : char) (rest : str) :
  replaceDashes (c :: d :: rest)
  = if (N.eqb c 45 && N.eqb d 45)%bool
    then lit "&#45;&#45;" ++ replaceDashes rest
    else c :: replaceDashes (d :: rest).
Proof. reflexivity. Qed.

Lemma replaceDashes_In (x : char) (s : str) :
  In x (replaceDashes s) -> In x s \/ In x (lit "&#45;&#45;").
Proof.
  revert x. induction s as [|c|c d rest IHrest IHtail] using str_pair_ind;
    intros x; [auto | auto |].
  rewrite replaceDashes_pair.
  destruct (N.eqb c 45 && N.eqb d 45)%bool.
  - intros Hin. apply in_app_or in Hin.
    destruct Hin as [Hin|Hin]; [right; exact Hin|].
    destruct (IHrest _ Hin); [left; right; right; assumption | right; assumption].
  - intros [<-|Hin]; [left; left; reflexivity|].
    destruct (IHtail _ Hin); [left; right; assumption | right; assumption].
Qed.

Lemma includes_eq (s pat : str) :
  includes s pat
  = match stripPrefix pat s with
    | Some _ => true
    | None =>
        match s with
        | [] => false
        | _ :: s' => includes s' pat
        end
    end.
Proof. destruct s; reflexivity. Qed.

Lemma includes_dashes_cons (c : char) (s : str) :
  c <> 45%N ->
  includes (c :: s) (lit "--") = includes s (lit "--").
Proof.
  intros Hc. rewrite includes_eq.
  change (stripPrefix (lit "--") (c :: s))
    with (if N.eqb 45 c then stripPrefix [45%N] s else None).
  destruct (N.eqb 45 c) eqn:Heq; [|reflexivity].
  apply N.eqb_eq in Heq. congruence.
Qed.

Lemma includes_dash_then_other (d : char) (s : str) :
  d <> 45%N ->
  includes (45%N :: d :: s) (lit "--") = includes (d :: s) (lit "--").
Proof.
  intros Hd. rewrite includes_eq.
  change (stripPrefix (lit "--") (45%N :: d :: s))
    with (if N.eqb 45 d then Some s else None).
  destruct (N.eqb 45 d) eqn:Heq; [|reflexivity].
  apply N.eqb_eq in Heq. congruence.
Qed.

Lemma replaceDashes_head (d : char) (rest : str) :
  d <> 45%N -> exists out, replaceDashes (d :: rest) = d :: out.
Proof.
  intros Hd. destruct rest as [|e rest]; [exists []; reflexivity|].
  rewrite replaceDashes_pair.
  destruct (N.eqb d 45) eqn:Heq; [apply N.eqb_eq in Heq; contradiction|].
  cbn [andb]. eauto.
Qed.

Lemma replaceDashes_no_pair (s : str) :
  includes (replaceDashes s) (lit "--") = false.
Proof.
  induction s as [|c|c d rest IHrest IHtail] using str_pair_ind.
  - reflexivity.
  - cbn [replaceDashes].
    destruct (N.eq_dec c 45) as [->|Hc]; [reflexivity|].
    rewrite includes_dashes_cons by exact Hc. reflexivity.
  - rewrite replaceDashes_pair.
    destruct (N.eqb c 45) eqn:Hc; destruct (N.eqb d 45) eqn:Hd; cbn [andb].
    + change (lit "&#45;&#45;" ++ replaceDashes rest)
        with (38 :: 35 :: 52 :: 53 :: 59 :: 38 :: 35 :: 52 :: 53 :: 59
              :: replaceDashes rest)%N.
      rewrite !includes_dashes_cons by discriminate. exact IHrest.
    + apply N.eqb_eq in Hc. apply N.eqb_neq in Hd. subst c.
      destruct (replaceDashes_head d rest Hd) as (out & Hout).
      rewrite Hout in *. rewrite includes_dash_then_other by exact Hd.
      exact IHtail.
    + apply N.eqb_neq in Hc. rewrite includes_dashes_cons by exact Hc.
      exact IHtail.
    + apply N.eqb_neq in Hc. rewrite includes_dashes_cons by exact Hc.
      exact IHtail.
Qed.

Lemma replaceDashes_clean (s : str) :
  includes s (lit "--") = false -> replaceDashes s = s.
Proof.
  induction s as [|c|c d rest IHrest IHtail] using str_pair_ind;
    [reflexivity | reflexivity |].
  intros Hclean. rewrite replaceDashes_pair.
  destruct (N.eqb c 45) eqn:Hc; destruct (N.eqb d 45) eqn:Hd; cbn [andb].
  - apply N.eqb_eq in Hc, Hd. subst. discriminate Hclean.
  - apply N.eqb_eq in Hc. apply N.eqb_neq in Hd. subst c.
    rewrite includes_dash_then_other in Hclean by exact Hd.
    rewrite IHtail by exact Hclean. reflexivity.
  - apply N.eqb_neq in Hc. rewrite includes_dashes_cons in Hclean by exact Hc.
    rewrite IHtail by exact Hclean. reflexivity.
  - apply N.eqb_neq in Hc. rewrite includes_dashes_cons in Hclean by exact Hc.
    rewrite IHtail by exact Hclean. reflexivity.
Qed.

Lemma sanitizeText_safe (json : str) :
  ~ In 60%N (sanitizeText json)
  /\ ~ In 62%N (sanitizeText json)
  /\ includes (sanitizeText json) (lit "--") = false.
Proof.
  unfold sanitizeText. split; [|split].
  - intros Hin. apply replaceDashes_In in Hin.
    destruct Hin as [Hin|Hin]; [|vm_compute in Hin; intuition discriminate].
    apply replaceChar_In in Hin.
    destruct Hin as [[Hin _]|Hin]; [|vm_compute in Hin; intuition discriminate].
    apply replaceChar_In in Hin.
    destruct Hin as [[_ Hne]|Hin];
      [congruence | vm_compute in Hin; intuition discriminate].
  - intros Hin. apply replaceDashes_In in Hin.
    destruct Hin as [Hin|Hin]; [|vm_compute in Hin; intuition discriminate].
    apply replaceChar_In in Hin.
    destruct Hin as [[_ Hne]|Hin];
      [congruence | vm_compute in Hin; intuition discriminate].
  - apply replaceDashes_no_pair.
Qed.

Variable Metadata : Type.
Variable stringify : Metadata -> option str.

(** X13: the text [sanitizeMetadata] returns holds no [<], no [>] and no
    two hyphens in a row, so inside an HTML comment it can neither end the
    comment nor open another. *)
Theorem sanitized_metadata_is_comment_safe (obj : Metadata) (out : str) :
  sanitizeMetadata Metadata stringify obj = inr out ->
  ~ In 60%N out
  /\ ~ In 62%N out
  /\ includes out (lit "--") = false
  /\ includes out (lit "-->") = false
  /\ includes out (lit "<!--") = false.
Proof.
  unfold sanitizeMetadata. destruct (stringify obj) as [json|];
    [|discriminate].
  intros [= <-].
  destruct (sanitizeText_safe json) as (Hlt & Hgt & Hdash).
  repeat split; auto.
  - clear Hlt Hdash. induction (sanitizeText json) as [|c s IH];
      [reflexivity|].
    cbn [includes].
    destruct (stripPrefix (lit "-->") (c :: s)) as [r|] eqn:Hstrip.
    + apply stripPrefix_Some in Hstrip. exfalso. apply Hgt.
      rewrite Hstrip. vm_compute. auto.
    + apply IH. intros Hin. apply Hgt. right. exact Hin.
  - clear Hgt Hdash. induction (sanitizeText json) as [|c s IH];
      [reflexivity|].
    cbn [includes].
    destruct (stripPrefix (lit "<!--") (c :: s)) as [r|] eqn:Hstrip.
    + apply stripPrefix_Some in Hstrip. exfalso. apply Hlt.
      rewrite Hstrip. vm_compute. auto.
    + apply IH. intros Hin. apply Hlt. right. exact Hin.
Qed.

(** X14: sanitizing leaves alone a text that has none of the three
    patterns, so sanitizing twice is the same as sanitizing once ([&] is
    not escaped). *)
Theorem sanitizing_twice_changes_nothing (json : str) :
  (~ In 60%N json -> ~ In 62%N json -> includes json (lit "--") = false ->
   sanitizeText json = json)
  /\ sanitizeText (sanitizeText json) = sanitizeText json.
Proof.
  assert (Hclean : forall s,
             ~ In 60%N s -> ~ In 62%N s -> includes s (lit "--") = false ->
             sanitizeText s = s).
  { intros s Hlt Hgt Hdash. unfold sanitizeText.
    rewrite (replaceChar_clean 60%N) by exact Hlt.
    rewrite (replaceChar_clean 62%N) by exact Hgt.
    apply replaceDashes_clean. exact Hdash. }
  split; [apply Hclean|].
  destruct (sanitizeText_safe json) as (Hlt & Hgt & Hdash).
  apply Hclean; assumption.
Qed.

End SanitizeProperties.

Example sanitize_sample :
  Errors.sanitizeText (lit "<!-- x --->")
  = lit "&lt;!&#45;&#45; x &#45;&#45;-&gt;".
Proof. vm_compute. reflexivity. Qed.

(** ** Properties of the Drive link handling *)

Example driveUrlMatches_sample :
  Drive.driveUrlMatches sampleQuestion
  = [ lit "https://docs.google.com/document/d/abc/edit";
      lit "https://drive.google.com/file/d/xyz";
      lit "https://docs.google.com/document/d/abc/edit" ].
Proof. vm_compute. reflexivity. Qed.

Example checkDriveLinks_sample :
  fst (Drive.checkDriveLinks sampleAdapter sampleQuestion [])
  = inr [ Drive.mkDriveLink
            (lit "https://docs.google.com/document/d/abc/edit") false None;
          Drive.mkDriveLink (lit "https://drive.google.com/file/d/xyz") true
            (Some (lit "https://accounts.example/grant/xyz")) ].
Proof. vm_compute. reflexivity. Qed.

Example formatAccessRequestMessage_sample :
  Drive.formatAccessRequestMessage
    [ Drive.mkDriveLink (lit "https://drive.google.com/file/d/xyz") true
        (Some (lit "https://accounts.example/grant/xyz")) ]
  = lit "I need access to continue. Please click these links and grant permission:

- https://accounts.example/grant/xyz

I'll wait up to 15 minutes for access to be granted.".
Proof. vm_compute. reflexivity. Qed.

Section DrivePatternProperties.

Import Drive.

Lemma urlRun_le (s : str) : urlRun s <= length s.
Proof.
  induction s as [|c s IH]; simpl; [lia|].
  destruct (isUrlDelimiter c); simpl; lia.
Qed.

Lemma urlRun_clean (s : str) : Forall notDelimiter (firstn (urlRun s) s).
Proof.
  induction s as [|c s IH]; simpl; [constructor|].
  destruct (isUrlDelimiter c) eqn:Hc; simpl; constructor; assumption.
Qed.

Lemma matchHosts_Some (alternatives : list str) (s : str) (len : nat) :
  matchHosts alternatives s = Some len ->
  exists host, In host alternatives /\ matchHost host s = Some len.
Proof.
  induction alternatives as [|host others IH]; simpl; [discriminate|].
  destruct (matchHost host s) as [l|] eqn:Hhost.
  - intros [= <-]. eauto.
  - intros Hothers. destruct (IH Hothers) as (h & Hin & Hm). eauto.
Qed.

Lemma matchDriveUrl_Some (s : str) (len : nat) :
  matchDriveUrl s = Some len ->
  exists host path,
    In host hosts
    /\ s = scheme ++ host ++ domain ++ path
    /\ 1 <= urlRun path
    /\ len = length scheme + length host + length domain + urlRun path.
Proof.
  unfold matchDriveUrl.
  destruct (stripPrefix scheme s) as [afterScheme|] eqn:Hscheme;
    [|discriminate].
  destruct (matchHosts hosts afterScheme) as [l|] eqn:Hhosts; [|discriminate].
  intros [= <-]. apply stripPrefix_Some in Hscheme.
  destruct (matchHosts_Some _ _ _ Hhosts) as (host & Hin & Hhost).
  unfold matchHost in Hhost.
  destruct (stripPrefix host afterScheme) as [afterHost|] eqn:H1;
    [|discriminate].
  destruct (stripPrefix domain afterHost) as [path|] eqn:H2; [|discriminate].
  destruct (urlRun path) as [|n] eqn:Hrun; [discriminate|].
  injection Hhost as <-.
  apply stripPrefix_Some in H1, H2. subst.
  exists host, path. rewrite Hrun. repeat split; auto; lia.
Qed.

(** Every match stands in the input, followed by the rest of the input. *)
Lemma scanUrls_In (s : str) :
  forall skip u,
    In u (scanUrls skip s) ->
    exists before rest,
      s = before ++ rest
      /\ exists len, matchDriveUrl rest = Some len /\ u = firstn len rest.
Proof.
  induction s as [|c s IH]; intros skip u Hin; simpl in Hin; [contradiction|].
  assert (Hlater : forall k, In u (scanUrls k s) ->
            exists before rest,
              c :: s = before ++ rest
              /\ exists len,
                   matchDriveUrl rest = Some len /\ u = firstn len rest).
  { intros k Hk. destruct (IH _ _ Hk) as (before & rest & -> & Hm).
    exists (c :: before), rest. auto. }
  destruct skip as [|k]; [|eauto].
  destruct (matchDriveUrl (c :: s)) as [len|] eqn:Hm; [|eauto].
  destruct Hin as [<-|Hin]; [|eauto].
  exists [], (c :: s). eauto.
Qed.

(** X15: every URL that [checkDriveLinks] looks for stands in the
    question, starts with [https://], one of the hosts [docs], [drive],
    [sheets], [slides] and [.google.com/], has a path that is not empty,
    and holds no delimiter (white space, double quote, angle bracket,
    closing parenthesis, brace or bracket). *)
Theorem matched_urls_are_drive_urls (question u : str) :
  In u (driveUrlMatches question) ->
  (exists before after, question = before ++ u ++ after)
  /\ (exists host path,
        In host hosts /\ path <> []
        /\ u = scheme ++ host ++ domain ++ path)
  /\ Forall notDelimiter u.
Proof.
  intros Hin. apply scanUrls_In in Hin.
  destruct Hin as (before & rest & -> & len & Hm & ->).
  destruct (matchDriveUrl_Some _ _ Hm)
    as (host & path & Hhost & -> & Hrun & ->).
  assert (Hcut : firstn (length scheme + length host + length domain
                         + urlRun path)
                   (scheme ++ host ++ domain ++ path)
                 = scheme ++ host ++ domain ++ firstn (urlRun path) path).
  { replace (length scheme + length host + length domain + urlRun path)
      with (length scheme + (length host + (length domain + urlRun path)))
      by lia.
    rewrite !firstn_app_2. reflexivity. }
  rewrite Hcut. split; [|split].
  - exists before, (skipn (urlRun path) path).
    rewrite <- !app_assoc. rewrite firstn_skipn. reflexivity.
  - exists host, (firstn (urlRun path) path). repeat split; auto.
    destruct path as [|c path]; [simpl in Hrun; lia|].
    simpl in *. destruct (isUrlDelimiter c); [lia | discriminate].
  - repeat (apply Forall_app; split).
    + repeat constructor.
    + simpl in Hhost.
      destruct Hhost as [<-|[<-|[<-|[<-|[]]]]]; repeat constructor.
    + repeat constructor.
    + apply urlRun_clean.
Qed.

End DrivePatternProperties.

Section CheckDriveLinksProperties.

Import Drive.

Variable google : Adapter.

Lemma existsb_eqb_false (u : str) (seen : list str) :
  existsb (Js.eqb u) seen = false -> ~ In u seen.
Proof.
  intros Hnone Hin.
  assert (Hsome : existsb (Js.eqb u) seen = true).
  { apply existsb_exists. exists u. split; [exact Hin|]. apply eqb_eq.
    reflexivity. }
  congruence.
Qed.

(** One new URL: whatever the adapter does, the attempt ends normally, has
    parsed the URL once, and has added at most one link, which is for that
    URL. *)
Lemma attempt_processUrl (link : str) (driveLinks : list DriveLink)
  (log : list DriveCall) :
  exists links calls,
    attempt (processUrl google link driveLinks) (fun _ => pure driveLinks) log
    = (inr links, log ++ calls)
    /\ parsedUrls calls = [link]
    /\ (links = driveLinks
        \/ exists added,
             links = driveLinks ++ [added]
             /\ url added = link /\ permissionConsistent added).
Proof.
  unfold attempt, processUrl, andThen, callParse.
  destruct (parseDriveLink google (length log) link) as [e|result] eqn:Hparse.
  - exists driveLinks, [ParseCall link (inl e)]. simpl. auto.
  - destruct (isAccessible result); cbn [negb].
    + exists (driveLinks ++ [mkDriveLink link false None]),
        [ParseCall link (inr result)].
      unfold pure. repeat split. right. eexists. repeat split.
    + unfold callPermission.
      set (log1 := log ++ [ParseCall link (inr result)]).
      destruct (generatePermissionUrl google (length log1) (fileId result))
        as [e|permission] eqn:Hperm.
      * exists driveLinks,
          [ParseCall link (inr result); PermissionCall (fileId result) (inl e)].
        unfold pure, log1. rewrite <- app_assoc. simpl. auto.
      * exists (driveLinks ++ [mkDriveLink link true (Some permission)]),
          [ParseCall link (inr result);
           PermissionCall (fileId result) (inr permission)].
        unfold pure, log1. rewrite <- app_assoc. simpl.
        repeat split. right. eexists. repeat split.
Qed.

Lemma processMatches_spec (matches : list str) :
  forall processedUrls driveLinks log,
    incl (map url driveLinks) processedUrls ->
    NoDup (map url driveLinks) ->
    Forall permissionConsistent driveLinks ->
    exists links calls,
      processMatches google matches processedUrls driveLinks log
      = (inr links, log ++ calls)
      /\ NoDup (map url links)
      /\ incl (map url links) (processedUrls ++ matches)
      /\ Forall permissionConsistent links
      /\ parsedUrls calls = firstOccurrences processedUrls matches.
Proof.
  induction matches as [|link rest IH];
    intros processedUrls driveLinks log Hincl Hnodup Hcons; simpl.
  - exists driveLinks, []. rewrite !app_nil_r. unfold pure. auto.
  - destruct (existsb (Js.eqb link) processedUrls) eqn:Hseen.
    + destruct (IH processedUrls driveLinks log Hincl Hnodup Hcons)
        as (links & calls & -> & Hn & Hi & Hc & Hp).
      exists links, calls. repeat split; auto.
      intros u Hu. specialize (Hi u Hu). apply in_app_or in Hi.
      apply in_or_app. destruct Hi; [left | right; right]; assumption.
    + apply existsb_eqb_false in Hseen. unfold andThen.
      destruct (attempt_processUrl link driveLinks log)
        as (links1 & calls1 & -> & Hparsed & Hadded).
      assert (Hstate : incl (map url links1) (processedUrls ++ [link])
                       /\ NoDup (map url links1)
                       /\ Forall permissionConsistent links1).
      { destruct Hadded as [->|(added & -> & Hurl & Hadd)].
        - repeat split; auto. intros u Hu. apply in_or_app. left. auto.
        - rewrite map_app. simpl. rewrite Hurl. repeat split.
          + intros u Hu. apply in_app_or in Hu. apply in_or_app.
            destruct Hu as [Hu|Hu]; [left; auto | right; exact Hu].
          + apply NoDup_app; [exact Hnodup | repeat constructor; auto |].
            intros u Hu [<-|[]]. apply Hseen. auto.
          + apply Forall_app. auto. }
      destruct Hstate as (Hincl1 & Hnodup1 & Hcons1).
      destruct (IH (processedUrls ++ [link]) links1 (log ++ calls1)
                  Hincl1 Hnodup1 Hcons1)
        as (links & calls & -> & Hn & Hi & Hc & Hp).
      exists links, (calls1 ++ calls). rewrite app_assoc.
      repeat split; auto.
      * rewrite <- app_assoc in Hi. exact Hi.
      * unfold parsedUrls in *. rewrite flat_map_app, Hparsed, Hp.
        reflexivity.
Qed.

(** X16: [checkDriveLinks] ends normally whatever the adapter does, a
    failing call only drops its link.  Its links are for URLs matched in
    the question, no two for the same URL, and a link carries a permission
    URL exactly when it requires permission.  Every distinct URL is parsed
    exactly once, in the order of its first appearance. *)
Theorem checkDriveLinks_result (question : str) :
  exists links log,
    checkDriveLinks google question [] = (inr links, log)
    /\ NoDup (map url links)
    /\ incl (map url links) (driveUrlMatches question)
    /\ Forall permissionConsistent links
    /\ parsedUrls log = firstOccurrences [] (driveUrlMatches question).
Proof.
  unfold checkDriveLinks.
  destruct (processMatches_spec (driveUrlMatches question) [] [] [])
    as (links & calls & Hrun & Hn & Hi & Hc & Hp);
    try (simpl; constructor). { intros u []. }
  destruct (driveUrlMatches question) as [|m matches] eqn:Hmatches.
  - exists [], []. unfold pure. repeat split; auto; try constructor.
    intros u [].
  - exists links, calls. repeat split; auto.
Qed.

End CheckDriveLinksProperties.

Section AccessMessageProperties.

Import Drive.

(** X17: the access request message is empty exactly when no link
    requires permission, which is how the caller decides whether to
    wait. *)
Theorem access_message_empty_iff (links : list DriveLink) :
  formatAccessRequestMessage links = []
  <-> Forall (fun link => requiresPermission link = false) links.
Proof.
  unfold formatAccessRequestMessage. split.
  - destruct (filter requiresPermission links) as [|l ls] eqn:Hfilter;
      [|discriminate].
    intros _. apply Forall_forall. intros link Hin.
    destruct (requiresPermission link) eqn:Hreq; [|reflexivity].
    assert (Hmem : In link (filter requiresPermission links))
      by (apply filter_In; auto).
    rewrite Hfilter in Hmem. contradiction.
  - intros Hall.
    replace (filter requiresPermission links) with (@nil DriveLink);
      [reflexivity|].
    symmetry. induction Hall as [|l ls Hl _ IH]; [reflexivity|].
    simpl. rewrite Hl. exact IH.
Qed.

(** X18: for links that carry a permission URL whenever they require
    permission, as those of [checkDriveLinks] do, the message lists those
    permission URLs, one per line after [- ], between its two fixed parts;
    no line reads [undefined]. *)
Theorem access_message_lists_permission_urls (links : list DriveLink) :
  Forall permissionConsistent links ->
  exists permissions,
    map permissionUrl (filter requiresPermission links)
    = map Some permissions
    /\ formatAccessRequestMessage links
       = match permissions with
         | [] => []
         | _ :: _ =>
             accessMessageHead
             ++ join (lit "
") (map (fun p => lit "- " ++ p) permissions)
             ++ accessMessageTail
         end.
Proof.
  intros Hcons.
  assert (Hperm : exists permissions,
             map permissionUrl (filter requiresPermission links)
             = map Some permissions).
  { induction Hcons as [|l ls Hl _ (ps & IH)]; [exists []; reflexivity|].
    simpl. destruct (requiresPermission l) eqn:Hreq; [|eauto].
    unfold permissionConsistent in Hl.
    destruct (permissionUrl l) as [p|] eqn:Hp; [|congruence].
    exists (p :: ps). simpl. rewrite Hp, IH. reflexivity. }
  destruct Hperm as (permissions & Hperm).
  exists permissions. split; [exact Hperm|].
  unfold formatAccessRequestMessage.
  assert (Hlines : map (fun link => lit "- " ++ render (permissionUrl link))
                     (filter requiresPermission links)
                   = map (fun p => lit "- " ++ p) permissions).
  { rewrite <- (map_map permissionUrl (fun o => lit "- " ++ render o)).
    rewrite Hperm, map_map. reflexivity. }
  destruct (filter requiresPermission links) as [|l ls];
    destruct permissions as [|p ps]; try discriminate; [reflexivity|].
  rewrite Hlines. reflexivity.
Qed.

End AccessMessageProperties.

(** ** Properties of [checkAccessStatus] *)

(** Access granted between the second and the third call is seen by the
    third poll. *)
Example poll_until_granted :
  Drive.checkAccessStatus grantingAdapter steadyClock 37 restrictedLinks []
  = (inr (Some true),
     [ Drive.ParseCall (lit "https://drive.google.com/file/d/xyz")
         (inr (Drive.mkParseResult false (lit "xyz")));
       Drive.ParseCall (lit "https://drive.google.com/file/d/xyz")
         (inr (Drive.mkParseResult false (lit "xyz")));
       Drive.ParseCall (lit "https://drive.google.com/file/d/xyz")
         (inr (Drive.mkParseResult true (lit "xyz"))) ]).
Proof. vm_compute. reflexivity. Qed.

(** Access never granted: with a reading every 25 seconds the loop gives up
    after 35 polls. *)
Example poll_until_deadline :
  let '(answer, log) :=
    Drive.checkAccessStatus refusingAdapter steadyClock 37 restrictedLinks []
  in answer = inr (Some false) /\ length log = 35.
Proof. vm_compute. split; reflexivity. Qed.

Section CheckAccessStatusProperties.

Import Drive.

Variable google : Adapter.
Variable now : nat -> Z.

Lemma seenAccessible_spec (link : DriveLink) (log : list DriveCall) :
  exists accessible call,
    seenAccessible google link log = (inr accessible, log ++ [call])
    /\ (exists answer, call = ParseCall (url link) answer)
    /\ (accessible = true -> seenAsAccessible link call).
Proof.
  unfold seenAccessible, attempt, andThen, callParse, pure.
  destruct (parseDriveLink google (length log) (url link)) as [e|result].
  - exists false, (ParseCall (url link) (inl e)).
    repeat split; [eauto | discriminate].
  - exists (isAccessible result), (ParseCall (url link) (inr result)).
    repeat split; [eauto|]. intros Hacc. exists result. auto.
Qed.

Lemma parsesOneOf_cons (link : DriveLink) (links : list DriveLink)
  (call : DriveCall) :
  parsesOneOf links call -> parsesOneOf (link :: links) call.
Proof.
  intros (l & answer & Hin & Hcall). exists l, answer. split; [right|]; auto.
Qed.

(** One round of the loop ends normally, parses links of the list only, at
    most each of them once, and reports full access only when it has parsed
    every link in turn and found it accessible. *)
Lemma pollOnce_spec (links : list DriveLink) :
  forall log,
    exists hasFullAccess calls,
      pollOnce google links log = (inr hasFullAccess, log ++ calls)
      /\ Forall (parsesOneOf links) calls
      /\ length calls <= length links
      /\ (hasFullAccess = true -> Forall2 seenAsAccessible links calls).
Proof.
  induction links as [|link rest IH]; intros log.
  - exists true, []. simpl. unfold pure. rewrite app_nil_r.
    repeat split; auto.
  - cbn [pollOnce]. unfold andThen.
    destruct (seenAccessible_spec link log)
      as (accessible & call & -> & (answer & Hcall) & Hseen).
    assert (Hone : parsesOneOf (link :: rest) call).
    { exists link, answer. split; [left; reflexivity | exact Hcall]. }
    destruct accessible.
    + destruct (IH (log ++ [call]))
        as (hasFullAccess & calls & -> & Hparse & Hlen & Hfull).
      exists hasFullAccess, (call :: calls).
      rewrite <- app_assoc. simpl. repeat split.
      * constructor; [exact Hone|].
        eapply Forall_impl; [|exact Hparse]. apply parsesOneOf_cons.
      * lia.
      * intros Htrue. constructor; auto.
    + exists false, [call]. unfold pure. simpl. repeat split.
      * constructor; auto.
      * lia.
      * discriminate.
Qed.

(** The loop never throws and parses links of the list only.  It answers
    [true] only after a round in which every link was found accessible, and
    [false] only after a reading of the clock at or past the limit. *)
Lemma pollLoop_spec (startTime : Z) (links : list DriveLink) (fuel : nat) :
  forall readings log,
    exists outcome calls,
      pollLoop google now fuel startTime links readings log
      = (inr outcome, log ++ calls)
      /\ Forall (parsesOneOf links) calls
      /\ (outcome = Some true ->
          exists earlier lastRound,
            calls = earlier ++ lastRound
            /\ Forall2 seenAsAccessible links lastRound)
      /\ (outcome = Some false ->
          exists k,
            readings <= k /\ (MAX_POLL_TIME <= now k - startTime)%Z).
Proof.
  induction fuel as [|fuel IH]; intros readings log.
  - exists None, []. simpl. unfold pure. rewrite app_nil_r.
    repeat split; auto; discriminate.
  - cbn [pollLoop].
    destruct (now readings - startTime <? MAX_POLL_TIME)%Z eqn:Htime.
    + unfold andThen.
      destruct (pollOnce_spec links log)
        as (hasFullAccess & calls1 & -> & Hparse1 & _ & Hfull).
      destruct hasFullAccess.
      * exists (Some true), calls1. unfold pure. repeat split; auto.
        -- intros _. exists [], calls1. auto.
        -- discriminate.
      * destruct (IH (S readings) (log ++ calls1))
          as (outcome & calls & -> & Hparse & Htrue & Hfalse).
        exists outcome, (calls1 ++ calls). rewrite app_assoc.
        repeat split.
        -- apply Forall_app. auto.
        -- intros Hout. destruct (Htrue Hout) as (earlier & lastRound & -> & H).
           exists (calls1 ++ earlier), lastRound. rewrite app_assoc. auto.
        -- intros Hout. destruct (Hfalse Hout) as (k & Hk & Hlate).
           exists k. split; [lia | exact Hlate].
    + exists (Some false), []. unfold pure. rewrite app_nil_r.
      repeat split; auto; [discriminate|].
      intros _. exists readings. split; [lia|].
      apply Z.ltb_ge. exact Htime.
Qed.

(** With readings at least the polling interval apart, the loop ends within
    the rounds the limit leaves room for. *)
Lemma pollLoop_bounded (startTime : Z) (links : list DriveLink)
  (fuel : nat) :
  forall readings log,
    (forall k, readings <= k -> (now k + POLL_INTERVAL <= now (S k))%Z) ->
    1 <= fuel ->
    (MAX_POLL_TIME
     <= now readings - startTime + POLL_INTERVAL * (Z.of_nat fuel - 1))%Z ->
    exists answer calls,
      pollLoop google now fuel startTime links readings log
      = (inr (Some answer), log ++ calls)
      /\ length calls <= (fuel - 1) * length links.
Proof.
  induction fuel as [|fuel IH]; intros readings log Hclock Hfuel Hroom;
    [lia|].
  cbn [pollLoop].
  destruct (now readings - startTime <? MAX_POLL_TIME)%Z eqn:Htime.
  - apply Z.ltb_lt in Htime.
    assert (Hmore : 1 <= fuel) by (unfold POLL_INTERVAL in Hroom; lia).
    unfold andThen.
    destruct (pollOnce_spec links log)
      as (hasFullAccess & calls1 & -> & _ & Hlen1 & _).
    destruct hasFullAccess.
    + exists true, calls1. unfold pure. split; [reflexivity|].
      replace (S fuel - 1) with fuel by lia. nia.
    + destruct (IH (S readings) (log ++ calls1))
        as (answer & calls & -> & Hlen); [| exact Hmore | |].
      * intros k Hk. apply Hclock. lia.
      * specialize (Hclock readings (le_n _)).
        unfold POLL_INTERVAL in *. lia.
      * exists answer, (calls1 ++ calls). rewrite app_assoc.
        split; [reflexivity|]. rewrite length_app.
        replace (S fuel - 1) with fuel by lia. nia.
  - exists false, []. unfold pure. rewrite app_nil_r. split; [reflexivity|].
    simpl. lia.
Qed.

(** X22: [checkAccessStatus] never throws, whatever the adapter does.  It
    answers [true] only when no link requires permission, or right after a
    round in which it parsed every link that requires permission, in their
    order, and found each accessible; it answers [false] only after a
    reading of the clock at least [MAX_POLL_TIME] after the first. *)
Theorem access_is_reported_only_when_seen (fuel : nat)
  (links : list DriveLink) (log : list DriveCall) :
  exists outcome calls,
    checkAccessStatus google now fuel links log = (inr outcome, log ++ calls)
    /\ (outcome = Some true ->
        exists earlier lastRound,
          calls = earlier ++ lastRound
          /\ Forall2 seenAsAccessible (filter requiresPermission links)
               lastRound)
    /\ (outcome = Some false ->
        exists k, 1 <= k /\ (MAX_POLL_TIME <= now k - now 0%nat)%Z).
Proof.
  unfold checkAccessStatus.
  destruct (filter requiresPermission links) as [|link needing] eqn:Hneed.
  - exists (Some true), []. unfold pure. rewrite app_nil_r.
    repeat split; [|discriminate].
    intros _. exists [], []. split; [reflexivity | constructor].
  - destruct (pollLoop_spec (now 0) (link :: needing) fuel 1 log)
      as (outcome & calls & Hrun & _ & Htrue & Hfalse).
    exists outcome, calls. auto.
Qed.

(** X23: the only calls [checkAccessStatus] makes are [parseDriveLink] on
    the URLs of links that require permission: it never asks for a
    permission URL and never parses a link that is already accessible. *)
Theorem polling_parses_restricted_links_only (fuel : nat)
  (links : list DriveLink) (log : list DriveCall) :
  exists calls,
    snd (checkAccessStatus google now fuel links log) = log ++ calls
    /\ Forall (parsesOneOf (filter requiresPermission links)) calls.
Proof.
  unfold checkAccessStatus.
  destruct (filter requiresPermission links) as [|link needing] eqn:Hneed.
  - exists []. unfold pure. rewrite app_nil_r. simpl. auto.
  - destruct (pollLoop_spec (now 0) (link :: needing) fuel 1 log)
      as (outcome & calls & Hrun & Hparse & _).
    exists calls. rewrite Hrun. auto.
Qed.

(** X24: when the readings of the clock are at least [POLL_INTERVAL] apart,
    as the wait between two rounds makes them, [checkAccessStatus] returns
    an answer after at most 36 rounds, so after at most 36 calls for each
    link that requires permission. *)
Theorem polling_ends_within_the_limit (links : list DriveLink)
  (log : list DriveCall) :
  clockWaits now ->
  exists answer calls,
    checkAccessStatus google now 37 links log = (inr (Some answer), log ++ calls)
    /\ length calls <= 36 * length (filter requiresPermission links).
Proof.
  intros (Hstart & Hwaits). unfold checkAccessStatus.
  destruct (filter requiresPermission links) as [|link needing] eqn:Hneed.
  - exists true, []. unfold pure. rewrite app_nil_r. simpl. auto.
  - apply (pollLoop_bounded (now 0) (link :: needing) 37 1 log).
    + exact Hwaits.
    + lia.
    + unfold MAX_POLL_TIME, POLL_INTERVAL. lia.
Qed.

End CheckAccessStatusProperties.

(** ** Properties of [addCommentToIssue] *)

Section AddCommentProperties.

Import Comments.

Variable octokit : Octokit.

Lemma updateOrCreate_outcome (update : Z -> Request) (create : Request)
  (message : str) (w : World) :
  (forall last, updates last (update last)
                /\ bodyOf (update last) = message) ->
  isCreate create = true -> bodyOf create = message ->
  stepOutcome octokit message w (fst (updateOrCreate octokit update create w))
    (snd (updateOrCreate octokit update create w)).
Proof.
  intros Hupdate Hcreate Hbody. right. unfold updateOrCreate, rest.
  destruct (truthyValue (lastCommentId w)) as [last|] eqn:Hlast.
  - exists (update last). cbv zeta.
    destruct (Hupdate last) as [Hup Hb].
    destruct (octokit (length (calls w)) (update last)); simpl; auto.
  - exists create. cbv zeta.
    destruct (octokit (length (calls w)) create); simpl; auto.
Qed.

(** One invocation, as a step of the state. *)
Lemma addCommentToIssue_step (payload : Payload) (message : str)
  (inReplyTo : InReplyTo) (w : World) :
  stepOutcome octokit message w
    (fst (addCommentToIssue octokit payload message inReplyTo w))
    (snd (addCommentToIssue octokit payload message inReplyTo w)).
Proof.
  unfold addCommentToIssue. cbv zeta.
  assert (Hthrow : forall e,
             stepOutcome octokit message w (fst (@inl Exn CommentInfo e, w))
               (snd (@inl Exn CommentInfo e, w))).
  { intros e. left. simpl. eauto. }
  destruct (truthyValue match inReplyTo with Some c => c | None => None end)
    as [reply|].
  - destruct (truthyValue _) as [pull|].
    + apply updateOrCreate_outcome; simpl; auto.
    + destruct (orElse _ _) as [number|]; [|apply Hthrow].
      apply updateOrCreate_outcome; simpl; auto.
  - destruct (truthyValue _) as [number|]; [|apply Hthrow].
    apply updateOrCreate_outcome; simpl; auto.
Qed.

(** X19: one invocation makes at most one REST call, with the message as
    its body.  While [lastCommentId] holds an id the call updates that
    comment and the id stays, whatever the payload and the options say;
    otherwise the call creates a comment, and the id of the returned
    comment is kept.  An invocation that throws leaves [lastCommentId] as
    it was. *)
Theorem addCommentToIssue_outcome (payload : Payload) (message : str)
  (inReplyTo : InReplyTo) (w : World) :
  let r := fst (addCommentToIssue octokit payload message inReplyTo w) in
  let w' := snd (addCommentToIssue octokit payload message inReplyTo w) in
  exists new,
    calls w' = calls w ++ new
    /\ length new <= 1
    /\ Forall (fun call : Call =>
                 bodyOf (fst call) = message
                 /\ snd call = octokit (length (calls w)) (fst call)) new
    /\ match truthyValue (lastCommentId w) with
       | Some last =>
           Forall (fun call : Call => updates last (fst call)) new
           /\ lastCommentId w' = lastCommentId w
       | None =>
           Forall (fun call : Call => isCreate (fst call) = true) new
           /\ lastCommentId w'
              = match r with
                | inr info => Some (infoId info)
                | inl _ => lastCommentId w
                end
       end.
Proof.
  cbv zeta.
  destruct (addCommentToIssue_step payload message inReplyTo w)
    as [(Hcalls & Hlast & e & Hr)|(request & Hstep)].
  - exists []. rewrite app_nil_r, Hr, Hlast.
    repeat split; auto.
    destruct (truthyValue (lastCommentId w)); auto.
  - cbv zeta in Hstep. destruct Hstep as (Hcalls & Hbody & Hr & Hkind).
    exists [(request, octokit (length (calls w)) request)].
    split; [exact Hcalls|]. split; [simpl; lia|].
    split; [repeat constructor; exact Hbody|].
    destruct (truthyValue (lastCommentId w)) as [last|].
    + destruct Hkind as [Hup Hlast]. split; [repeat constructor|]; assumption.
    + destruct Hkind as [Hc Hlast]. split; [repeat constructor; exact Hc|].
      rewrite Hlast, Hr.
      destruct (octokit (length (calls w)) request); reflexivity.
Qed.

Lemma threadState_oneComment (w : World) :
  threadState w -> oneComment (calls w).
Proof.
  assert (Hfailed : forall failed rest,
             Forall (fun call : Call =>
                       isCreate (fst call) = true
                       /\ exists e, snd call = inl e) failed ->
             oneComment rest -> oneComment (failed ++ rest)).
  { intros failed rest Hf Hrest.
    induction Hf as [|[request answer] failed (Hc & e & He) _ IH];
      [exact Hrest|].
    simpl in *. subst answer. auto. }
  unfold threadState.
  destruct (truthyValue (lastCommentId w)) as [last|].
  - intros (failed & request & data & later & -> & Hf & Hc & Hid & Hl).
    apply Hfailed; [exact Hf|]. simpl. subst last. auto.
  - intros Hf. rewrite <- (app_nil_r (calls w)).
    apply Hfailed; [exact Hf | exact I].
Qed.

Hypothesis ids_not_zero :
  forall n request data, octokit n request = inr data -> dataId data <> 0%Z.

Lemma threadState_step (message : str) (w : World) (r : Exn + CommentInfo)
  (w' : World) :
  threadState w -> stepOutcome octokit message w r w' -> threadState w'.
Proof.
  unfold threadState, stepOutcome.
  intros Hstate [(Hcalls & Hlast & _)|(request & Hstep)].
  - rewrite Hcalls, Hlast. exact Hstate.
  - cbv zeta in Hstep. destruct Hstep as (Hcalls & _ & _ & Hkind).
    destruct (truthyValue (lastCommentId w)) as [last|] eqn:Htruthy.
    + destruct Hkind as [Hup Hlast]. rewrite Hlast, Htruthy, Hcalls.
      destruct Hstate as (failed & req & data & later & -> & Hf & Hc & Hid & Hl).
      exists failed, req, data, (later ++ [(request, octokit
        (length (failed ++ (req, inr data) :: later)) request)]).
      rewrite <- app_assoc. simpl.
      repeat split; auto. apply Forall_app. split; [exact Hl|].
      repeat constructor. exact Hup.
    + destruct Hkind as [Hc Hlast]. rewrite Hlast, Hcalls.
      destruct (octokit (length (calls w)) request) as [e|data] eqn:Hanswer.
      * rewrite Htruthy. apply Forall_app. split; [exact Hstate|].
        repeat constructor; [exact Hc | exists e; reflexivity].
      * pose proof (ids_not_zero _ _ _ Hanswer) as Hid.
        cbn [truthyValue].
        destruct (Z.eqb (dataId data) 0) eqn:Hz;
          [apply Z.eqb_eq in Hz; contradiction|].
        exists (calls w), request, data, []. repeat split; auto.
Qed.

(** X20: when the ids that the REST calls return are not zero, a process
    that starts with [lastCommentId] at [null] creates at most one comment
    however many times it is invoked: its calls are creations that failed,
    then one creation that succeeded, then only updates of the comment
    that this one created. *)
Theorem one_comment_per_process
  (invocations : list (Payload * str * InReplyTo)) :
  oneComment (calls (addComments octokit invocations (mkWorld None []))).
Proof.
  apply threadState_oneComment.
  assert (Hinit : threadState (mkWorld None [])) by constructor.
  revert Hinit. generalize (mkWorld None []).
  induction invocations as [|[[payload message] inReplyTo] rest IH];
    intros w Hstate; [exact Hstate|].
  simpl. apply IH.
  eapply threadState_step; [exact Hstate|].
  apply addCommentToIssue_step.
Qed.

End AddCommentProperties.

Example two_invocations_one_comment :
  map fst (Comments.calls
             (Comments.addComments sampleOctokit sampleInvocations
                (Comments.mkWorld None [])))
  = [ Comments.CreateComment (lit "ubiquibot") (lit "ask-plugin") 12
        (lit "Thinking...") None;
      Comments.UpdateComment (lit "ubiquibot") (lit "ask-plugin") None
        (lit "The answer") 7 ].
Proof. vm_compute. reflexivity. Qed.

(** An id of zero is not kept as a comment to update: the next invocation
    creates again. *)
Example zero_id_creates_again :
  map (fun call => Comments.isCreate (fst call))
    (Comments.calls
       (Comments.addComments zeroIdOctokit sampleInvocations
          (Comments.mkWorld None [])))
  = [true; true].
Proof. vm_compute. reflexivity. Qed.

Lemma one_comment_witness :
  Comments.oneComment
    (Comments.calls
       (Comments.addComments sampleOctokit sampleInvocations
          (Comments.mkWorld None []))).
Proof.
  apply (one_comment_per_process sampleOctokit).
  intros n request data [= <-]. discriminate.
Defined.

Lemma sanitized_witness :
  Errors.includes (Errors.sanitizeText (lit "<!-- x --->")) (lit "--") = false.
Proof.
  apply (sanitized_metadata_is_comment_safe str (@Some str)
           (lit "<!-- x --->")).
  reflexivity.
Defined.

Lemma sanitizing_twice_witness :
  Errors.sanitizeText (lit "plain text") = lit "plain text".
Proof.
  apply (sanitizing_twice_changes_nothing (lit "plain text"));
    vm_compute; intuition discriminate.
Defined.

Lemma matched_urls_witness :
  Forall notDelimiter (lit "https://drive.google.com/file/d/xyz").
Proof.
  apply (matched_urls_are_drive_urls sampleQuestion).
  rewrite driveUrlMatches_sample. right. left. reflexivity.
Defined.

Lemma access_message_empty_witness :
  Drive.formatAccessRequestMessage
    [Drive.mkDriveLink (lit "https://docs.google.com/document/d/abc/edit")
       false None]
  = [].
Proof.
  apply (proj2 (access_message_empty_iff _)).
  repeat constructor.
Defined.

Lemma access_message_witness :
  exists permissions,
    map Drive.permissionUrl
      (filter Drive.requiresPermission
         [Drive.mkDriveLink (lit "https://drive.google.com/file/d/xyz") true
            (Some (lit "https://accounts.example/grant/xyz"))])
    = map Some permissions.
Proof.
  destruct (access_message_lists_permission_urls
              [Drive.mkDriveLink (lit "https://drive.google.com/file/d/xyz")
                 true (Some (lit "https://accounts.example/grant/xyz"))])
    as (permissions & Hperm & _).
  - repeat constructor.
  - exists permissions. exact Hperm.
Defined.

Lemma polling_ends_witness :
  exists answer calls,
    Drive.checkAccessStatus refusingAdapter steadyClock 37 restrictedLinks []
    = (inr (Some answer), calls)
    /\ length calls <= 36.
Proof.
  apply (polling_ends_within_the_limit refusingAdapter steadyClock
           restrictedLinks []).
  unfold clockWaits, steadyClock, Drive.POLL_INTERVAL. split; intros; lia.
Defined.
